(** * Enigma: a shallow embedding of [enigma.py] and [EnigmaAdvanced.py]

    The development follows the two Python modules class by class.

    Modelling conventions.
    - A one-character Python string is its code point, a [Z]; [ord] and [chr]
      are therefore the identity.  A Python string is a list of code points.
      The tests [isalpha], [isupper], [isnumeric] and [strip] are modelled on
      the ASCII range.
    - A method that can raise returns a [result]; a method that mutates
      [self] is a function [S -> result A * S]: the second component is the
      object as the method leaves it, also when it raises.
    - A Python [set] is a duplicate-free list; iteration follows the list.
      The statements about [Plugboard.encode] quantify over the leads by
      membership, and hold in every iteration order.
    - Tests on the dynamic type of an argument ([isinstance], [type(x) != str],
      [type(ring) != int]) are settled by the Rocq types: a lead is a
      [PlugLead], a ring an integer, a symbol or a position one character.
    - The outcomes of the calls to [random] are an argument of the methods
      that draw.
    - Python's character tests agree with those of the embedding on ASCII
      characters, and a position is one character.  A statement about the
      machines that a constructor builds is therefore made for arguments
      written in ASCII ([ascii_arguments]): positions of one ASCII character
      each, custom wirings, notches and lead strings of ASCII characters. *)

From Stdlib Require Import String Ascii DecimalString.
From Stdlib Require Import ZArith List Bool Lia ListSet Permutation Sorted.
Import ListNotations.
Open Scope Z_scope.

(** ** Python primitives *)

Module Py.

Inductive exn : Type :=
| ValueError | TypeError | AttributeError | IndexError
| StopIteration | UnboundLocalError.

Inductive result (A : Type) : Type :=
| Ok (a : A)
| Raise (e : exn).
Arguments Ok {A} a.
Arguments Raise {A} e.

Definition rbind {A B} (r : result A) (k : A -> result B) : result B :=
  match r with
  | Ok a => k a
  | Raise e => Raise e
  end.

(** Stateful, fallible methods: the state survives a raise. *)
Definition M (S A : Type) : Type := S -> result A * S.

Definition ret {S A} (a : A) : M S A := fun s => (Ok a, s).
Definition throw {S A} (e : exn) : M S A := fun s => (Raise e, s).
Definition bind {S A B} (m : M S A) (k : A -> M S B) : M S B :=
  fun s => match m s with
           | (Ok a, s') => k a s'
           | (Raise e, s') => (Raise e, s')
           end.
Definition lift {S A} (r : result A) : M S A := fun s => (r, s).
Definition get {S} : M S S := fun s => (Ok s, s).
Definition put {S} (s : S) : M S unit := fun _ => (Ok tt, s).

Definition char : Type := Z.
Definition str : Type := list char.

Definition ord (s : string) : char :=
  match s with
  | String a _ => Z.of_N (N_of_ascii a)
  | EmptyString => 0
  end.

Definition lit (s : string) : str :=
  map (fun a => Z.of_N (N_of_ascii a)) (list_ascii_of_string s).

Definition c_isupper (c : char) : bool := (65 <=? c) && (c <=? 90).
Definition c_islower (c : char) : bool := (97 <=? c) && (c <=? 122).
Definition c_isalpha (c : char) : bool := c_isupper c || c_islower c.
Definition c_isnumeric (c : char) : bool := (48 <=? c) && (c <=? 57).
Definition c_isspace (c : char) : bool :=
  ((9 <=? c) && (c <=? 13)) || ((28 <=? c) && (c <=? 32)).

(** [s.isalpha()], [s.isupper()], [s.isnumeric()] on a whole string. *)
Definition isalpha (s : str) : bool :=
  negb (Nat.eqb (length s) 0) && forallb c_isalpha s.
Definition isupper (s : str) : bool :=
  existsb c_isupper s && forallb (fun c => negb (c_islower c)) s.
Definition isnumeric (s : str) : bool :=
  negb (Nat.eqb (length s) 0) && forallb c_isnumeric s.

Fixpoint lstrip (s : str) : str :=
  match s with
  | c :: s' => if c_isspace c then lstrip s' else s
  | [] => []
  end.
Definition strip (s : str) : str := rev (lstrip (rev (lstrip s))).

Definition str_eqb (a b : str) : bool :=
  if list_eq_dec Z.eq_dec a b then true else false.

Definition mem (c : char) (s : list char) : bool := set_mem Z.eq_dec c s.

(** [l.index(x)]: position of the first occurrence, [ValueError] if none. *)
Fixpoint index (x : char) (l : list char) : result nat :=
  match l with
  | [] => Raise ValueError
  | y :: l' => if x =? y then Ok O else rbind (index x l') (fun n => Ok (S n))
  end.

(** [l[i]] for [0 <= i]: [IndexError] past the end. *)
Definition getitem {A} (l : list A) (i : nat) : result A :=
  match nth_error l i with
  | Some a => Ok a
  | None => Raise IndexError
  end.

(** [l[-k]] for [1 <= k]. *)
Definition getneg {A} (l : list A) (k : nat) : result A :=
  match k with
  | O => Raise IndexError
  | S k' => getitem (rev l) k'
  end.

(** In-place update of [l[-k]]. *)
Fixpoint update {A} (l : list A) (i : nat) (a : A) : list A :=
  match l, i with
  | [], _ => []
  | _ :: l', O => a :: l'
  | x :: l', S i' => x :: update l' i' a
  end.
Definition setneg {A} (l : list A) (k : nat) (a : A) : list A :=
  rev (update (rev l) (pred k) a).

End Py.
Import Py.

Declare Scope py_scope.
Delimit Scope py_scope with py.
Notation "x <- m ;; k" := (bind m (fun x => k))
  (at level 61, m at next level, right associativity) : py_scope.
Notation "m ;;; k" := (bind m (fun _ => k))
  (at level 61, right associativity) : py_scope.
Notation "x <~ r ;; k" := (rbind r (fun x => k))
  (at level 61, r at next level, right associativity) : py_scope.
Open Scope py_scope.

(** ** [enigma.py] *)

(** *** class PlugLead

    The set [__pair] is kept as the sorted list of its elements, so that set
    equality is list equality.  [rewire] is not modelled: nothing below calls
    it. *)

Record PlugLead : Type := mkPlugLead {
  pair : list char;
  first_letter : char;
  last_letter : char
}.

Definition mkpair (a b : char) : list char :=
  if a =? b then [a] else [Z.min a b; Z.max a b].

(** The tests on [mapping] are those of Python on an ASCII string. *)
Definition PlugLead_init (mapping : str) : result PlugLead :=
  if negb (isalpha mapping) || negb (isupper mapping) then Raise ValueError
  else
    let mapping := strip mapping in
    match mapping with
    | [m0; m1] =>
        if m0 =? m1 then Raise ValueError
        else Ok {| pair := mkpair m0 m1;
                   first_letter := Z.min m0 m1;
                   last_letter := Z.max m0 m1 |}
    | _ => Raise ValueError
    end.

(** [__eq__] compares the pairs only. *)
Definition PlugLead_eqb (a b : PlugLead) : bool := str_eqb (pair a) (pair b).

Definition PlugLead_encode (self : PlugLead) (character : char) : result char :=
  if negb (c_isalpha character) || negb (c_isupper character)
  then Raise ValueError
  else if mem character (pair self)
  then match set_remove Z.eq_dec character (pair self) with
       | x :: _ => Ok x
       | [] => Raise StopIteration
       end
  else Ok character.

(** [rewire] replaces the pair and nothing else: it does not test that the
    two letters differ, and [__first_letter] and [__last_letter] keep the
    values [__init__] gave them. *)
Definition PlugLead_rewire (new_mapping : str) : M PlugLead unit :=
  fun self =>
    if negb (isalpha new_mapping) || negb (isupper new_mapping)
    then (Raise ValueError, self)
    else
      let new_mapping := strip new_mapping in
      match new_mapping with
      | [m0; m1] =>
          (Ok tt, {| pair := mkpair m0 m1;
                     first_letter := first_letter self;
                     last_letter := last_letter self |})
      | _ => (Raise ValueError, self)
      end.

(** *** class Plugboard *)

Inductive warning : Type := AlreadyConnected | LimitReached.

Record Plugboard : Type := mkPlugboard {
  connections : list PlugLead;
  occupied_letters : list char
}.

Definition connection_limit : nat := 10.

Definition conn_mem (pl : PlugLead) (l : list PlugLead) : bool :=
  existsb (PlugLead_eqb pl) l.
Definition conn_add (pl : PlugLead) (l : list PlugLead) : list PlugLead :=
  if conn_mem pl l then l else l ++ [pl].
Definition conn_remove (pl : PlugLead) (l : list PlugLead) : list PlugLead :=
  filter (fun q => negb (PlugLead_eqb pl q)) l.

(** The message of the first [raise] is an f-string that reads
    [pl.__first_letter] inside class [Plugboard]; the name is mangled to
    [_Plugboard__first_letter], which a [PlugLead] does not have, so building
    the message raises [AttributeError] before the [ValueError] exists. *)
Definition Plugboard_add (pl : PlugLead) : M Plugboard (list warning) :=
  fun self =>
    let occ := occupied_letters self in
    if mem (first_letter pl) occ && mem (last_letter pl) occ
    then (Raise AttributeError, self)
    else if mem (first_letter pl) occ then (Raise ValueError, self)
    else if mem (last_letter pl) occ then (Raise ValueError, self)
    else
      let w := if conn_mem pl (connections self)
               then [AlreadyConnected] else [] in
      if (connection_limit <=? length (connections self))%nat
      then (Ok (w ++ [LimitReached]), self)
      else (Ok w,
            {| connections := conn_add pl (connections self);
               occupied_letters := set_union Z.eq_dec occ (pair pl) |}).

Definition Plugboard_remove (pl : PlugLead) : M Plugboard unit :=
  fun self =>
    if conn_mem pl (connections self)
    then (Ok tt, {| connections := conn_remove pl (connections self);
                    occupied_letters := occupied_letters self |})
    else (Raise ValueError, self).

(** [for lead in leads: self.add(PlugLead(lead))] *)
Fixpoint Plugboard_add_all (leads : list str) : M Plugboard unit :=
  match leads with
  | [] => ret tt
  | lead :: rest =>
      pl <- lift (PlugLead_init lead) ;;
      Plugboard_add pl ;;;
      Plugboard_add_all rest
  end.

Definition Plugboard_reset (leads : option (list str)) : M Plugboard unit :=
  fun self =>
    let self := {| connections := [];
                   occupied_letters := occupied_letters self |} in
    match leads with
    | None => (Ok tt, self)
    | Some ls => Plugboard_add_all ls self
    end.

Definition Plugboard_init (leads : option (list str)) : result Plugboard :=
  let self := {| connections := []; occupied_letters := [] |} in
  match leads with
  | None => Ok self
  | Some ls =>
      match Plugboard_add_all ls self with
      | (Ok _, self') => Ok self'
      | (Raise e, _) => Raise e
      end
  end.

Fixpoint Plugboard_encode_loop (conns : list PlugLead) (i n : nat)
    (character : char) : result char :=
  match conns with
  | [] => Raise ValueError
  | pl :: rest =>
      let i := S i in
      if mem character (pair pl) || Nat.eqb i n
      then PlugLead_encode pl character
      else Plugboard_encode_loop rest i n character
  end.

Definition Plugboard_encode (self : Plugboard) (character : char) : result char :=
  Plugboard_encode_loop (connections self) 0
    (length (connections self)) character.

(** *** class Rotor

    [name] and the class counters that number the custom rotors are left
    out: no method reads them. *)

Inductive rotor_type : Type :=
| Named (s : string)                        (* 'I', 'Beta', 'B', ... *)
| Tuple (wiring : list char) (notch : str)  (* (list, str) *)
| List (wiring : list char).                (* list *)

Record Rotor : Type := mkRotor {
  ring : Z;
  position : char;
  double_step : bool;
  mapping : list char;
  notch : option str;
  is_reflector : bool
}.

Definition alphabet_size : Z := 26.

Definition named_rotor (s : string) : option (str * option str * bool) :=
  if String.eqb s "I" then
    Some (lit "EKMFLGDQVZNTOWYHXUSPAIBRCJ", Some (lit "Q"), false)
  else if String.eqb s "II" then
    Some (lit "AJDKSIRUXBLHWTMCQGZNPYFVOE", Some (lit "E"), false)
  else if String.eqb s "III" then
    Some (lit "BDFHJLCPRTXVZNYEIWGAKMUSQO", Some (lit "V"), false)
  else if String.eqb s "IV" then
    Some (lit "ESOVPZJAYQUIRHXLNFTGKDCMWB", Some (lit "J"), false)
  else if String.eqb s "V" then
    Some (lit "VZBRGITYUPSDNHLXAWMJQOFECK", Some (lit "Z"), false)
  else if String.eqb s "Beta" then
    Some (lit "LEYJVCNIXWPBQMDRTAKZGFUHOS", None, false)
  else if String.eqb s "Gamma" then
    Some (lit "FSOKANUERHMBTIYCWLQPZXVGJD", None, false)
  else if String.eqb s "A" then
    Some (lit "EJMZALYXVBWFCRQUONTSPIKHGD", None, true)
  else if String.eqb s "B" then
    Some (lit "YRUHQSLDPXNGOKMIEBFZCWVJAT", None, true)
  else if String.eqb s "C" then
    Some (lit "FVPJIAOYEDRZXWGCTKUQSBNMHL", None, true)
  else None.

(** [position] is one character; the tests on it, on the letters of a custom
    wiring and on the notch are those of Python on ASCII characters. *)
Definition Rotor_init (rt : rotor_type) (ring : Z) (position : char)
    : result Rotor :=
  if (ring <? 1) || (ring >? 26) then Raise ValueError
  else if negb (c_isalpha position) || negb (c_isupper position)
  then Raise ValueError
  else
    let mk m n r :=
      Ok {| ring := ring; position := position; double_step := false;
            mapping := m; notch := n; is_reflector := r |} in
    match rt with
    | Named s =>
        match named_rotor s with
        | Some (m, n, r) => mk m n r
        | None => Raise ValueError
        end
    | Tuple w n =>
        if Nat.eqb (length w) 26
           && forallb (fun letter => c_isalpha letter && c_isupper letter) w
           && isalpha n && isupper n && Nat.eqb (length n) 1
        then mk w (Some n) false
        else Raise ValueError
    | List w =>
        if Nat.eqb (length w) 26 then mk w None false
        else Raise ValueError
    end.

Definition set_position (p : char) (r : Rotor) : Rotor :=
  {| ring := ring r; position := p; double_step := double_step r;
     mapping := mapping r; notch := notch r; is_reflector := is_reflector r |}.
Definition set_ring (n : Z) (r : Rotor) : Rotor :=
  {| ring := n; position := position r; double_step := double_step r;
     mapping := mapping r; notch := notch r; is_reflector := is_reflector r |}.
Definition set_is_reflector (b : bool) (r : Rotor) : Rotor :=
  {| ring := ring r; position := position r; double_step := double_step r;
     mapping := mapping r; notch := notch r; is_reflector := b |}.

Definition advance_position (self : Rotor) : Rotor :=
  if position self =? ord "Z" then set_position (ord "A") self
  else set_position (position self + 1) self.

(** [self.position == self.notch]: a string against a string or [None]. *)
Definition check_notch (self : Rotor) : bool :=
  match notch self with
  | Some n => str_eqb [position self] n
  | None => false
  end.

(** The test on [c], here and in [encode_left_to_right], is that of Python
    on an ASCII character. *)
Definition encode_right_to_left (self : Rotor) (c : char) : result char :=
  if negb (c_isupper c) || negb (c_isalpha c) then Raise ValueError
  else getitem (mapping self) (Z.to_nat (c - ord "A")).

Definition encode_left_to_right (self : Rotor) (c : char) : result char :=
  if negb (c_isupper c) || negb (c_isalpha c) then Raise ValueError
  else i <~ index c (mapping self) ;; Ok (Z.of_nat i + ord "A").

Definition encode_offset_rtl (self : Rotor) (c : char) : result char :=
  let offset := position self - ord "A" - ring self + 1 in
  let offset_char := ((c - 65 + offset) mod 26) + 65 in
  encode_char <~ encode_right_to_left self offset_char ;;
  Ok (((encode_char - 65 - offset) mod 26) + 65).

Definition encode_offset_ltr (self : Rotor) (c : char) : result char :=
  let offset := position self - ord "A" - ring self + 1 in
  let offset_char := ((c - 65 + offset) mod 26) + 65 in
  encode_char <~ encode_left_to_right self offset_char ;;
  Ok (((encode_char - 65 - offset) mod 26) + 65).

Definition abc : list char := map (fun i => 65 + Z.of_nat i) (seq 0 26).

(** [dic] is the association list [zip(abc, mapping)]: the keys are distinct,
    so the dict keeps every pair, in this order. *)
Fixpoint valid_reflector_loop (dic todo : list (char * char)) : result bool :=
  match todo with
  | [] => Ok true
  | (key, value) :: rest =>
      i <~ index key (map snd dic) ;;
      k <~ getitem (map fst dic) i ;;
      if negb (value =? k) then Ok false
      else valid_reflector_loop dic rest
  end.

Definition valid_reflector (self : Rotor) : result bool :=
  match notch self with
  | Some _ => Ok false
  | None =>
      let dic := combine abc (mapping self) in
      valid_reflector_loop dic dic
  end.

(** *** class Commercial_enigma *)

Record Commercial_enigma : Type := mkCE {
  rotors : list Rotor;
  ring_length : Z;
  position_length : Z
}.

Definition set_rotors (rs : list Rotor) (ce : Commercial_enigma) :=
  {| rotors := rs; ring_length := ring_length ce;
     position_length := position_length ce |}.

(** [[Rotor(input) for input in rotors]] *)
Fixpoint build_rotors (rts : list rotor_type) : result (list Rotor) :=
  match rts with
  | [] => Ok []
  | rt :: rest =>
      r <~ Rotor_init rt 1 (ord "A") ;;
      rs <~ build_rotors rest ;;
      Ok (r :: rs)
  end.

(** The loop of [ring_settings]: rotor [i+1] gets [rings[i]]. *)
Fixpoint ring_settings_loop (i : nat) (rings : list Z)
    : M (list Rotor) unit :=
  match rings with
  | [] => ret tt
  | ring :: rest =>
      fun rs =>
        if (ring <? 1) || (ring >? 26) then (Raise ValueError, rs)
        else match nth_error rs (S i) with
             | Some r => ring_settings_loop (S i) rest
                           (update rs (S i) (set_ring ring r))
             | None => (Raise IndexError, rs)
             end
  end.

Definition ring_settings (rings : list Z) : M (list Rotor) unit :=
  fun rs =>
    if negb (Z.of_nat (length rings) =? Z.of_nat (length rs) - 1)
    then (Raise ValueError, rs)
    else ring_settings_loop 0 rings rs.

(** Every position is one character, tested as an ASCII character. *)
Fixpoint position_settings_loop (i : nat) (positions : list char)
    : M (list Rotor) unit :=
  match positions with
  | [] => ret tt
  | p :: rest =>
      fun rs =>
        if negb (c_isalpha p) || negb (c_isupper p) then (Raise ValueError, rs)
        else match nth_error rs (S i) with
             | Some r => position_settings_loop (S i) rest
                           (update rs (S i) (set_position p r))
             | None => (Raise IndexError, rs)
             end
  end.

Definition position_settings (positions : list char) : M (list Rotor) unit :=
  fun rs =>
    if negb (Z.of_nat (length positions) =? Z.of_nat (length rs) - 1)
    then (Raise ValueError, rs)
    else position_settings_loop 0 positions rs.

Definition opt_apply {A} (f : A -> M (list Rotor) unit) (o : option A)
    : list Rotor -> result (list Rotor) :=
  fun rs =>
    match o with
    | None => Ok rs
    | Some a => match f a rs with
                | (Ok _, rs') => Ok rs'
                | (Raise e, _) => Raise e
                end
    end.

Definition Commercial_enigma_init (rts : list rotor_type)
    (rings : option (list Z)) (positions : option (list char))
    : result Commercial_enigma :=
  if negb (Nat.eqb (length rts) 4 || Nat.eqb (length rts) 5)
  then Raise ValueError
  else
    rs <~ build_rotors rts ;;
    r0 <~ getitem rs 0 ;;
    rs <~ (if negb (is_reflector r0)
           then v <~ valid_reflector r0 ;;
                if v then Ok (update rs 0 (set_is_reflector true r0))
                else Raise ValueError
           else Ok rs) ;;
    if existsb is_reflector (tl rs) then Raise ValueError
    else
      rs <~ opt_apply ring_settings rings rs ;;
      rs <~ opt_apply position_settings positions rs ;;
      Ok {| rotors := rs;
            ring_length := Z.of_nat (length rts) - 1;
            position_length := Z.of_nat (length rts) - 1 |}.

(** [self.rotors[-k].advance_position()] *)
Definition advance_neg (k : nat) : M Commercial_enigma unit :=
  fun self =>
    match getneg (rotors self) k with
    | Ok r => (Ok tt, set_rotors (setneg (rotors self) k (advance_position r))
                        self)
    | Raise e => (Raise e, self)
    end.

(** [self.rotors[-k].position == self.rotors[-k].notch] *)
Definition notch_neg (k : nat) : M Commercial_enigma bool :=
  fun self => (r <~ getneg (rotors self) k ;; Ok (check_notch r), self).

Definition when {S} (b : bool) (m : M S unit) : M S unit :=
  if b then m else ret tt.

Definition rotate : M Commercial_enigma unit :=
  rot1 <- notch_neg 1 ;;
  rot2 <- notch_neg 2 ;;
  advance_neg 1 ;;;
  when rot1 (advance_neg 2) ;;;
  when rot2 (when (negb rot1) (advance_neg 2) ;;; advance_neg 3).

(** [for r in rs: char = f(r, char)] *)
Fixpoint pass (f : Rotor -> char -> result char) (rs : list Rotor)
    (c : char) : result char :=
  match rs with
  | [] => Ok c
  | r :: rest => c' <~ f r c ;; pass f rest c'
  end.

(** The first loop visits [rotors[-1]], ..., [rotors[-len]]; the second
    [rotors[1]], ..., [rotors[len-1]]. *)
Definition Commercial_enigma_encode (c : char) : M Commercial_enigma char :=
  rotate ;;;
  self <- get ;;
  lift (c <~ pass encode_offset_rtl (rev (rotors self)) c ;;
        pass encode_offset_ltr (tl (rotors self)) c).

Fixpoint encode_string_loop {S} (enc : char -> M S char) (s : str)
    (out : str) : M S str :=
  match s with
  | [] => ret out
  | c :: rest =>
      c' <- enc c ;;
      encode_string_loop enc rest (out ++ [c'])
  end.

Definition Commercial_enigma_encode_string (s : str)
    : M Commercial_enigma str :=
  encode_string_loop Commercial_enigma_encode s [].

(** [len(self.ring_length)]: [len] of an [int]. *)
Definition len_of_int (n : Z) : result Z := Raise TypeError.

Definition Commercial_enigma_swap_rotors (rts : list rotor_type)
    : M Commercial_enigma unit :=
  fun self =>
    if negb (Nat.eqb (length rts) 4 || Nat.eqb (length rts) 5)
    then (Raise ValueError, self)
    else
      match (l1 <~ len_of_int (ring_length self) ;;
             if negb (Z.of_nat (length rts) =? l1 + 1) then Ok true
             else l2 <~ len_of_int (position_length self) ;;
                  Ok (negb (Z.of_nat (length rts) =? l2 + 1))) with
      | Raise e => (Raise e, self)
      | Ok true => (Raise ValueError, self)
      | Ok false =>
          match build_rotors rts with
          | Ok rs => (Ok tt, set_rotors rs self)
          | Raise e => (Raise e, self)
          end
      end.

(** *** class Enigma *)

Record Enigma : Type := mkEnigma {
  ce : Commercial_enigma;
  pb : option Plugboard
}.

Definition Enigma_init (rts : list rotor_type) (rings : option (list Z))
    (positions : option (list char)) (plugboard : option (list str))
    : result Enigma :=
  c <~ Commercial_enigma_init rts rings positions ;;
  match plugboard with
  | None => Ok {| ce := c; pb := None |}
  | Some leads =>
      p <~ Plugboard_init (Some leads) ;;
      Ok {| ce := c; pb := Some p |}
  end.

(** Run a method of [self.ce]. *)
Definition on_ce {A} (m : M Commercial_enigma A) : M Enigma A :=
  fun self =>
    match m (ce self) with
    | (r, c') => (r, {| ce := c'; pb := pb self |})
    end.

Definition Enigma_encode (c : char) : M Enigma char :=
  fun self =>
    match pb self with
    | None => on_ce (Commercial_enigma_encode c) self
    | Some p =>
        (c <- lift (Plugboard_encode p c) ;;
         c <- on_ce (Commercial_enigma_encode c) ;;
         lift (Plugboard_encode p c)) self
    end.

Definition Enigma_encode_string (s : str) : M Enigma str :=
  encode_string_loop Enigma_encode s [].

Definition Enigma_swap_rotors (rts : list rotor_type) : M Enigma unit :=
  on_ce (Commercial_enigma_swap_rotors rts).

(** The settings methods of the machine act on [self.rotors]. *)
Definition on_rotors {A} (m : M (list Rotor) A) : M Commercial_enigma A :=
  fun self =>
    match m (rotors self) with
    | (r, rs) => (r, set_rotors rs self)
    end.

Definition Commercial_enigma_ring_settings (rings : list Z)
    : M Commercial_enigma unit :=
  on_rotors (ring_settings rings).

Definition Commercial_enigma_position_settings (positions : list char)
    : M Commercial_enigma unit :=
  on_rotors (position_settings positions).

Definition Enigma_ring_settings (rings : list Z) : M Enigma unit :=
  on_ce (Commercial_enigma_ring_settings rings).

Definition Enigma_position_settings (positions : list char)
    : M Enigma unit :=
  on_ce (Commercial_enigma_position_settings positions).

Definition Enigma_get_rotors (self : Enigma) : list Rotor :=
  rotors (ce self).
Definition Enigma_get_rings (self : Enigma) : list Z :=
  map ring (rotors (ce self)).
Definition Enigma_get_positions (self : Enigma) : list char :=
  map position (rotors (ce self)).

(** [self.pb.reset(plugboard)], [self.pb.add(PlugLead(lead))] and
    [self.pb.remove(PlugLead(lead))]: the attribute of [self.pb] is looked
    up before the argument is built, and [None] has none of them. *)
Definition Enigma_replace_plugboard (plugboard : option (list str))
    : M Enigma unit :=
  fun self =>
    match pb self with
    | None => (Raise AttributeError, self)
    | Some p =>
        match Plugboard_reset plugboard p with
        | (r, p') => (r, {| ce := ce self; pb := Some p' |})
        end
    end.

Definition Enigma_add_pluglead (lead : str) : M Enigma (list warning) :=
  fun self =>
    match pb self with
    | None => (Raise AttributeError, self)
    | Some p =>
        match PlugLead_init lead with
        | Raise e => (Raise e, self)
        | Ok pl =>
            match Plugboard_add pl p with
            | (r, p') => (r, {| ce := ce self; pb := Some p' |})
            end
        end
    end.

Definition Enigma_remove_pluglead (lead : str) : M Enigma unit :=
  fun self =>
    match pb self with
    | None => (Raise AttributeError, self)
    | Some p =>
        match PlugLead_init lead with
        | Raise e => (Raise e, self)
        | Ok pl =>
            match Plugboard_remove pl p with
            | (r, p') => (r, {| ce := ce self; pb := Some p' |})
            end
        end
    end.

(** ** [EnigmaAdvanced.py] *)

Module Adv.

(** *** class AdvancedPlugLead

    The loop over [mapping] tests [char.isnumeric], the bound method and not
    its result; the disjunction is always true and the loop never raises. *)

Definition AdvancedPlugLead : Type := PlugLead.

Definition AdvancedPlugLead_init (mapping : str) : result AdvancedPlugLead :=
  let mapping := strip mapping in
  match mapping with
  | [m0; m1] =>
      if m0 =? m1 then Raise ValueError
      else Ok {| pair := mkpair m0 m1;
                 first_letter := Z.min m0 m1;
                 last_letter := Z.max m0 m1 |}
  | _ => Raise ValueError
  end.

Definition c_valid (c : char) : bool :=
  (c_isalpha c && c_isupper c) || c_isnumeric c.

Definition AdvancedPlugLead_encode (self : AdvancedPlugLead)
    (character : char) : result char :=
  if negb (c_valid character) then Raise ValueError
  else if mem character (pair self)
  then match set_remove Z.eq_dec character (pair self) with
       | x :: _ => Ok x
       | [] => Raise StopIteration
       end
  else Ok character.

(** *** class AdvancedPlugboard *)

Definition AdvancedPlugboard : Type := Plugboard.

Definition connection_limit : nat := 18.

Definition AdvancedPlugboard_add (pl : AdvancedPlugLead)
    : M AdvancedPlugboard (list warning) :=
  fun self =>
    let occ := occupied_letters self in
    if mem (first_letter pl) occ && mem (last_letter pl) occ
    then (Raise ValueError, self)
    else if mem (first_letter pl) occ then (Raise ValueError, self)
    else if mem (last_letter pl) occ then (Raise ValueError, self)
    else
      let w := if conn_mem pl (connections self)
               then [AlreadyConnected] else [] in
      if (connection_limit <=? length (connections self))%nat
      then (Ok (w ++ [LimitReached]), self)
      else (Ok w,
            {| connections := conn_add pl (connections self);
               occupied_letters := set_union Z.eq_dec occ (pair pl) |}).

Fixpoint AdvancedPlugboard_add_all (leads : list str)
    : M AdvancedPlugboard unit :=
  match leads with
  | [] => ret tt
  | lead :: rest =>
      pl <- lift (AdvancedPlugLead_init lead) ;;
      AdvancedPlugboard_add pl ;;;
      AdvancedPlugboard_add_all rest
  end.

Definition AdvancedPlugboard_init (leads : option (list str))
    : result AdvancedPlugboard :=
  let self := {| connections := []; occupied_letters := [] |} in
  match leads with
  | None => Ok self
  | Some ls =>
      match AdvancedPlugboard_add_all ls self with
      | (Ok _, self') => Ok self'
      | (Raise e, _) => Raise e
      end
  end.

Fixpoint AdvancedPlugboard_encode_loop (conns : list AdvancedPlugLead)
    (i n : nat) (character : char) : result char :=
  match conns with
  | [] => Raise ValueError
  | pl :: rest =>
      let i := S i in
      if mem character (pair pl) || Nat.eqb i n
      then AdvancedPlugLead_encode pl character
      else AdvancedPlugboard_encode_loop rest i n character
  end.

Definition AdvancedPlugboard_encode (self : AdvancedPlugboard)
    (character : char) : result char :=
  AdvancedPlugboard_encode_loop (connections self) 0
    (length (connections self)) character.

(** *** class AdvancedRotor(Rotor) *)

Definition lineup : list char :=
  map (fun i => 65 + Z.of_nat i) (seq 0 26)
  ++ map (fun i => 48 + Z.of_nat i) (seq 0 10).

Record AdvancedRotor : Type := mkAR {
  base : Rotor;                 (* the attributes shared with [Rotor] *)
  rotor_input : rotor_type;
  tuple_bool : bool;
  list_bool : bool
}.

Definition with_base (b : Rotor) (r : AdvancedRotor) : AdvancedRotor :=
  {| base := b; rotor_input := rotor_input r;
     tuple_bool := tuple_bool r; list_bool := list_bool r |}.

Definition distinct (l : list char) : bool :=
  Nat.eqb (length l) (length (nodup Z.eq_dec l)).

(** [position] is one character; the tests on it, on the symbols of a wiring
    and on the notch are those of Python on ASCII characters. *)
Definition AdvancedRotor_init (rt : rotor_type) (ring : Z) (position : char)
    : result AdvancedRotor :=
  if (ring <? 1) || (ring >? 36) then Raise ValueError
  else if negb (c_valid position) then Raise ValueError
  else
    let tb :=
      match rt with
      | Tuple w n =>
          Nat.eqb (length w) 36 && distinct w && forallb c_valid w
          && ((isupper n && isalpha n) || isnumeric n)
      | _ => false
      end in
    let lb :=
      match rt with
      | Named s => Nat.eqb (String.length s) 36 && forallb c_valid (lit s)
      | Tuple _ _ => false
      | List w => Nat.eqb (length w) 36 && forallb c_valid w
      end in
    let mk b := Ok {| base := b; rotor_input := rt;
                      tuple_bool := tb; list_bool := lb |} in
    let custom m n :=
      mk {| ring := ring; position := position; double_step := false;
            mapping := m; notch := n; is_reflector := false |} in
    if tb then
      match rt with
      | Tuple w n => custom w (Some n)
      | _ => Raise TypeError
      end
    else if lb then
      match rt with
      | Named s => custom (lit s) None
      | List w => custom w None
      | Tuple _ _ => Raise TypeError
      end
    else b <~ Rotor_init rt ring position ;; mk b.

Definition is36 (self : AdvancedRotor) : bool :=
  tuple_bool self || list_bool self.

Definition AdvancedRotor_advance_position (self : AdvancedRotor)
    : result AdvancedRotor :=
  if is36 self then
    if position (base self) =? ord "9"
    then Ok (with_base (set_position (ord "A") (base self)) self)
    else
      predex <~ index (position (base self)) lineup ;;
      p <~ getitem lineup (predex + 1) ;;
      Ok (with_base (set_position p (base self)) self)
  else Ok (with_base (advance_position (base self)) self).

Definition AdvancedRotor_encode_right_to_left (self : AdvancedRotor)
    (c : char) : result char :=
  if is36 self then
    if negb (c_valid c) then Raise ValueError
    else i <~ index c lineup ;; getitem (mapping (base self)) i
  else encode_right_to_left (base self) c.

Definition AdvancedRotor_encode_left_to_right (self : AdvancedRotor)
    (c : char) : result char :=
  if is36 self then
    if negb (c_valid c) then Raise ValueError
    else i <~ index c (mapping (base self)) ;; getitem lineup i
  else encode_left_to_right (base self) c.

(** [lineup[z]] for an index that is the result of [% 36]. *)
Definition lineup_at (z : Z) : result char := getitem lineup (Z.to_nat z).

Definition AdvancedRotor_encode_offset_rtl (self : AdvancedRotor) (c : char)
    : result char :=
  if is36 self then
    p <~ index (position (base self)) lineup ;;
    let offset := Z.of_nat p - ring (base self) + 1 in
    i <~ index c lineup ;;
    offset_char <~ lineup_at ((Z.of_nat i + offset) mod 36) ;;
    encode_char <~ AdvancedRotor_encode_right_to_left self offset_char ;;
    j <~ index encode_char lineup ;;
    lineup_at ((Z.of_nat j - offset) mod 36)
  else encode_offset_rtl (base self) c.

Definition AdvancedRotor_encode_offset_ltr (self : AdvancedRotor) (c : char)
    : result char :=
  if is36 self then
    p <~ index (position (base self)) lineup ;;
    let offset := Z.of_nat p - ring (base self) + 1 in
    i <~ index c lineup ;;
    offset_char <~ lineup_at ((Z.of_nat i + offset) mod 36) ;;
    encode_char <~ AdvancedRotor_encode_left_to_right self offset_char ;;
    j <~ index encode_char lineup ;;
    lineup_at ((Z.of_nat j - offset) mod 36)
  else encode_offset_ltr (base self) c.

Definition AdvancedRotor_valid_reflector (self : AdvancedRotor)
    : result bool :=
  if is36 self then
    match notch (base self) with
    | Some _ => Ok false
    | None =>
        let dic := combine lineup (mapping (base self)) in
        valid_reflector_loop dic dic
    end
  else valid_reflector (base self).

(** *** class Commercial_enigma_advanced *)

Record Commercial_enigma_advanced : Type := mkCEA {
  rotors : list AdvancedRotor;
  ring_length : Z;
  position_length : Z
}.

Definition set_rotors (rs : list AdvancedRotor)
    (ce : Commercial_enigma_advanced) :=
  {| rotors := rs; ring_length := ring_length ce;
     position_length := position_length ce |}.

Fixpoint build_rotors (rts : list rotor_type) : result (list AdvancedRotor) :=
  match rts with
  | [] => Ok []
  | rt :: rest =>
      r <~ AdvancedRotor_init rt 1 (ord "A") ;;
      rs <~ build_rotors rest ;;
      Ok (r :: rs)
  end.

Fixpoint ring_settings_loop (i : nat) (rings : list Z)
    : M (list AdvancedRotor) unit :=
  match rings with
  | [] => ret tt
  | ring :: rest =>
      fun rs =>
        if (ring <? 1) || (ring >? 36) then (Raise ValueError, rs)
        else match nth_error rs (S i) with
             | Some r => ring_settings_loop (S i) rest
                           (update rs (S i)
                              (with_base (set_ring ring (base r)) r))
             | None => (Raise IndexError, rs)
             end
  end.

Definition ring_settings (rings : list Z) : M (list AdvancedRotor) unit :=
  fun rs =>
    if negb (Z.of_nat (length rings) =? Z.of_nat (length rs) - 1)
    then (Raise ValueError, rs)
    else ring_settings_loop 0 rings rs.

(** Every position is one character, tested as an ASCII character. *)
Fixpoint position_settings_loop (i : nat) (positions : list char)
    : M (list AdvancedRotor) unit :=
  match positions with
  | [] => ret tt
  | p :: rest =>
      fun rs =>
        if negb (c_valid p) then (Raise ValueError, rs)
        else match nth_error rs (S i) with
             | Some r => position_settings_loop (S i) rest
                           (update rs (S i)
                              (with_base (set_position p (base r)) r))
             | None => (Raise IndexError, rs)
             end
  end.

Definition position_settings (positions : list char)
    : M (list AdvancedRotor) unit :=
  fun rs =>
    if negb (Z.of_nat (length positions) =? Z.of_nat (length rs) - 1)
    then (Raise ValueError, rs)
    else position_settings_loop 0 positions rs.

Definition opt_apply {A} (f : A -> M (list AdvancedRotor) unit)
    (o : option A) : list AdvancedRotor -> result (list AdvancedRotor) :=
  fun rs =>
    match o with
    | None => Ok rs
    | Some a => match f a rs with
                | (Ok _, rs') => Ok rs'
                | (Raise e, _) => Raise e
                end
    end.

Definition Commercial_enigma_advanced_init (rts : list rotor_type)
    (rings : option (list Z)) (positions : option (list char))
    : result Commercial_enigma_advanced :=
  if negb (Nat.eqb (length rts) 4 || Nat.eqb (length rts) 5)
  then Raise ValueError
  else
    rs <~ build_rotors rts ;;
    r0 <~ getitem rs 0 ;;
    rs <~ (if negb (is_reflector (base r0))
           then v <~ AdvancedRotor_valid_reflector r0 ;;
                if v
                then Ok (update rs 0
                           (with_base (set_is_reflector true (base r0)) r0))
                else Raise ValueError
           else Ok rs) ;;
    if existsb (fun r => is_reflector (base r)) (tl rs) then Raise ValueError
    else
      rs <~ opt_apply ring_settings rings rs ;;
      rs <~ opt_apply position_settings positions rs ;;
      Ok {| rotors := rs;
            ring_length := Z.of_nat (length rts) - 1;
            position_length := Z.of_nat (length rts) - 1 |}.

Definition advance_neg (k : nat) : M Commercial_enigma_advanced unit :=
  fun self =>
    match (r <~ getneg (rotors self) k ;; AdvancedRotor_advance_position r)
    with
    | Ok r' => (Ok tt, set_rotors (setneg (rotors self) k r') self)
    | Raise e => (Raise e, self)
    end.

Definition notch_neg (k : nat) : M Commercial_enigma_advanced bool :=
  fun self =>
    (r <~ getneg (rotors self) k ;; Ok (check_notch (base r)), self).

Definition rotate : M Commercial_enigma_advanced unit :=
  rot1 <- notch_neg 1 ;;
  rot2 <- notch_neg 2 ;;
  advance_neg 1 ;;;
  when rot1 (advance_neg 2) ;;;
  when rot2 (when (negb rot1) (advance_neg 2) ;;; advance_neg 3).

Fixpoint pass (f : AdvancedRotor -> char -> result char)
    (rs : list AdvancedRotor) (c : char) : result char :=
  match rs with
  | [] => Ok c
  | r :: rest => c' <~ f r c ;; pass f rest c'
  end.

Definition Commercial_enigma_advanced_encode (c : char)
    : M Commercial_enigma_advanced char :=
  rotate ;;;
  self <- get ;;
  lift (c <~ pass AdvancedRotor_encode_offset_rtl (rev (rotors self)) c ;;
        pass AdvancedRotor_encode_offset_ltr (tl (rotors self)) c).

Definition Commercial_enigma_advanced_encode_string (s : str)
    : M Commercial_enigma_advanced str :=
  encode_string_loop Commercial_enigma_advanced_encode s [].

Definition Commercial_enigma_advanced_swap_rotors (rts : list rotor_type)
    : M Commercial_enigma_advanced unit :=
  fun self =>
    if negb (Nat.eqb (length rts) 4 || Nat.eqb (length rts) 5)
    then (Raise ValueError, self)
    else
      match (l1 <~ len_of_int (ring_length self) ;;
             if negb (Z.of_nat (length rts) =? l1 + 1) then Ok true
             else l2 <~ len_of_int (position_length self) ;;
                  Ok (negb (Z.of_nat (length rts) =? l2 + 1))) with
      | Raise e => (Raise e, self)
      | Ok true => (Raise ValueError, self)
      | Ok false =>
          match build_rotors rts with
          | Ok rs => (Ok tt, set_rotors rs self)
          | Raise e => (Raise e, self)
          end
      end.

(** *** class AdvancedEnigma *)

(** The outcomes of the calls to [random]: for the [i]-th instruction of
    [self.advanced], the index drawn by [random_gen] and the letters drawn by
    [rm.sample]; then the letter drawn by [rm.choice]. *)
Record random : Type := mkRandom {
  pick_index : nat -> Z;
  pick_letters : nat -> str;
  pick_repeater : char
}.

Definition product3 {A} (l : list A) : list (list A) :=
  flat_map (fun a => flat_map (fun b => map (fun c => [a; b; c]) l) l) l.

Definition ring_perms : list (list Z) :=
  product3 (map (fun i => 1 + Z.of_nat i) (seq 0 36)).
Definition position_perms : list (list char) := product3 lineup.
(** [it.permutations(range(3), 3)], in the order itertools yields them. *)
Definition swap_perms : list (list nat) :=
  [[0; 1; 2]; [0; 2; 1]; [1; 0; 2]; [1; 2; 0]; [2; 0; 1]; [2; 1; 0]]%nat.
Definition max_rand : Z := 5.

Record AdvancedEnigma : Type := mkAE {
  initials : list rotor_type * option (list Z) * option (list char);
  ce : Commercial_enigma_advanced;
  pb : option AdvancedPlugboard;
  advanced : list str;
  swapS : option Z;
  swapR : option Z;
  swapP : option Z
}.

Definition default_advanced : list str := [lit "S"; lit "R"; lit "P"].

Definition AdvancedEnigma_init (rts : list rotor_type)
    (rings : option (list Z)) (positions : option (list char))
    (plugboard : option (list str)) (advanced : list str)
    : result AdvancedEnigma :=
  c <~ Commercial_enigma_advanced_init rts rings positions ;;
  p <~ match plugboard with
       | None => Ok None
       | Some leads => p <~ AdvancedPlugboard_init (Some leads) ;; Ok (Some p)
       end ;;
  Ok {| initials := (rts, rings, positions); ce := c; pb := p;
        advanced := advanced; swapS := None; swapR := None; swapP := None |}.

Definition set_ce (c : Commercial_enigma_advanced) (self : AdvancedEnigma) :=
  {| initials := initials self; ce := c; pb := pb self;
     advanced := advanced self; swapS := swapS self; swapR := swapR self;
     swapP := swapP self |}.

Definition on_ce {A} (m : M Commercial_enigma_advanced A)
    : M AdvancedEnigma A :=
  fun self => match m (ce self) with (r, c') => (r, set_ce c' self) end.

Definition AdvancedEnigma_encode (c : char) : M AdvancedEnigma char :=
  fun self =>
    match pb self with
    | None => on_ce (Commercial_enigma_advanced_encode c) self
    | Some p =>
        (c <- lift (AdvancedPlugboard_encode p c) ;;
         c <- on_ce (Commercial_enigma_advanced_encode c) ;;
         lift (AdvancedPlugboard_encode p c)) self
    end.

Definition AdvancedEnigma_encode_string (s : str) : M AdvancedEnigma str :=
  encode_string_loop AdvancedEnigma_encode s [].

Definition get_rotor_types (self : AdvancedEnigma) : list rotor_type :=
  map rotor_input (rotors (ce self)).
Definition get_rings (self : AdvancedEnigma) : list Z :=
  map (fun r => ring (base r)) (rotors (ce self)).
Definition get_positions (self : AdvancedEnigma) : list char :=
  map (fun r => position (base r)) (rotors (ce self)).

Definition AdvancedEnigma_swap_rotors (rts : list rotor_type)
    : M AdvancedEnigma unit :=
  on_ce (Commercial_enigma_advanced_swap_rotors rts).

(** [str(n)] and [int(s)] *)
Definition str_of_int (n : Z) : str := lit (NilZero.string_of_int (Z.to_int n)).
Definition int_of_digits (s : str) : Z :=
  fold_left (fun acc c => 10 * acc + (c - 48)) s 0.

Definition random_gen (rnd : random) (i : nat) (instruction : str)
    : M AdvancedEnigma str :=
  fun self =>
    let n := pick_index rnd i in
    let upd s r p :=
      {| initials := initials self; ce := ce self; pb := pb self;
         advanced := advanced self; swapS := s; swapR := r; swapP := p |} in
    if str_eqb instruction (lit "S")
    then (Ok (str_of_int n), upd (Some n) (swapR self) (swapP self))
    else if str_eqb instruction (lit "R")
    then (Ok (str_of_int n), upd (swapS self) (Some n) (swapP self))
    else if str_eqb instruction (lit "P")
    then (Ok (str_of_int n), upd (swapS self) (swapR self) (Some n))
    else (Raise ValueError, self).

Fixpoint auxiliary_loop (rnd : random) (i : nat) (instructions : list str)
    (aux_string : str) : M AdvancedEnigma str :=
  match instructions with
  | [] => ret aux_string
  | instruction :: rest =>
      s <- random_gen rnd i instruction ;;
      auxiliary_loop rnd (S i) rest (aux_string ++ s ++ pick_letters rnd i)
  end.

Definition auxiliary_string (rnd : random) : M AdvancedEnigma str :=
  self <- get ;;
  aux_string <- auxiliary_loop rnd 0 (advanced self) [] ;;
  ret (aux_string ++ [pick_repeater rnd; pick_repeater rnd]).

(** [sorted], [max], [min], [len(set(...))] on a list of integers. *)
Fixpoint insert (x : Z) (l : list Z) : list Z :=
  match l with
  | [] => [x]
  | y :: l' => if x <=? y then x :: l else y :: insert x l'
  end.
Fixpoint sorted (l : list Z) : list Z :=
  match l with
  | [] => []
  | x :: l' => insert x (sorted l')
  end.
Definition list_eqb (a b : list Z) : bool :=
  if list_eq_dec Z.eq_dec a b then true else false.
Definition py_max (l : list Z) : result Z :=
  match l with
  | [] => Raise ValueError
  | x :: l' => Ok (fold_left Z.max l' x)
  end.
Definition py_min (l : list Z) : result Z :=
  match l with
  | [] => Raise ValueError
  | x :: l' => Ok (fold_left Z.min l' x)
  end.
Definition len_set (l : list Z) : nat := length (nodup Z.eq_dec l).

(** [s[i:j]] for [0 <= i] and [0 <= j]. *)
Definition slice {A} (s : list A) (i j : Z) : list A :=
  firstn (Z.to_nat j - Z.to_nat i) (skipn (Z.to_nat i) s).

(** [[string[i:j] for i, j in zip([0] + unpacked, unpacked)]] *)
Definition partition (s : str) (unpacked : list Z) : list str :=
  map (fun ij => slice s (fst ij) (snd ij)) (combine (0 :: unpacked) unpacked).

Definition bound {S A} (v : option A) : M S A :=
  match v with
  | Some a => ret a
  | None => throw UnboundLocalError
  end.

Definition attr {S A} (v : option A) : M S A :=
  match v with
  | Some a => ret a
  | None => throw AttributeError
  end.

(** [self.ce = Commercial_enigma_advanced(rotors, rings, positions)] *)
Definition replace_ce (rts : list rotor_type) (rings : list Z)
    (positions : list char) : M AdvancedEnigma unit :=
  fun self =>
    match Commercial_enigma_advanced_init rts (Some rings) (Some positions)
    with
    | Ok c => (Ok tt, set_ce c self)
    | Raise e => (Raise e, self)
    end.

(** The loop over [partitioned], shared by the two methods.  A local that
    the decoder may have left unassigned is an [option]. *)
Fixpoint alternate (partitioned : list str) (active : bool)
    (swapped_rotors : option (list rotor_type))
    (swapped_rings : option (list Z))
    (swapped_positions : option (list char))
    (current_rotors : list rotor_type)
    (current_rings : option (list Z))
    (current_positions : option (list char))
    (encode : str) : M AdvancedEnigma str :=
  match partitioned with
  | [] => ret encode
  | bit :: rest =>
      if active then
        rts <- bound swapped_rotors ;;
        rings <- bound swapped_rings ;;
        positions <- bound swapped_positions ;;
        replace_ce rts rings positions ;;;
        out <- AdvancedEnigma_encode_string bit ;;
        self <- get ;;
        alternate rest (negb active) swapped_rotors swapped_rings
          (Some (tl (get_positions self)))
          current_rotors current_rings current_positions (encode ++ out)
      else
        rings <- bound current_rings ;;
        positions <- bound current_positions ;;
        replace_ce current_rotors rings positions ;;;
        out <- AdvancedEnigma_encode_string bit ;;
        self <- get ;;
        alternate rest (negb active) swapped_rotors swapped_rings
          swapped_positions
          current_rotors current_rings (Some (tl (get_positions self)))
          (encode ++ out)
  end.

(** [current_rotors[:-3] + [just3[i] for i in swap_perms[k]]] *)
Definition swap_last3 (current_rotors : list rotor_type) (k : Z)
    : result (list rotor_type) :=
  let n := length current_rotors in
  let just3 := skipn (n - 3) current_rotors in
  perm <~ getitem swap_perms (Z.to_nat k) ;;
  picked <~ fold_right (fun i acc => x <~ getitem just3 i ;;
                                     xs <~ acc ;; Ok (x :: xs))
              (Ok []) perm ;;
  Ok (firstn (n - 3) current_rotors ++ picked).

(** [[current[0]] + list(table[k])] with five rotors, [table[k]] with four *)
Definition swap_settings {A} (n_rotors : nat) (current : list A)
    (table : list (list A)) (k : Z) : result (list A) :=
  if Nat.eqb n_rotors 5 then
    c0 <~ getitem current 0 ;;
    t <~ getitem table (Z.to_nat k) ;;
    Ok (c0 :: t)
  else getitem table (Z.to_nat k).

(** The methods below take the caller's list [unpacked] by reference and
    append to it: the state is the pair of [self] and that list. *)
Definition on_self {A} (m : M AdvancedEnigma A)
    : M (AdvancedEnigma * list Z) A :=
  fun st => match m (fst st) with (r, self') => (r, (self', snd st)) end.

Definition append_unpacked (n : Z) : M (AdvancedEnigma * list Z) unit :=
  fun st => (Ok tt, (fst st, snd st ++ [n])).

Definition encode_check (unpacked : list Z) (string : str) : result bool :=
  if negb (list_eqb unpacked (sorted unpacked)) then Ok true
  else if negb (Nat.eqb (length unpacked) (len_set unpacked)) then Ok true
  else
    mx <~ py_max unpacked ;;
    if mx >? Z.of_nat (length string) - 1 then Ok true
    else mn <~ py_min unpacked ;; Ok (mn <=? 0).

Definition encode_advanced_string (rnd : random) (string : str)
    : M (AdvancedEnigma * list Z) str :=
  fun st =>
    let unpacked := snd st in
    match encode_check unpacked string with
    | Raise e => (Raise e, st)
    | Ok true => (Raise ValueError, st)
    | Ok false =>
       (pre <- on_self (auxiliary_string rnd) ;;
        prencode <- on_self (AdvancedEnigma_encode_string pre) ;;
        self <- on_self get ;;
        let current_rotors := get_rotor_types self in
        s <- attr (swapS self) ;;
        swapped_rotors <- lift (swap_last3 current_rotors s) ;;
        let current_rings := tl (get_rings self) in
        let current_positions := tl (get_positions self) in
        r <- attr (swapR self) ;;
        swapped_rings <- lift (swap_settings (length current_rotors)
                                 current_rings ring_perms r) ;;
        p <- attr (swapP self) ;;
        swapped_positions <- lift (swap_settings (length current_rotors)
                                     current_positions position_perms p) ;;
        append_unpacked (Z.of_nat (length string)) ;;;
        st' <- get ;;
        let partitioned := partition string (snd st') in
        encode <- on_self
          (alternate partitioned true (Some swapped_rotors)
             (Some swapped_rings) (Some swapped_positions)
             current_rotors (Some current_rings) (Some current_positions)
             []) ;;
        ret (prencode ++ encode)) st
    end.

Definition decode_check (unpacked : list Z) : result bool :=
  if negb (list_eqb unpacked (sorted unpacked)) then Ok true
  else if negb (Nat.eqb (length unpacked) (len_set unpacked)) then Ok true
  else mn <~ py_min unpacked ;; Ok (mn <=? 0).

(** [re.search(r'([A-Z])\1', s).span()[1]] *)
Fixpoint search_double (s : str) (i : nat) : option nat :=
  match s with
  | a :: (b :: _) as t =>
      if c_isupper a && (a =? b) then Some (i + 2)%nat
      else search_double t (S i)
  | _ => None
  end.

(** [re.findall(r'\d+', s)] *)
Fixpoint findall_digits (s : str) (run : str) : list str :=
  match s with
  | [] => match run with [] => [] | _ => [run] end
  | c :: s' =>
      if c_isnumeric c then findall_digits s' (run ++ [c])
      else match run with
           | [] => findall_digits s' []
           | _ => run :: findall_digits s' []
           end
  end.

Record locals : Type := mkLocals {
  swapped_rotors : option (list rotor_type);
  swapped_rings : option (list Z);
  swapped_positions : option (list char);
  current_rings : option (list Z);
  current_positions : option (list char)
}.

(** [for setting, param in zip(settings, self.advanced)] *)
Fixpoint read_settings (zipped : list (Z * str))
    (current_rotors : list rotor_type) (v : locals)
    : M AdvancedEnigma locals :=
  match zipped with
  | [] => ret v
  | (setting, param) :: rest =>
      self <- get ;;
      if str_eqb param (lit "S") then
        sr <- lift (swap_last3 current_rotors setting) ;;
        read_settings rest current_rotors
          {| swapped_rotors := Some sr; swapped_rings := swapped_rings v;
             swapped_positions := swapped_positions v;
             current_rings := current_rings v;
             current_positions := current_positions v |}
      else if str_eqb param (lit "R") then
        let cr := tl (get_rings self) in
        sr <- lift (swap_settings (length current_rotors) cr ring_perms
                      setting) ;;
        read_settings rest current_rotors
          {| swapped_rotors := swapped_rotors v; swapped_rings := Some sr;
             swapped_positions := swapped_positions v;
             current_rings := Some cr;
             current_positions := current_positions v |}
      else if str_eqb param (lit "P") then
        let cp := tl (get_positions self) in
        sp <- lift (swap_settings (length current_rotors) cp position_perms
                      setting) ;;
        read_settings rest current_rotors
          {| swapped_rotors := swapped_rotors v;
             swapped_rings := swapped_rings v;
             swapped_positions := Some sp;
             current_rings := current_rings v;
             current_positions := Some cp |}
      else read_settings rest current_rotors v
  end.

Definition reset_ce : M AdvancedEnigma unit :=
  fun self =>
    match initials self with
    | (rts, rings, positions) =>
        match Commercial_enigma_advanced_init rts rings positions with
        | Ok c => (Ok tt, set_ce c self)
        | Raise e => (Raise e, self)
        end
    end.

Definition decode_advanced_string (total_string : str)
    : M (AdvancedEnigma * list Z) str :=
  fun st =>
    let unpacked := snd st in
    match decode_check unpacked with
    | Raise e => (Raise e, st)
    | Ok true => (Raise ValueError, st)
    | Ok false =>
       (jumbled_instructions <-
          on_self (AdvancedEnigma_encode_string total_string) ;;
        end_instruction <- attr (search_double jumbled_instructions 0) ;;
        let instruction := firstn end_instruction jumbled_instructions in
        let message := skipn end_instruction total_string in
        mx <- lift (py_max unpacked) ;;
        if mx >? Z.of_nat (length message) - 1 then throw ValueError
        else
          let settings :=
            map int_of_digits (findall_digits instruction []) in
          on_self reset_ce ;;;
          on_self (AdvancedEnigma_encode_string instruction) ;;;
          self <- on_self get ;;
          let current_rotors := get_rotor_types self in
          v <- on_self
            (read_settings (combine settings (advanced self)) current_rotors
               {| swapped_rotors := None; swapped_rings := None;
                  swapped_positions := None; current_rings := None;
                  current_positions := None |}) ;;
          append_unpacked (Z.of_nat (length message)) ;;;
          st' <- get ;;
          let partitioned := partition message (snd st') in
          on_self
            (alternate partitioned true (swapped_rotors v) (swapped_rings v)
               (swapped_positions v)
               current_rotors (current_rings v) (current_positions v) []))
         st
    end.

End Adv.

(** * Definitions used by the statements *)

(** ** Concrete machines used by the examples

    The rotors of the demonstration code at the end of
    [EnigmaAdvanced.py]. *)

Definition rflctr : rotor_type :=
  List (lit "FVPJIAOYEDRZXWGCTKUQSBNMHL0627981354").
Definition cer1 : rotor_type :=
  Tuple (lit "4KMFL90DQVZNTOWY5XUSPAIBRCJ3E6127HG8") (lit "4").
Definition cer2 : rotor_type :=
  Tuple (lit "4KMWL9DQVZNTOFY05XUSP1IBRCJ3E6A27HG8") (lit "J").
Definition cer3 : rotor_type :=
  List (lit "4KC0WL9DQVZNTOFY5XUSP1IBRMJ3E6A27HG8").

Definition unwrap {A} (d : A) (r : result A) : A :=
  match r with
  | Ok a => a
  | Raise _ => d
  end.

(** [Commercial_enigma(['B','I','II','III'], positions=['A','E','V'])]:
    rotors II and III stand on their notches. *)
Definition ce_AEV : Commercial_enigma :=
  unwrap (mkCE [] 0 0)
    (Commercial_enigma_init [Named "B"; Named "I"; Named "II"; Named "III"]
       None (Some (lit "AEV"))).

(** [Rotor(name, 1, p)] for the named rotors. *)
Definition rotor_at (name : string) (p : string) : Rotor :=
  unwrap (mkRotor 0 0 false [] None false)
    (Rotor_init (Named name) 1 (ord p)).

Definition cea_demo : Adv.Commercial_enigma_advanced :=
  unwrap (Adv.mkCEA [] 0 0)
    (Adv.Commercial_enigma_advanced_init [rflctr; cer3; cer2; cer1]
       None None).

(** ** The offset transform as the specification words it *)

Definition alphabet_index (c : char) : Z := c - 65.
Definition symbol (i : Z) : char := i + 65.

Definition encode_offset_rtl_spec (self : Rotor) (c : char) : result char :=
  let offset :=
    (alphabet_index (position self) - ring self + 1) mod alphabet_size in
  let shifted := (alphabet_index c + offset) mod alphabet_size in
  e <~ getitem (mapping self) (Z.to_nat shifted) ;;
  Ok (symbol ((alphabet_index e - offset) mod alphabet_size)).

(** ** Reflector wirings *)

(** Applying the wiring twice returns every symbol of the alphabet. *)
Definition involution (m : list char) : Prop :=
  forall x, c_isupper x = true ->
  exists y, nth_error m (Z.to_nat (x - 65)) = Some y /\
            c_isupper y = true /\
            nth_error m (Z.to_nat (y - 65)) = Some x.

(** No symbol of the alphabet is wired to itself. *)
Definition fixed_point_free (m : list char) : Prop :=
  forall x, c_isupper x = true ->
  nth_error m (Z.to_nat (x - 65)) <> Some x.

(** [Rotor([chr(65 + i) for i in range(26)])]: every letter wired to
    itself. *)
Definition identity_rotor : Rotor :=
  unwrap (mkRotor 0 0 false [] None false)
    (Rotor_init (List abc) 1 (ord "A")).

(** ** Plugboards *)

(** The boards that the constructor and the methods of [Plugboard] produce,
    whether a call returns or raises. *)
Inductive Plugboard_reachable : Plugboard -> Prop :=
| reach_init (leads : option (list str)) (self : Plugboard) :
    Plugboard_init leads = Ok self -> Plugboard_reachable self
| reach_add (self : Plugboard) (m : str) (pl : PlugLead) :
    Plugboard_reachable self -> PlugLead_init m = Ok pl ->
    Plugboard_reachable (snd (Plugboard_add pl self))
| reach_remove (self : Plugboard) (m : str) (pl : PlugLead) :
    Plugboard_reachable self -> PlugLead_init m = Ok pl ->
    Plugboard_reachable (snd (Plugboard_remove pl self))
| reach_reset (self : Plugboard) (leads : option (list str)) :
    Plugboard_reachable self ->
    Plugboard_reachable (snd (Plugboard_reset leads self)).

(** A lead as [PlugLead.__init__] leaves it. *)
Definition lead_wf (q : PlugLead) : Prop :=
  first_letter q < last_letter q /\
  pair q = [first_letter q; last_letter q] /\
  c_isupper (first_letter q) = true /\
  c_isupper (last_letter q) = true.

Definition board_inv (conns : list PlugLead) (occ : list char) : Prop :=
  (forall q, In q conns -> lead_wf q) /\
  (forall q c, In q conns -> In c (pair q) -> In c occ) /\
  (forall q1 q2 c, In q1 conns -> In q2 conns ->
                   In c (pair q1) -> In c (pair q2) -> q1 = q2).

(** The symbol at the other end of the lead. *)
Definition partner (q : PlugLead) (s : char) : char :=
  if s =? first_letter q then last_letter q else first_letter q.

Definition lead_AB : PlugLead :=
  unwrap (mkPlugLead [] 0 0) (PlugLead_init (lit "AB")).
Definition lead_BA : PlugLead :=
  unwrap (mkPlugLead [] 0 0) (PlugLead_init (lit "BA")).
Definition lead_BC : PlugLead :=
  unwrap (mkPlugLead [] 0 0) (PlugLead_init (lit "BC")).
Definition board_empty : Plugboard :=
  unwrap (mkPlugboard [] []) (Plugboard_init None).
Definition board_AB : Plugboard :=
  unwrap (mkPlugboard [] []) (Plugboard_init (Some [lit "AB"])).

Definition board_SZ_GT_DV_KU : Plugboard :=
  unwrap (mkPlugboard [] [])
    (Plugboard_init (Some [lit "SZ"; lit "GT"; lit "DV"; lit "KU"])).
Definition lead_KU : PlugLead :=
  unwrap (mkPlugLead [] 0 0) (PlugLead_init (lit "KU")).

(** The exception that [Plugboard.add] ends in when a letter of the lead is
    occupied: none of the three messages can be built when both are. *)
Definition occupied_exn (pl : PlugLead) (occ : list char) : exn :=
  if mem (first_letter pl) occ && mem (last_letter pl) occ
  then AttributeError else ValueError.

(** ** Partition boundaries and random draws *)

Definition strictly_increasing (B : list Z) : Prop :=
  forall i j a b, (i < j)%nat ->
  nth_error B i = Some a -> nth_error B j = Some b -> a < b.

(** Not strictly increasing, containing duplicates, or non-positive. *)
Definition ill_ordered (B : list Z) : Prop :=
  ~ strictly_increasing B \/ ~ NoDup B \/ Exists (fun x => x <= 0) B.

(** Some boundary is not below the length [n] of the message. *)
Definition out_of_bounds (B : list Z) (n : Z) : Prop :=
  Exists (fun x => n <= x) B.

Definition malformed (B : list Z) (n : Z) : Prop :=
  ill_ordered B \/ out_of_bounds B n.

(** The table a drawn index points into. *)
Definition table_length (instruction : str) : Z :=
  if str_eqb instruction (lit "S") then Z.of_nat (length Adv.swap_perms)
  else Z.of_nat (36 * 36 * 36).

(** Outcomes that [rm.randint], [rm.sample] and [rm.choice] can produce for
    the instruction list [advanced]. *)
Definition possible_draws (advanced : list str) (rnd : Adv.random) : Prop :=
  (forall i instruction,
      nth_error advanced i = Some instruction ->
      0 <= Adv.pick_index rnd i <= table_length instruction - 1 /\
      (1 <= length (Adv.pick_letters rnd i) <= 5)%nat /\
      NoDup (Adv.pick_letters rnd i) /\
      Forall (fun c => c_isupper c = true) (Adv.pick_letters rnd i)) /\
  c_isupper (Adv.pick_repeater rnd) = true.

(** [AdvancedEnigma([rflctr, cer3, cer2, cer1], [3, 31, 23],
    ['4', 'D', 'T'], ['8U', 'RF', '2M'])] of the demonstration code. *)
Definition ade_demo : Adv.AdvancedEnigma :=
  unwrap (Adv.mkAE ([], None, None) cea_demo None [] None None None)
    (Adv.AdvancedEnigma_init [rflctr; cer3; cer2; cer1]
       (Some [3; 31; 23]) (Some (lit "4DT"))
       (Some [lit "8U"; lit "RF"; lit "2M"]) Adv.default_advanced).

Definition demo_plaintext : str := lit "HEREISACLASSICSTRINGHELLOWORLD".

(** Draws 4, 12345 and 40000 with paddings QX, ABC and ZKA; the end marker
    is M in the first record and A, the last padding letter, in the
    second. *)
Definition draws_with_repeater (c : char) : Adv.random :=
  {| Adv.pick_index :=
       fun i => match i with O => 4 | S O => 12345 | _ => 40000 end;
     Adv.pick_letters :=
       fun i => match i with
                | O => lit "QX"
                | S O => lit "ABC"
                | _ => lit "ZKA"
                end;
     Adv.pick_repeater := c |}.
Definition draws_M : Adv.random := draws_with_repeater (ord "M").
Definition draws_A : Adv.random := draws_with_repeater (ord "A").

Definition demo_ciphertext (rnd : Adv.random) : str :=
  unwrap []
    (fst (Adv.encode_advanced_string rnd demo_plaintext
            (ade_demo, [3; 7; 10]))).

(** ** Machine configurations *)

(** A custom wiring is a permutation of the alphabet. *)
Definition wiring_ok (rt : rotor_type) : Prop :=
  match rt with
  | Named _ => True
  | Tuple w _ => Permutation abc w
  | List w => Permutation abc w
  end.

(** The wirings of a machine that the round trip relies on: the reflector
    first, an involution, then at least three rotors, each a permutation. *)
Definition wirings_ok (ws : list (list char)) : Prop :=
  exists m0 ms,
    ws = m0 :: ms /\ (3 <= length ms)%nat /\
    length m0 = 26%nat /\ involution m0 /\
    Forall (Permutation abc) ms.

(** [Enigma(['B', 'I', 'II', 'III'], plugboard=[])] *)
Definition enigma_no_leads : Enigma :=
  unwrap (mkEnigma ce_AEV None)
    (Enigma_init [Named "B"; Named "I"; Named "II"; Named "III"]
       None None (Some [])).

(** A 26-entry list in which A occurs twice and B never. *)
Definition wiring_AA : rotor_type := List (lit "AACDEFGHIJKLMNOPQRSTUVWXYZ").

(** What the round trip needs of a machine in use: the wirings above and,
    when there is a plugboard, the invariant of its leads and at least one
    lead. *)
Definition enigma_ok (self : Enigma) : Prop :=
  wirings_ok (map mapping (rotors (ce self))) /\
  match pb self with
  | None => True
  | Some p => board_inv (connections p) (occupied_letters p) /\
              connections p <> []
  end.

(** Decision procedures for the wiring tables. *)
Definition permutationb (m : list char) : bool :=
  (length m <=? 26)%nat && forallb (fun x => mem x m) abc.

Definition involutionb (m : list char) : bool :=
  forallb (fun x =>
             match nth_error m (Z.to_nat (x - 65)) with
             | Some y =>
                 c_isupper y &&
                 match nth_error m (Z.to_nat (y - 65)) with
                 | Some z => z =? x
                 | None => false
                 end
             | None => false
             end) abc.

(** The machine of the demonstration code at the end of [enigma.py]. *)
Definition enigma_demo_rotors : list rotor_type :=
  [Named "A"; Named "IV"; Named "V"; Named "Beta"; Named "I"].
Definition enigma_demo_leads : list str :=
  map lit ["PC"; "XZ"; "FM"; "QA"; "ST"; "NB"; "HY"; "OR"; "EV"; "IU"]%string.
Definition enigma_demo : Enigma :=
  unwrap (mkEnigma ce_AEV None)
    (Enigma_init enigma_demo_rotors (Some [18; 24; 3; 5])
       (Some (lit "EZGP")) (Some enigma_demo_leads)).

(** [Enigma(['B', wiring_AA, 'II', 'III'])] *)
Definition enigma_AA : Enigma :=
  unwrap (mkEnigma ce_AEV None)
    (Enigma_init [Named "B"; wiring_AA; Named "II"; Named "III"]
       None None None).

(** ** Further boards and leads for the examples *)

Definition board_ten_leads : Plugboard :=
  unwrap (mkPlugboard [] []) (Plugboard_init (Some enigma_demo_leads)).
Definition lead_DG : PlugLead :=
  unwrap (mkPlugLead [] 0 0) (PlugLead_init (lit "DG")).
Definition lead_SZ : PlugLead :=
  unwrap (mkPlugLead [] 0 0) (PlugLead_init (lit "SZ")).

(** ** Settings *)

Definition ring_valid (x : Z) : bool := negb ((x <? 1) || (x >? 26)).
Definition position_valid (p : char) : bool :=
  negb (negb (c_isalpha p) || negb (c_isupper p)).

(** The longest prefix of valid settings. *)
Fixpoint valid_prefix {A} (ok : A -> bool) (l : list A) : list A :=
  match l with
  | x :: l' => if ok x then x :: valid_prefix ok l' else []
  | [] => []
  end.

(** The rotors after the settings [xs] have gone to the first of them. *)
Fixpoint assign {A} (set : A -> Rotor -> Rotor) (xs : list A)
    (rs : list Rotor) : list Rotor :=
  match xs, rs with
  | x :: xs', r :: rs' => set x r :: assign set xs' rs'
  | _, _ => rs
  end.

(** ** One symbol through the machine *)

Definition fixed_point_freeb (m : list char) : bool :=
  forallb (fun x =>
             match nth_error m (Z.to_nat (x - 65)) with
             | Some y => negb (y =? x)
             | None => true
             end) abc.

(** The machine after one call of [encode] that returns: the rotors have
    stepped, nothing else has changed. *)
Definition Enigma_step (self : Enigma) : Enigma :=
  {| ce := snd (rotate (ce self)); pb := pb self |}.

(** ** Repeated calls and final states *)

(** [n] calls of [advance_position] on a rotor of the advanced machine. *)
Fixpoint advance_times (n : nat) (r : Adv.AdvancedRotor)
    : result Adv.AdvancedRotor :=
  match n with
  | O => Ok r
  | S n' => r' <~ Adv.AdvancedRotor_advance_position r ;; advance_times n' r'
  end.

(** A rotor over the 36 symbols, standing on ['Z']. *)
Definition cer3_at_Z : Adv.AdvancedRotor :=
  unwrap (Adv.mkAR (mkRotor 0 0 false [] None false) cer3 false false)
    (Adv.AdvancedRotor_init cer3 1 (ord "Z")).

(** ** Machines over the 36 symbols *)

(** A wiring given to [AdvancedRotor] is a permutation of the line-up. *)
Definition wiring36_ok (rt : rotor_type) : Prop :=
  match rt with
  | Named s => Permutation Adv.lineup (lit s)
  | Tuple w _ => Permutation Adv.lineup w
  | List w => Permutation Adv.lineup w
  end.

Definition permutation36b (m : list char) : bool :=
  Nat.leb (length m) 36 && forallb (fun x => mem x m) Adv.lineup.

(** Whenever the wiring sends the [a]-th symbol of the line-up to [y], it
    sends [y] back to it. *)
Definition involution36 (m : list char) : Prop :=
  forall a x y,
    nth_error Adv.lineup a = Some x -> nth_error m a = Some y ->
    exists j, nth_error Adv.lineup j = Some y /\ nth_error m j = Some x.

Definition rotor36_ok (r : Adv.AdvancedRotor) : Prop :=
  Adv.is36 r = true /\
  Adv.c_valid (position (Adv.base r)) = true /\
  Permutation Adv.lineup (mapping (Adv.base r)).

(** A reflector and at least three rotors, all over the 36 symbols. *)
Definition rotors36_ok (rs : list Adv.AdvancedRotor) : Prop :=
  exists r0 rest,
    rs = r0 :: rest /\ (3 <= length rest)%nat /\
    Forall rotor36_ok rs /\ involution36 (mapping (Adv.base r0)).

Definition cea_ok (self : Adv.Commercial_enigma_advanced) : Prop :=
  rotors36_ok (Adv.rotors self).

(** A lead of the advanced board as [AdvancedPlugLead.__init__] leaves it
    when it is given two of the 36 symbols. *)
Definition lead36_wf (q : PlugLead) : Prop :=
  first_letter q < last_letter q /\
  pair q = [first_letter q; last_letter q] /\
  Adv.c_valid (first_letter q) = true /\
  Adv.c_valid (last_letter q) = true.

Definition board36_inv (conns : list PlugLead) (occ : list char) : Prop :=
  (forall q, In q conns -> lead36_wf q) /\
  (forall q c, In q conns -> In c (pair q) -> In c occ) /\
  (forall q1 q2 c, In q1 conns -> In q2 conns ->
                   In c (pair q1) -> In c (pair q2) -> q1 = q2).

(** A lead is described by upper-case letters and digits only. *)
Definition lead36_ok (lead : str) : Prop :=
  Forall (fun c => Adv.c_valid c = true) lead.

Definition ade_ok (self : Adv.AdvancedEnigma) : Prop :=
  cea_ok (Adv.ce self) /\
  match Adv.pb self with
  | Some p => board36_inv (connections p) (occupied_letters p) /\
              connections p <> []
  | None => True
  end.

(** ** Arguments written in ASCII

    On these the character tests of the embedding are those of Python. *)

Definition c_isascii (c : char) : bool := (0 <=? c) && (c <? 128).

Definition ascii_rotor (rt : rotor_type) : bool :=
  match rt with
  | Named _ => true
  | Tuple w n => forallb c_isascii w && forallb c_isascii n
  | List w => forallb c_isascii w
  end.

Definition ascii_positions (positions : option (list char)) : bool :=
  match positions with
  | None => true
  | Some l => forallb c_isascii l
  end.

Definition ascii_leads (plugboard : option (list str)) : bool :=
  match plugboard with
  | None => true
  | Some leads => forallb (forallb c_isascii) leads
  end.

(** The arguments of [Enigma(rotors, rings, positions, plugboard)]; for the
    machine without plugboard the last one is [None]. *)
Definition ascii_arguments (rts : list rotor_type)
    (positions : option (list char)) (plugboard : option (list str))
    : Prop :=
  forallb ascii_rotor rts && ascii_positions positions
  && ascii_leads plugboard = true.

(** The letter a rotor reads for the character [c]. *)
Definition letter_mod_26 (c : char) : char := (c - 65) mod 26 + 65.

(** * Properties *)

(** ** The source's own assertions, replayed on the embedding *)

Example rotor_I_right_to_left :
  (r <~ Rotor_init (Named "I") 1 (ord "A") ;; encode_right_to_left r (ord "A"))
  = Ok (ord "E").
Proof. reflexivity. Qed.

Example rotor_I_left_to_right :
  (r <~ Rotor_init (Named "I") 1 (ord "A") ;; encode_left_to_right r (ord "A"))
  = Ok (ord "U").
Proof. reflexivity. Qed.

Example plugboard_four_leads :
  (p <~ Plugboard_init (Some [lit "SZ"; lit "GT"; lit "DV"; lit "KU"]) ;;
   a <~ Plugboard_encode p (ord "K") ;;
   b <~ Plugboard_encode p (ord "A") ;; Ok [a; b])
  = Ok (lit "UA").
Proof. reflexivity. Qed.

Example enigma_demo_message :
  (e <~ Enigma_init
          [Named "A"; Named "IV"; Named "V"; Named "Beta"; Named "I"]
          (Some [18; 24; 3; 5]) (Some (lit "EZGP"))
          (Some (map lit ["PC"; "XZ"; "FM"; "QA"; "ST"; "NB"; "HY"; "OR";
                          "EV"; "IU"]%string)) ;;
   fst (Enigma_encode_string
          (lit "BUPXWJCDPFASXBDHLBBIBSRNWCSZXQOLBNXYAXVHOGCUUIBCVMPUZYUUKHI")
          e))
  = Ok (lit "CONGRATULATIONSONPRODUCINGYOURWORKINGENIGMAMACHINESIMULATOR").
Proof. vm_compute. reflexivity. Qed.

Example advanced_rotor_wraps_after_9 :
  (r <~ Adv.AdvancedRotor_init
          (Tuple (lit "EKMFLGDQVZNTO0WYHXUSPAIBRCJ346127598") (lit "B"))
          1 (ord "9") ;;
   r <~ Adv.AdvancedRotor_advance_position r ;;
   r <~ Adv.AdvancedRotor_advance_position r ;;
   Ok (position (Adv.base r), check_notch (Adv.base r)))
  = Ok (ord "B", true).
Proof. vm_compute. reflexivity. Qed.

(** ** swap_rotors *)

(** C10.  [swap_rotors], of [Commercial_enigma] and of
    [Commercial_enigma_advanced] alike, never replaces the rotors: every call
    ends in an exception with the machine as it was, and for a list of four
    or five rotor specifications the exception is the [TypeError] of
    [len(self.ring_length)]. *)
Theorem swap_rotors_raises (rts : list rotor_type)
    (self : Commercial_enigma) (aself : Adv.Commercial_enigma_advanced) :
  (exists e, Commercial_enigma_swap_rotors rts self = (Raise e, self)) /\
  (exists e, Adv.Commercial_enigma_advanced_swap_rotors rts aself
             = (Raise e, aself)) /\
  ((length rts = 4 \/ length rts = 5)%nat ->
   Commercial_enigma_swap_rotors rts self = (Raise TypeError, self) /\
   Adv.Commercial_enigma_advanced_swap_rotors rts aself
   = (Raise TypeError, aself)).
Proof.
  unfold Commercial_enigma_swap_rotors,
    Adv.Commercial_enigma_advanced_swap_rotors, len_of_int.
  destruct (Nat.eqb (length rts) 4 || Nat.eqb (length rts) 5) eqn:Hlen;
    cbn [negb rbind].
  - split; [eauto | split; [eauto | intros _; split; reflexivity]].
  - split; [eauto | split; [eauto |]].
    intros [Hl | Hl]; rewrite Hl in Hlen; discriminate.
Qed.

Lemma swap_rotors_raises_witness :
  Commercial_enigma_swap_rotors
    [Named "B"; Named "III"; Named "II"; Named "I"] ce_AEV
  = (Raise TypeError, ce_AEV) /\
  Adv.Commercial_enigma_advanced_swap_rotors
    [Named "B"; Named "III"; Named "II"; Named "I"] cea_demo
  = (Raise TypeError, cea_demo).
Proof.
  apply (proj2 (proj2 (swap_rotors_raises
                         [Named "B"; Named "III"; Named "II"; Named "I"]
                         ce_AEV cea_demo))).
  left; reflexivity.
Defined.

(** ** Stepping *)

Lemma getneg_app3 {A} (pre : list A) (x3 x2 x1 : A) :
  getneg (pre ++ [x3; x2; x1]) 1 = Ok x1 /\
  getneg (pre ++ [x3; x2; x1]) 2 = Ok x2 /\
  getneg (pre ++ [x3; x2; x1]) 3 = Ok x3.
Proof.
  unfold getneg, getitem. rewrite rev_app_distr. cbn. auto.
Qed.

Lemma setneg_app3 {A} (pre : list A) (x3 x2 x1 y : A) :
  setneg (pre ++ [x3; x2; x1]) 1 y = pre ++ [x3; x2; y] /\
  setneg (pre ++ [x3; x2; x1]) 2 y = pre ++ [x3; y; x1] /\
  setneg (pre ++ [x3; x2; x1]) 3 y = pre ++ [y; x2; x1].
Proof.
  unfold setneg. rewrite rev_app_distr. cbn.
  rewrite !rev_involutive. rewrite <- !app_assoc. cbn. auto.
Qed.

Lemma notch_neg_app3 pre r3 r2 r1 rl pl :
  let self := mkCE (pre ++ [r3; r2; r1]) rl pl in
  notch_neg 1 self = (Ok (check_notch r1), self) /\
  notch_neg 2 self = (Ok (check_notch r2), self).
Proof.
  unfold notch_neg. cbn [rotors].
  destruct (getneg_app3 pre r3 r2 r1) as (G1 & G2 & _).
  rewrite G1, G2. auto.
Qed.

Lemma advance_neg_app3 pre r3 r2 r1 rl pl :
  let self := mkCE (pre ++ [r3; r2; r1]) rl pl in
  advance_neg 1 self
  = (Ok tt, mkCE (pre ++ [r3; r2; advance_position r1]) rl pl) /\
  advance_neg 2 self
  = (Ok tt, mkCE (pre ++ [r3; advance_position r2; r1]) rl pl) /\
  advance_neg 3 self
  = (Ok tt, mkCE (pre ++ [advance_position r3; r2; r1]) rl pl).
Proof.
  unfold advance_neg, set_rotors. cbn [rotors ring_length position_length].
  destruct (getneg_app3 pre r3 r2 r1) as (G1 & G2 & G3).
  rewrite G1, G2, G3.
  destruct (setneg_app3 pre r3 r2 r1 (advance_position r1)) as (S1 & _ & _).
  destruct (setneg_app3 pre r3 r2 r1 (advance_position r2)) as (_ & S2 & _).
  destruct (setneg_app3 pre r3 r2 r1 (advance_position r3)) as (_ & _ & S3).
  rewrite S1, S2, S3. auto.
Qed.

(** One call of [rotate], by the two notch tests taken before any rotor
    moves. *)
Lemma rotate_app3 (self : Commercial_enigma) pre r3 r2 r1 :
  rotors self = pre ++ [r3; r2; r1] ->
  rotate self =
  (Ok tt,
   set_rotors
     (pre ++ [if check_notch r2 then advance_position r3 else r3;
              if check_notch r1 || check_notch r2
              then advance_position r2 else r2;
              advance_position r1]) self).
Proof.
  intros Hrs. destruct self as [rs rl pl]. cbn in Hrs. subst rs.
  unfold rotate, bind, set_rotors.
  cbn [rotors ring_length position_length].
  destruct (notch_neg_app3 pre r3 r2 r1 rl pl) as (N1 & N2).
  cbv zeta in N1, N2. rewrite N1, N2.
  destruct (advance_neg_app3 pre r3 r2 r1 rl pl) as (A1 & _ & _).
  cbv zeta in A1. rewrite A1.
  destruct (advance_neg_app3 pre r3 r2 (advance_position r1) rl pl)
    as (_ & A2 & A3).
  destruct (advance_neg_app3 pre r3 (advance_position r2)
              (advance_position r1) rl pl) as (_ & _ & A3').
  cbv zeta in A2, A3, A3'.
  destruct (check_notch r1), (check_notch r2); unfold when, ret, bind;
    cbn [negb orb]; rewrite ?A2, ?A3', ?A3; reflexivity.
Qed.

(** C7.  With the two rightmost rotors on their notches, one call of
    [rotate] applies [advance_position] exactly once to each of the three
    rightmost rotors and leaves every other rotor alone; the second rotor
    from the right is not advanced twice. *)
Theorem rotate_double_step (self : Commercial_enigma)
    (pre : list Rotor) (r3 r2 r1 : Rotor) :
  rotors self = pre ++ [r3; r2; r1] ->
  check_notch r1 = true ->
  check_notch r2 = true ->
  rotate self =
  (Ok tt,
   set_rotors (pre ++ [advance_position r3; advance_position r2;
                       advance_position r1]) self).
Proof.
  intros Hrs N1 N2. rewrite (rotate_app3 self pre r3 r2 r1 Hrs).
  rewrite N1, N2. reflexivity.
Qed.

Lemma rotate_double_step_witness :
  rotate ce_AEV =
  (Ok tt,
   set_rotors [rotor_at "B" "A"; rotor_at "I" "B"; rotor_at "II" "F";
               rotor_at "III" "W"] ce_AEV).
Proof.
  apply (rotate_double_step ce_AEV [rotor_at "B" "A"]
           (rotor_at "I" "A") (rotor_at "II" "E") (rotor_at "III" "V"));
    reflexivity.
Defined.

(** ** The offset transform *)

Lemma mod26_is_upper (z : Z) : c_isupper (z mod 26 + 65) = true.
Proof.
  unfold c_isupper. pose proof (Z.mod_pos_bound z 26 ltac:(lia)).
  apply andb_true_intro; split; apply Z.leb_le; lia.
Qed.

Lemma is_upper_range (c : char) : c_isupper c = true <-> 65 <= c <= 90.
Proof.
  unfold c_isupper. rewrite andb_true_iff, !Z.leb_le. tauto.
Qed.

Lemma upper_is_alpha (c : char) : c_isupper c = true -> c_isalpha c = true.
Proof. unfold c_isalpha. intros ->. reflexivity. Qed.

Lemma encode_right_to_left_upper (self : Rotor) (c : char) :
  c_isupper c = true ->
  encode_right_to_left self c = getitem (mapping self) (Z.to_nat (c - 65)).
Proof.
  intros H. unfold encode_right_to_left.
  rewrite H, (upper_is_alpha c H). reflexivity.
Qed.

Lemma encode_offset_rtl_eq_spec (self : Rotor) (c : char) :
  encode_offset_rtl self c = encode_offset_rtl_spec self c.
Proof.
  unfold encode_offset_rtl, encode_offset_rtl_spec, alphabet_index, symbol,
    alphabet_size.
  change (ord "A") with 65.
  set (o := position self - 65 - ring self + 1).
  rewrite encode_right_to_left_upper by apply mod26_is_upper.
  replace ((c - 65 + o) mod 26 + 65 - 65) with ((c - 65 + o) mod 26) by lia.
  rewrite Zplus_mod_idemp_r.
  destruct (getitem (mapping self) (Z.to_nat ((c - 65 + o) mod 26)))
    as [e | e]; cbn [rbind]; [|reflexivity].
  rewrite Zminus_mod_idemp_r. reflexivity.
Qed.

(** C8.  [encode_offset_rtl] is the transform of the specification: with
    offset = (index(position) - ring + 1) mod 26, the input index is shifted
    by +offset mod 26, sent through the wiring, and the result index shifted
    by -offset mod 26.  Rotor I with ring 1 at position 'B' sends 'J' to
    'M'. *)
Theorem encode_offset_rtl_refines_spec :
  (forall (self : Rotor) (c : char),
      encode_offset_rtl self c = encode_offset_rtl_spec self c) /\
  (r <~ Rotor_init (Named "I") 1 (ord "B") ;; encode_offset_rtl r (ord "J"))
  = Ok (ord "M").
Proof.
  split.
  - exact encode_offset_rtl_eq_spec.
  - reflexivity.
Qed.

(** ** valid_reflector *)

Lemma index_Ok (x : char) (l : list char) (i : nat) :
  index x l = Ok i <->
  nth_error l i = Some x /\ forall k, (k < i)%nat -> nth_error l k <> Some x.
Proof.
  revert i. induction l as [|y l IH]; intros i; cbn [index].
  - split; [discriminate|]. intros [H _]. destruct i; discriminate.
  - destruct (Z.eqb_spec x y) as [->|Hne].
    + split.
      * intros [= <-]. split; [reflexivity|]. intros k Hk. lia.
      * intros [_ Hfirst]. destruct i as [|i]; [reflexivity|].
        exfalso. apply (Hfirst O); [lia | reflexivity].
    + destruct (index x l) as [n|e]; cbn [rbind].
      * split.
        -- intros [= <-]. destruct (proj1 (IH n) eq_refl) as [Hn Hfirst].
           split; [exact Hn|]. intros [|k] Hk; cbn.
           ++ congruence.
           ++ apply Hfirst. lia.
        -- intros [Hi Hfirst]. destruct i as [|i]; cbn in Hi.
           ++ congruence.
           ++ f_equal. assert (Hn : Ok n = Ok i).
              { apply IH. split; [exact Hi|].
                intros k Hk. apply (Hfirst (S k)). lia. }
              congruence.
      * split; [discriminate|].
        intros [Hi Hfirst]. destruct i as [|i]; cbn in Hi.
        -- congruence.
        -- assert (Hn : @Raise nat e = Ok i).
           { apply IH. split; [exact Hi|].
             intros k Hk. apply (Hfirst (S k)). lia. }
           discriminate.
Qed.

Lemma index_In (x : char) (l : list char) :
  In x l -> exists i, index x l = Ok i.
Proof.
  induction l as [|y l IH]; cbn [index In]; [tauto|].
  intros H. destruct (Z.eqb_spec x y) as [->|Hne]; [eauto|].
  destruct H as [H|H]; [congruence|].
  destruct (IH H) as [i ->]. cbn. eauto.
Qed.

Lemma index_Raise (x : char) (l : list char) (e : exn) :
  index x l = Raise e -> e = ValueError /\ ~ In x l.
Proof.
  intros H. split.
  - induction l as [|y l IH]; cbn [index] in H; [congruence|].
    destruct (x =? y); [discriminate|].
    destruct (index x l); cbn in H; [discriminate|]. apply IH. congruence.
  - intros Hin. destruct (index_In x l Hin) as [i Hi]. congruence.
Qed.

Lemma map_fst_combine_eq {A B} (l : list A) (l' : list B) :
  length l = length l' -> map fst (combine l l') = l.
Proof.
  revert l'. induction l as [|a l IH]; intros [|b l'] H; cbn in *;
    try discriminate; [reflexivity|]. f_equal. apply IH. lia.
Qed.

Lemma map_snd_combine_eq {A B} (l : list A) (l' : list B) :
  length l = length l' -> map snd (combine l l') = l'.
Proof.
  revert l'. induction l as [|a l IH]; intros [|b l'] H; cbn in *;
    try discriminate; [reflexivity|]. f_equal. apply IH. lia.
Qed.

Lemma valid_reflector_loop_true (dic todo : list (char * char)) :
  valid_reflector_loop dic todo = Ok true <->
  Forall (fun kv => exists i, index (fst kv) (map snd dic) = Ok i /\
                              nth_error (map fst dic) i = Some (snd kv)) todo.
Proof.
  induction todo as [|[key value] rest IH]; cbn [valid_reflector_loop].
  - split; [constructor | reflexivity].
  - split.
    + intros H.
      destruct (index key (map snd dic)) as [i|e] eqn:Hi; cbn [rbind] in H;
        [|discriminate].
      unfold getitem in H.
      destruct (nth_error (map fst dic) i) as [k|] eqn:Hk; cbn [rbind] in H;
        [|discriminate].
      destruct (Z.eqb_spec value k) as [->|Hne]; cbn [negb] in H;
        [|discriminate].
      constructor; [exists i; auto | apply IH; exact H].
    + intros H. inversion H as [|kv l (i & Hi & Hk) Hrest]; subst.
      cbn [fst snd] in Hi, Hk. rewrite Hi. cbn [rbind]. unfold getitem.
      rewrite Hk. cbn [rbind]. rewrite Z.eqb_refl. cbn [negb].
      apply IH. exact Hrest.
Qed.

Lemma abc_length : length abc = 26%nat.
Proof. reflexivity. Qed.

Lemma abc_nth (i : nat) :
  (i < 26)%nat -> nth_error abc i = Some (65 + Z.of_nat i).
Proof.
  intros H. unfold abc. rewrite nth_error_map.
  rewrite nth_error_seq. destruct (Nat.ltb_spec i 26); [|lia].
  reflexivity.
Qed.

Lemma abc_nth_inv (i : nat) (c : char) :
  nth_error abc i = Some c -> (i < 26)%nat /\ c = 65 + Z.of_nat i.
Proof.
  intros H. assert (Hi : (i < 26)%nat).
  { rewrite <- abc_length. apply nth_error_Some. congruence. }
  split; [exact Hi|]. rewrite (abc_nth i Hi) in H. congruence.
Qed.

Lemma upper_index (x : char) :
  c_isupper x = true ->
  (Z.to_nat (x - 65) < 26)%nat /\ x = 65 + Z.of_nat (Z.to_nat (x - 65)).
Proof. rewrite is_upper_range. lia. Qed.

Lemma nth_error_zip {A B} (l : list A) (l' : list B) (n : nat) :
  nth_error (combine l l') n =
  match nth_error l n, nth_error l' n with
  | Some a, Some b => Some (a, b)
  | _, _ => None
  end.
Proof.
  revert l' n. induction l as [|a l IH]; intros [|b l'] [|n]; cbn;
    try reflexivity.
  - destruct (nth_error l n); reflexivity.
  - apply IH.
Qed.

Lemma Forall_combine_abc (m : list char) (P : char * char -> Prop) :
  length m = 26%nat ->
  (Forall P (combine abc m) <->
   forall j y, (j < 26)%nat -> nth_error m j = Some y ->
               P (65 + Z.of_nat j, y)).
Proof.
  intros Hlen. rewrite Forall_forall. split.
  - intros H j y Hj Hy. apply H.
    assert (Hn : nth_error (combine abc m) j = Some (65 + Z.of_nat j, y)).
    { rewrite nth_error_zip, (abc_nth j Hj), Hy. reflexivity. }
    apply nth_error_In in Hn. exact Hn.
  - intros H [k v] Hin. apply In_nth_error in Hin. destruct Hin as [j Hj].
    rewrite nth_error_zip in Hj.
    destruct (nth_error abc j) as [k'|] eqn:Hk; [|discriminate].
    destruct (nth_error m j) as [v'|] eqn:Hv; [|discriminate].
    injection Hj as <- <-. apply abc_nth_inv in Hk. destruct Hk as [Hlt ->].
    apply H; assumption.
Qed.

(** What the loop of [valid_reflector] decides on a 26-entry wiring. *)
Lemma valid_reflector_involution (self : Rotor) :
  length (mapping self) = 26%nat ->
  (valid_reflector self = Ok true <->
   notch self = None /\ involution (mapping self)).
Proof.
  intros Hlen. unfold valid_reflector.
  destruct (notch self) as [n|].
  { split; [discriminate | intros [H _]; discriminate]. }
  rewrite valid_reflector_loop_true.
  rewrite map_fst_combine_eq, map_snd_combine_eq
    by (rewrite abc_length; auto).
  rewrite (Forall_combine_abc _ _ Hlen). cbn [fst snd].
  set (m := mapping self) in *.
  split.
  - intros H. split; [reflexivity|]. intros x Hx.
    destruct (upper_index x Hx) as [Hj Hxe].
    destruct (nth_error m (Z.to_nat (x - 65))) as [y|] eqn:Hy.
    2:{ apply nth_error_None in Hy. lia. }
    destruct (H _ y Hj Hy) as (i & Hi & Hk).
    apply abc_nth_inv in Hk. destruct Hk as [Hilt ->].
    rewrite <- Hxe in Hi. apply index_Ok in Hi. destruct Hi as [Hi _].
    exists (65 + Z.of_nat i). split; [reflexivity|]. split.
    + apply is_upper_range. lia.
    + replace (Z.to_nat (65 + Z.of_nat i - 65)) with i by lia. exact Hi.
  - intros [_ Hinv] j y Hj Hy.
    assert (Hkey : c_isupper (65 + Z.of_nat j) = true).
    { apply is_upper_range. lia. }
    destruct (Hinv _ Hkey) as (y' & Hy' & Hup & Hback).
    replace (Z.to_nat (65 + Z.of_nat j - 65)) with j in Hy' by lia.
    rewrite Hy in Hy'. injection Hy' as <-.
    destruct (upper_index y Hup) as [Hi Hye].
    exists (Z.to_nat (y - 65)). split.
    + apply index_Ok. split; [exact Hback|].
      intros k Hk Hmk.
      assert (Hkup : c_isupper (65 + Z.of_nat k) = true).
      { apply is_upper_range. lia. }
      destruct (Hinv _ Hkup) as (z & Hz & _ & Hzback).
      replace (Z.to_nat (65 + Z.of_nat k - 65)) with k in Hz by lia.
      rewrite Hmk in Hz. assert (Hzj : z = 65 + Z.of_nat j) by congruence.
      subst z.
      replace (Z.to_nat (65 + Z.of_nat j - 65)) with j in Hzback by lia.
      rewrite Hy in Hzback.
      assert (Hyk : y = 65 + Z.of_nat k) by congruence. lia.
    + rewrite (abc_nth _ Hi), <- Hye. reflexivity.
Qed.

Lemma Rotor_init_length (rt : rotor_type) (rg : Z) (p : char) (r : Rotor) :
  Rotor_init rt rg p = Ok r -> length (mapping r) = 26%nat.
Proof.
  unfold Rotor_init.
  destruct ((rg <? 1) || (rg >? 26)); [discriminate|].
  destruct (negb (c_isalpha p) || negb (c_isupper p)); [discriminate|].
  destruct rt as [s | w n | w].
  - unfold named_rotor.
    repeat match goal with
           | |- context [String.eqb s ?k] => destruct (String.eqb s k)
           end; intros [= <-]; reflexivity.
  - destruct (Nat.eqb_spec (length w) 26) as [H|H]; cbn [andb];
      [|discriminate].
    destruct (forallb _ w && isalpha n && isupper n && Nat.eqb (length n) 1);
      [|discriminate].
    intros [= <-]. exact H.
  - destruct (Nat.eqb_spec (length w) 26) as [H|H]; [|discriminate].
    intros [= <-]. exact H.
Qed.

(** C3 (amended).  On a rotor as [Rotor.__init__] builds it, with its 26
    entries, [valid_reflector()] returns true if and only if the rotor has
    no notch and its wiring is an involution of the alphabet; fixed points
    are not looked for. *)
Theorem valid_reflector_iff_involution
    (rt : rotor_type) (rg : Z) (p : char) (self : Rotor) :
  Rotor_init rt rg p = Ok self ->
  (valid_reflector self = Ok true <->
   notch self = None /\ involution (mapping self)).
Proof.
  intros H. apply valid_reflector_involution.
  exact (Rotor_init_length rt rg p self H).
Qed.

Lemma valid_reflector_iff_involution_witness :
  valid_reflector identity_rotor = Ok true <->
  notch identity_rotor = None /\ involution (mapping identity_rotor).
Proof.
  apply (valid_reflector_iff_involution (List abc) 1 (ord "A")).
  reflexivity.
Defined.

(** The machine takes such a rotor as its reflector. *)
Example identity_reflector_accepted :
  (m <~ Commercial_enigma_init
          [List abc; Named "I"; Named "II"; Named "III"] None None ;;
   Ok (map is_reflector (rotors m)))
  = Ok [true; false; false; false].
Proof. reflexivity. Qed.

(** C3 as stated fails on the rotor that wires every letter to itself:
    [valid_reflector()] returns true although every symbol is a fixed
    point. *)
Lemma valid_reflector_accepts_fixed_points :
  ~ (valid_reflector identity_rotor = Ok true <->
     notch identity_rotor = None /\
     involution (mapping identity_rotor) /\
     fixed_point_free (mapping identity_rotor)).
Proof.
  intros [H _].
  assert (Hv : valid_reflector identity_rotor = Ok true) by reflexivity.
  destruct (H Hv) as (_ & _ & Hfpf).
  apply (Hfpf (ord "A")); reflexivity.
Qed.

(** ** PlugLead and Plugboard *)

Lemma mem_In (c : char) (l : list char) : mem c l = true <-> In c l.
Proof.
  unfold mem. split.
  - apply set_mem_correct1.
  - apply set_mem_correct2.
Qed.

Lemma mem_not_In (c : char) (l : list char) : mem c l = false <-> ~ In c l.
Proof.
  rewrite <- mem_In. destruct (mem c l); split; congruence.
Qed.

Lemma str_eqb_eq (a b : str) : str_eqb a b = true <-> a = b.
Proof.
  unfold str_eqb. destruct (list_eq_dec Z.eq_dec a b); split; congruence.
Qed.

Lemma alpha_not_space (c : char) : c_isalpha c = true -> c_isspace c = false.
Proof.
  unfold c_isalpha, c_isupper, c_islower, c_isspace.
  rewrite orb_true_iff, orb_false_iff, !andb_true_iff, !andb_false_iff,
    !Z.leb_le, !Z.leb_gt. lia.
Qed.

Lemma lstrip_head (s : str) :
  (forall c, In c s -> c_isspace c = false) -> lstrip s = s.
Proof.
  destruct s as [|c s]; cbn; [reflexivity|].
  intros H. rewrite (H c) by auto. reflexivity.
Qed.

Lemma strip_alpha (s : str) : isalpha s = true -> strip s = s.
Proof.
  unfold isalpha. rewrite andb_true_iff, forallb_forall. intros [_ H].
  assert (Hs : forall c, In c s -> c_isspace c = false)
    by (intros c Hc; apply alpha_not_space, H, Hc).
  unfold strip. rewrite (lstrip_head s Hs).
  rewrite lstrip_head by (intros c Hc; apply Hs, in_rev, Hc).
  apply rev_involutive.
Qed.

Lemma alpha_upper_chars (s : str) (c : char) :
  isalpha s = true -> isupper s = true -> In c s -> c_isupper c = true.
Proof.
  unfold isalpha, isupper. rewrite !andb_true_iff, !forallb_forall.
  intros [_ Ha] [_ Hl] Hc. specialize (Ha c Hc). specialize (Hl c Hc).
  unfold c_isalpha in Ha. destruct (c_isupper c); [reflexivity|].
  cbn in Ha. rewrite Ha in Hl. discriminate.
Qed.

Lemma PlugLead_init_wf (m : str) (pl : PlugLead) :
  PlugLead_init m = Ok pl -> lead_wf pl.
Proof.
  unfold PlugLead_init.
  destruct (isalpha m) eqn:Ha; [|discriminate].
  destruct (isupper m) eqn:Hu; [|discriminate].
  cbn [negb orb]. rewrite (strip_alpha m Ha).
  destruct m as [|m0 [|m1 [|? ?]]]; try discriminate.
  destruct (Z.eqb_spec m0 m1) as [|Hne]; [discriminate|].
  intros [= <-]. unfold lead_wf, mkpair. cbn.
  destruct (Z.eqb_spec m0 m1); [contradiction|].
  assert (H0 : c_isupper m0 = true)
    by (apply (alpha_upper_chars [m0; m1]); cbn; auto).
  assert (H1 : c_isupper m1 = true)
    by (apply (alpha_upper_chars [m0; m1]); cbn; auto).
  repeat split; try lia.
  - destruct (Z.min_spec m0 m1) as [[_ ->]|[_ ->]]; assumption.
  - destruct (Z.max_spec m0 m1) as [[_ ->]|[_ ->]]; assumption.
Qed.

Lemma lead_wf_letters (q : PlugLead) (c : char) :
  lead_wf q -> (In c (pair q) <-> c = first_letter q \/ c = last_letter q).
Proof.
  intros (_ & -> & _). cbn. intuition congruence.
Qed.

Lemma PlugLead_encode_wf (q : PlugLead) (s : char) :
  lead_wf q -> c_isupper s = true ->
  PlugLead_encode q s = Ok (if mem s (pair q) then partner q s else s).
Proof.
  intros Hwf Hs. pose proof Hwf as (Hlt & Hp & _).
  unfold PlugLead_encode, partner.
  rewrite Hs, (upper_is_alpha s Hs). cbn [negb orb].
  destruct (mem s (pair q)) eqn:Hm; [|reflexivity].
  apply mem_In in Hm. apply (lead_wf_letters q s Hwf) in Hm.
  rewrite Hp. cbn [set_remove].
  destruct (Z.eq_dec s (first_letter q)) as [->|Hne].
  - rewrite Z.eqb_refl. reflexivity.
  - destruct Hm as [Hm|Hm]; [contradiction|]. subst s.
    destruct (Z.eq_dec (last_letter q) (last_letter q)); [|contradiction].
    destruct (Z.eqb_spec (last_letter q) (first_letter q)); [lia|].
    reflexivity.
Qed.

Lemma conn_mem_true (pl : PlugLead) (l : list PlugLead) :
  conn_mem pl l = true <-> exists q, In q l /\ pair q = pair pl.
Proof.
  unfold conn_mem. rewrite existsb_exists. split.
  - intros (q & Hq & He). exists q. split; [exact Hq|].
    symmetry. apply str_eqb_eq. exact He.
  - intros (q & Hq & He). exists q. split; [exact Hq|].
    apply str_eqb_eq. symmetry. exact He.
Qed.

(** The invariant holds on the empty board and every method keeps it. *)
Lemma board_inv_nil (occ : list char) : board_inv [] occ.
Proof. split; [|split]; intros; contradiction. Qed.

Lemma board_inv_filter (f : PlugLead -> bool) conns occ :
  board_inv conns occ -> board_inv (filter f conns) occ.
Proof.
  intros (Hwf & Hocc & Huniq). split; [|split].
  - intros q Hq. apply filter_In in Hq. apply Hwf, Hq.
  - intros q c Hq. apply filter_In in Hq. apply Hocc, Hq.
  - intros q1 q2 c H1 H2. apply filter_In in H1, H2.
    apply Huniq; [apply H1 | apply H2].
Qed.

Lemma Plugboard_add_inv (pl : PlugLead) (self : Plugboard) :
  lead_wf pl ->
  board_inv (connections self) (occupied_letters self) ->
  let self' := snd (Plugboard_add pl self) in
  board_inv (connections self') (occupied_letters self').
Proof.
  intros Hpl Hinv. unfold Plugboard_add.
  destruct (mem (first_letter pl) (occupied_letters self)) eqn:Hf;
    cbn [andb].
  { destruct (mem (last_letter pl) (occupied_letters self)); exact Hinv. }
  destruct (mem (last_letter pl) (occupied_letters self)) eqn:Hl;
    [exact Hinv|].
  destruct (connection_limit <=? length (connections self))%nat;
    [exact Hinv|].
  cbn [snd connections occupied_letters].
  apply mem_not_In in Hf, Hl.
  destruct Hinv as (Hwf & Hocc & Huniq).
  assert (Hfresh : forall q c, In q (connections self) -> In c (pair q) ->
                               ~ In c (pair pl)).
  { intros q c Hq Hc Hc'. apply (lead_wf_letters pl c Hpl) in Hc'.
    pose proof (Hocc q c Hq Hc). destruct Hc'; subst c; contradiction. }
  unfold conn_add. destruct (conn_mem pl (connections self)) eqn:Hm.
  - split; [|split]; auto.
    intros q c Hq Hc. apply set_union_intro1. eapply Hocc; eauto.
  - split; [|split].
    + intros q Hq. apply in_app_or in Hq. destruct Hq as [Hq|[<-|[]]]; auto.
    + intros q c Hq Hc. apply in_app_or in Hq.
      destruct Hq as [Hq|[<-|[]]].
      * apply set_union_intro1. eapply Hocc; eauto.
      * apply set_union_intro2. exact Hc.
    + intros q1 q2 c H1 H2 Hc1 Hc2.
      apply in_app_or in H1, H2.
      destruct H1 as [H1|[<-|[]]], H2 as [H2|[<-|[]]].
      * eapply Huniq; eauto.
      * exfalso. eapply Hfresh; eauto.
      * exfalso. eapply Hfresh; eauto.
      * reflexivity.
Qed.

Lemma Plugboard_add_all_inv (leads : list str) (self : Plugboard) :
  board_inv (connections self) (occupied_letters self) ->
  let self' := snd (Plugboard_add_all leads self) in
  board_inv (connections self') (occupied_letters self').
Proof.
  revert self. induction leads as [|lead rest IH]; intros self Hinv.
  - exact Hinv.
  - cbn [Plugboard_add_all]. unfold bind, lift.
    destruct (PlugLead_init lead) as [pl|e] eqn:Hpl; [|exact Hinv].
    pose proof (Plugboard_add_inv pl self (PlugLead_init_wf _ _ Hpl) Hinv)
      as Hadd.
    destruct (Plugboard_add pl self) as [[w|e] self1]; cbn [snd] in Hadd.
    + apply IH. exact Hadd.
    + exact Hadd.
Qed.

Lemma Plugboard_reachable_inv (self : Plugboard) :
  Plugboard_reachable self ->
  board_inv (connections self) (occupied_letters self).
Proof.
  induction 1 as [leads self Hinit | self m pl _ IH Hpl
                 | self m pl _ IH Hpl | self leads _ IH].
  - unfold Plugboard_init in Hinit. destruct leads as [ls|].
    + pose proof (Plugboard_add_all_inv ls (mkPlugboard [] [])
                    (board_inv_nil [])) as Hall.
      destruct (Plugboard_add_all ls (mkPlugboard [] [])) as [[u|e] self'];
        [|discriminate].
      injection Hinit as <-. exact Hall.
    + injection Hinit as <-. apply board_inv_nil.
  - apply Plugboard_add_inv; [exact (PlugLead_init_wf _ _ Hpl) | exact IH].
  - unfold Plugboard_remove.
    destruct (conn_mem pl (connections self)); [|exact IH].
    cbn [snd connections occupied_letters]. apply board_inv_filter, IH.
  - unfold Plugboard_reset. destruct leads as [ls|].
    + apply Plugboard_add_all_inv. apply board_inv_nil.
    + apply board_inv_nil.
Qed.

Lemma Plugboard_encode_loop_find (conns : list PlugLead) (i n : nat)
    (s : char) :
  (i + length conns = n)%nat -> conns <> [] -> c_isupper s = true ->
  (forall q, In q conns -> lead_wf q) ->
  Plugboard_encode_loop conns i n s =
  Ok (match find (fun q => mem s (pair q)) conns with
      | Some q => partner q s
      | None => s
      end).
Proof.
  revert i. induction conns as [|pl rest IH]; intros i Hn Hne Hs Hwf;
    [contradiction|].
  cbn [Plugboard_encode_loop find].
  rewrite (PlugLead_encode_wf pl s) by auto using in_eq.
  destruct (mem s (pair pl)) eqn:Hm; cbn [orb]; [reflexivity|].
  destruct (Nat.eqb_spec (S i) n) as [He|He].
  - destruct rest; [reflexivity | cbn in Hn; lia].
  - apply IH; auto.
    + cbn in Hn. lia.
    + intros ->. cbn in Hn. lia.
    + intros q Hq. apply Hwf. right. exact Hq.
Qed.

(** [Plugboard.encode] on a non-empty set of leads that satisfies the
    invariant, whatever the order in which the set is iterated. *)
Lemma Plugboard_encode_inv (conns : list PlugLead) (occ : list char)
    (s : char) :
  board_inv conns occ -> conns <> [] -> c_isupper s = true ->
  (forall q, In q conns -> In s (pair q) ->
             Plugboard_encode (mkPlugboard conns occ) s = Ok (partner q s)) /\
  ((forall q, In q conns -> ~ In s (pair q)) ->
   Plugboard_encode (mkPlugboard conns occ) s = Ok s).
Proof.
  intros (Hwf & _ & Huniq) Hne Hs. unfold Plugboard_encode.
  cbn [connections].
  rewrite (Plugboard_encode_loop_find conns 0 (length conns) s)
    by auto.
  destruct (find (fun q => mem s (pair q)) conns) as [q'|] eqn:Hfind.
  - apply find_some in Hfind. destruct Hfind as [Hq' Hm]. apply mem_In in Hm.
    split.
    + intros q Hq Hsq. rewrite (Huniq q q' s Hq Hq' Hsq Hm). reflexivity.
    + intros Hnone. exfalso. exact (Hnone q' Hq' Hm).
  - split; [|reflexivity].
    intros q Hq Hsq. apply mem_In in Hsq.
    rewrite (find_none _ _ Hfind q Hq) in Hsq. discriminate.
Qed.

Lemma board_inv_Permutation (conns conns' : list PlugLead) occ :
  Permutation conns conns' -> board_inv conns occ -> board_inv conns' occ.
Proof.
  intros Hp (Hwf & Hocc & Huniq).
  assert (Hin : forall q, In q conns' -> In q conns)
    by (intros q; apply Permutation_in, Permutation_sym, Hp).
  split; [|split]; eauto.
Qed.

(** C6 (amended).  On every board the class can produce that has at least
    one connected lead, and for every symbol [s] of the alphabet,
    [Plugboard.encode(s)] returns the symbol paired with [s] when [s] belongs
    to a connected lead, and [s] itself when it belongs to none. *)
Theorem Plugboard_encode_connected (self : Plugboard) (s : char) :
  Plugboard_reachable self ->
  connections self <> [] ->
  c_isupper s = true ->
  (forall q, In q (connections self) -> In s (pair q) ->
             Plugboard_encode self s = Ok (partner q s)) /\
  ((forall q, In q (connections self) -> ~ In s (pair q)) ->
   Plugboard_encode self s = Ok s).
Proof.
  intros Hreach Hne Hs. destruct self as [conns occ].
  apply Plugboard_encode_inv; auto.
  exact (Plugboard_reachable_inv _ Hreach).
Qed.

Lemma Plugboard_encode_connected_witness :
  Plugboard_encode board_SZ_GT_DV_KU (ord "K") = Ok (ord "U").
Proof.
  refine (proj1 (Plugboard_encode_connected board_SZ_GT_DV_KU (ord "K")
                   _ _ _) lead_KU _ _).
  - apply (reach_init (Some [lit "SZ"; lit "GT"; lit "DV"; lit "KU"])).
    reflexivity.
  - discriminate.
  - reflexivity.
  - cbn. tauto.
  - cbn. tauto.
Defined.

(** The same in any iteration order of the set of leads. *)
Lemma Plugboard_encode_any_order (self : Plugboard) (conns : list PlugLead)
    (s : char) :
  Plugboard_reachable self ->
  Permutation (connections self) conns ->
  connections self <> [] ->
  c_isupper s = true ->
  Plugboard_encode (mkPlugboard conns (occupied_letters self)) s
  = Plugboard_encode self s.
Proof.
  intros Hreach Hperm Hne Hs.
  pose proof (Plugboard_reachable_inv _ Hreach) as Hinv.
  pose proof (board_inv_Permutation _ _ _ Hperm Hinv) as Hinv'.
  assert (Hne' : conns <> []).
  { intros ->. apply Permutation_sym, Permutation_nil in Hperm. auto. }
  destruct self as [conns0 occ]. cbn [connections occupied_letters] in *.
  destruct (Plugboard_encode_inv conns0 occ s Hinv Hne Hs) as [Hin Hout].
  destruct (Plugboard_encode_inv conns occ s Hinv' Hne' Hs) as [Hin' Hout'].
  destruct (find (fun q => mem s (pair q)) conns0) as [q|] eqn:Hfind.
  - apply find_some in Hfind. destruct Hfind as [Hq Hm]. apply mem_In in Hm.
    rewrite (Hin q Hq Hm).
    apply Hin'; [eapply Permutation_in; eauto | exact Hm].
  - assert (Hnone : forall q, In q conns0 -> ~ In s (pair q)).
    { intros q Hq Hsq. apply mem_In in Hsq.
      rewrite (find_none _ _ Hfind q Hq) in Hsq. discriminate. }
    rewrite (Hout Hnone). apply Hout'.
    intros q Hq. apply Hnone.
    eapply Permutation_in; [apply Permutation_sym|]; eauto.
Qed.

(** C6 as stated fails on the board with no connected lead: the loop of
    [Plugboard.encode] has nothing to iterate over and the method raises
    [ValueError] where the claim promises the symbol unchanged. *)
Lemma Plugboard_encode_empty_board_raises :
  Plugboard_init None = Ok board_empty /\
  connections board_empty = [] /\
  Plugboard_encode board_empty (ord "A") = Raise ValueError /\
  Plugboard_encode board_empty (ord "A") <> Ok (ord "A").
Proof.
  repeat split. discriminate.
Qed.

(** C5.  On every board the class can produce, adding a lead equal to one
    that is connected raises: both letters of the lead are occupied, so the
    first test of [add] fires before the duplicate test, and building its
    message raises [AttributeError].  The board is unchanged, but the warning
    is never issued. *)
Theorem Plugboard_add_connected_lead_raises
    (self : Plugboard) (m : str) (pl : PlugLead) :
  Plugboard_reachable self ->
  PlugLead_init m = Ok pl ->
  conn_mem pl (connections self) = true ->
  Plugboard_add pl self = (Raise AttributeError, self).
Proof.
  intros Hreach Hpl Hmem.
  pose proof (Plugboard_reachable_inv _ Hreach) as (_ & Hocc & _).
  pose proof (PlugLead_init_wf _ _ Hpl) as Hwf.
  apply conn_mem_true in Hmem. destruct Hmem as (q & Hq & Hpair).
  assert (Hf : mem (first_letter pl) (occupied_letters self) = true).
  { apply mem_In, (Hocc q _ Hq). rewrite Hpair.
    apply (lead_wf_letters pl _ Hwf). auto. }
  assert (Hl : mem (last_letter pl) (occupied_letters self) = true).
  { apply mem_In, (Hocc q _ Hq). rewrite Hpair.
    apply (lead_wf_letters pl _ Hwf). auto. }
  unfold Plugboard_add. rewrite Hf, Hl. reflexivity.
Qed.

Lemma Plugboard_add_connected_lead_raises_witness :
  Plugboard_add lead_BA board_AB = (Raise AttributeError, board_AB).
Proof.
  apply (Plugboard_add_connected_lead_raises board_AB (lit "BA") lead_BA).
  - apply (reach_init (Some [lit "AB"])). reflexivity.
  - reflexivity.
  - reflexivity.
Defined.

(** [remove] and [reset] leave [__occupied_letters] as it was. *)
Lemma Plugboard_remove_occupied (pl : PlugLead) (self : Plugboard) :
  occupied_letters (snd (Plugboard_remove pl self)) = occupied_letters self.
Proof.
  unfold Plugboard_remove. destruct (conn_mem pl (connections self));
    reflexivity.
Qed.

Lemma Plugboard_reset_None (self : Plugboard) :
  Plugboard_reset None self
  = (Ok tt, mkPlugboard [] (occupied_letters self)).
Proof. reflexivity. Qed.

Lemma Plugboard_add_occupied (pl : PlugLead) (self : Plugboard) :
  mem (first_letter pl) (occupied_letters self)
  || mem (last_letter pl) (occupied_letters self) = true ->
  Plugboard_add pl self
  = (Raise (occupied_exn pl (occupied_letters self)), self).
Proof.
  unfold Plugboard_add, occupied_exn.
  destruct (mem (first_letter pl) (occupied_letters self)),
    (mem (last_letter pl) (occupied_letters self));
    cbn [andb orb]; intros H; try reflexivity. discriminate.
Qed.

(** C9.  After a successful [remove], and after [reset()], the occupied
    letters are those of before, so adding a lead that reuses one of them
    raises although no connected lead holds it.  The exception is
    [ValueError] when one letter of the lead is occupied and
    [AttributeError] when both are. *)
Theorem Plugboard_occupied_never_released
    (self self' : Plugboard) (pl q : PlugLead) :
  Plugboard_remove pl self = (Ok tt, self') ->
  mem (first_letter q) (occupied_letters self)
  || mem (last_letter q) (occupied_letters self) = true ->
  occupied_letters self' = occupied_letters self /\
  Plugboard_add q self'
  = (Raise (occupied_exn q (occupied_letters self)), self') /\
  Plugboard_add q (snd (Plugboard_reset None self))
  = (Raise (occupied_exn q (occupied_letters self)),
     snd (Plugboard_reset None self)).
Proof.
  intros Hrem Hocc.
  assert (Hsame : occupied_letters self' = occupied_letters self).
  { pose proof (Plugboard_remove_occupied pl self) as H.
    rewrite Hrem in H. exact H. }
  split; [exact Hsame|]. split.
  - rewrite <- Hsame. apply Plugboard_add_occupied. rewrite Hsame.
    exact Hocc.
  - rewrite Plugboard_reset_None. cbn [snd].
    apply (Plugboard_add_occupied q (mkPlugboard [] (occupied_letters self))).
    exact Hocc.
Qed.

Lemma Plugboard_occupied_never_released_witness :
  connections (snd (Plugboard_remove lead_AB board_AB)) = [] /\
  Plugboard_add lead_BC (snd (Plugboard_remove lead_AB board_AB))
  = (Raise ValueError, snd (Plugboard_remove lead_AB board_AB)) /\
  Plugboard_add lead_AB (snd (Plugboard_remove lead_AB board_AB))
  = (Raise AttributeError, snd (Plugboard_remove lead_AB board_AB)).
Proof.
  split; [reflexivity|]. split.
  - exact (proj1 (proj2 (Plugboard_occupied_never_released board_AB
                           (snd (Plugboard_remove lead_AB board_AB))
                           lead_AB lead_BC eq_refl eq_refl))).
  - exact (proj1 (proj2 (Plugboard_occupied_never_released board_AB
                           (snd (Plugboard_remove lead_AB board_AB))
                           lead_AB lead_AB eq_refl eq_refl))).
Defined.

(** ** The checks on the partition boundaries *)

Section Boundaries.

Lemma insert_Forall (P : Z -> Prop) (x : Z) (l : list Z) :
  P x -> Forall P l -> Forall P (Adv.insert x l).
Proof.
  intros Hx Hl. induction Hl as [|y l Hy Hl IH]; cbn.
  - auto.
  - destruct (x <=? y); auto.
Qed.

Lemma insert_sorted (x : Z) (l : list Z) :
  StronglySorted Z.le l -> StronglySorted Z.le (Adv.insert x l).
Proof.
  induction 1 as [|y l Hs IH Hy]; cbn.
  - repeat constructor.
  - destruct (Z.leb_spec x y) as [Hle|Hgt].
    + constructor; [constructor; assumption|].
      constructor; [exact Hle|].
      eapply Forall_impl; [|exact Hy]. cbn. intros z Hz. lia.
    + constructor; [exact IH|]. apply insert_Forall; [lia | exact Hy].
Qed.

Lemma sorted_is_sorted (l : list Z) : StronglySorted Z.le (Adv.sorted l).
Proof.
  induction l as [|x l IH]; cbn; [constructor | apply insert_sorted, IH].
Qed.

Lemma StronglySorted_nth (l : list Z) :
  StronglySorted Z.le l ->
  forall i j a b, (i < j)%nat ->
  nth_error l i = Some a -> nth_error l j = Some b -> a <= b.
Proof.
  induction 1 as [|x l Hs IH Hx]; intros i j a b Hij Ha Hb.
  - destruct i; discriminate.
  - destruct j as [|j]; [lia|]. cbn in Hb. destruct i as [|i]; cbn in Ha.
    + injection Ha as <-. apply nth_error_In in Hb.
      rewrite Forall_forall in Hx. apply Hx, Hb.
    + apply (IH i j); auto. lia.
Qed.

Lemma nodup_length_le (l : list Z) :
  (length (nodup Z.eq_dec l) <= length l)%nat.
Proof.
  induction l as [|x l IH]; cbn; [lia|].
  destruct (in_dec Z.eq_dec x l); cbn; lia.
Qed.

Lemma len_set_NoDup (l : list Z) :
  Nat.eqb (length l) (Adv.len_set l) = true -> NoDup l.
Proof.
  unfold Adv.len_set. rewrite Nat.eqb_eq.
  induction l as [|x l IH]; cbn; [constructor|].
  pose proof (nodup_length_le l).
  destruct (in_dec Z.eq_dec x l) as [Hin|Hout]; cbn; intros H'; [lia|].
  constructor; [exact Hout | apply IH; lia].
Qed.

Lemma fold_max_ge (l : list Z) (x : Z) :
  x <= fold_left Z.max l x /\ forall y, In y l -> y <= fold_left Z.max l x.
Proof.
  revert x. induction l as [|z l IH]; intros x; cbn.
  - split; [lia | tauto].
  - destruct (IH (Z.max x z)) as [H1 H2]. split; [lia|].
    intros y [<-|Hy]; [lia | auto].
Qed.

Lemma fold_min_le (l : list Z) (x : Z) :
  fold_left Z.min l x <= x /\ forall y, In y l -> fold_left Z.min l x <= y.
Proof.
  revert x. induction l as [|z l IH]; intros x; cbn.
  - split; [lia | tauto].
  - destruct (IH (Z.min x z)) as [H1 H2]. split; [lia|].
    intros y [<-|Hy]; [lia | auto].
Qed.

Lemma py_max_ge (l : list Z) (m y : Z) :
  Adv.py_max l = Ok m -> In y l -> y <= m.
Proof.
  destruct l as [|x l]; [discriminate|]. cbn. intros [= <-].
  destruct (fold_max_ge l x) as [H1 H2]. intros [<-|Hy]; auto.
Qed.

Lemma py_min_le (l : list Z) (m y : Z) :
  Adv.py_min l = Ok m -> In y l -> m <= y.
Proof.
  destruct l as [|x l]; [discriminate|]. cbn. intros [= <-].
  destruct (fold_min_le l x) as [H1 H2]. intros [<-|Hy]; auto.
Qed.

Lemma list_eqb_eq (a b : list Z) : Adv.list_eqb a b = true -> a = b.
Proof.
  unfold Adv.list_eqb. destruct (list_eq_dec Z.eq_dec a b); congruence.
Qed.

Lemma sorted_NoDup_strict (B : list Z) :
  B = Adv.sorted B -> NoDup B -> strictly_increasing B.
Proof.
  intros Hs Hn i j a b Hij Ha Hb.
  assert (Hle : a <= b).
  { pose proof (sorted_is_sorted B) as H. rewrite <- Hs in H.
    exact (StronglySorted_nth B H i j a b Hij Ha Hb). }
  assert (Hne : a <> b).
  { intros ->. rewrite <- Hb in Ha.
    assert (Hi : (i < length B)%nat)
      by (apply nth_error_Some; rewrite Ha, Hb; discriminate).
    pose proof (proj1 (NoDup_nth_error B) Hn i j Hi Ha). lia. }
  lia.
Qed.

(** What a list that passes the three order tests looks like. *)
Lemma order_tests_pass (B : list Z) (mn : Z) :
  Adv.list_eqb B (Adv.sorted B) = true ->
  Nat.eqb (length B) (Adv.len_set B) = true ->
  Adv.py_min B = Ok mn -> (mn <=? 0) = false ->
  ~ ill_ordered B.
Proof.
  intros Hs Hd Hmin Hpos [Hinc | [Hdup | Hneg]].
  - apply Hinc, sorted_NoDup_strict;
      [apply list_eqb_eq, Hs | apply len_set_NoDup, Hd].
  - apply Hdup, len_set_NoDup, Hd.
  - apply Exists_exists in Hneg. destruct Hneg as (x & Hx & Hx0).
    pose proof (py_min_le B mn x Hmin Hx). apply Z.leb_gt in Hpos. lia.
Qed.

Lemma decode_check_ill_ordered (B : list Z) :
  ill_ordered B ->
  Adv.decode_check B = Ok true \/ Adv.decode_check B = Raise ValueError.
Proof.
  intros Hill. unfold Adv.decode_check.
  destruct (Adv.list_eqb B (Adv.sorted B)) eqn:Hs; cbn [negb]; [|auto].
  destruct (Nat.eqb (length B) (Adv.len_set B)) eqn:Hd; cbn [negb]; [|auto].
  destruct (Adv.py_min B) as [mn|e] eqn:Hmin; cbn [rbind].
  - destruct (mn <=? 0) eqn:Hpos; [auto|].
    exfalso. exact (order_tests_pass B mn Hs Hd Hmin Hpos Hill).
  - destruct B; [cbn in Hmin; injection Hmin as <-; auto | discriminate].
Qed.

Lemma encode_check_malformed (B : list Z) (string : str) :
  malformed B (Z.of_nat (length string)) ->
  Adv.encode_check B string = Ok true \/
  Adv.encode_check B string = Raise ValueError.
Proof.
  intros Hbad. unfold Adv.encode_check.
  destruct (Adv.list_eqb B (Adv.sorted B)) eqn:Hs; cbn [negb]; [|auto].
  destruct (Nat.eqb (length B) (Adv.len_set B)) eqn:Hd; cbn [negb]; [|auto].
  destruct (Adv.py_max B) as [mx|e] eqn:Hmax; cbn [rbind].
  2:{ destruct B; [cbn in Hmax; injection Hmax as <-; auto | discriminate]. }
  destruct (mx >? Z.of_nat (length string) - 1) eqn:Hbound; [auto|].
  destruct (Adv.py_min B) as [mn|e] eqn:Hmin; cbn [rbind].
  2:{ destruct B; discriminate. }
  destruct (mn <=? 0) eqn:Hpos; [auto|]. exfalso.
  destruct Hbad as [Hill | Hout].
  - exact (order_tests_pass B mn Hs Hd Hmin Hpos Hill).
  - apply Exists_exists in Hout. destruct Hout as (x & Hx & Hxn).
    pose proof (py_max_ge B mx x Hmax Hx).
    rewrite Z.gtb_ltb in Hbound. apply Z.ltb_ge in Hbound. lia.
Qed.

End Boundaries.

(** C4 (amended).  [encode_advanced_string] rejects every malformed list of
    boundaries (not strictly increasing, with duplicates, non-positive or
    beyond the message) with [ValueError] before it encodes anything, and
    [decode_advanced_string] does the same for a list that is not strictly
    increasing, has duplicates or is non-positive: after these failures the
    machine and the list are as they were. *)
Theorem malformed_boundaries_rejected_first
    (rnd : Adv.random) (string total_string : str)
    (self : Adv.AdvancedEnigma) (B : list Z) :
  (malformed B (Z.of_nat (length string)) ->
   Adv.encode_advanced_string rnd string (self, B)
   = (Raise ValueError, (self, B))) /\
  (ill_ordered B ->
   Adv.decode_advanced_string total_string (self, B)
   = (Raise ValueError, (self, B))).
Proof.
  split; intros Hbad.
  - unfold Adv.encode_advanced_string. cbn [snd].
    destruct (encode_check_malformed B string Hbad) as [-> | ->];
      reflexivity.
  - unfold Adv.decode_advanced_string. cbn [snd].
    destruct (decode_check_ill_ordered B Hbad) as [-> | ->]; reflexivity.
Qed.

Lemma malformed_boundaries_rejected_first_witness :
  Adv.encode_advanced_string draws_M demo_plaintext (ade_demo, [3; 7; 30])
  = (Raise ValueError, (ade_demo, [3; 7; 30])) /\
  Adv.decode_advanced_string (demo_ciphertext draws_M) (ade_demo, [7; 3; 10])
  = (Raise ValueError, (ade_demo, [7; 3; 10])).
Proof.
  split.
  - apply (proj1 (malformed_boundaries_rejected_first draws_M demo_plaintext
                    [] ade_demo [3; 7; 30])).
    right. unfold out_of_bounds. apply Exists_cons_tl, Exists_cons_tl.
    apply Exists_cons_hd. cbn. lia.
  - apply (proj2 (malformed_boundaries_rejected_first draws_M []
                    (demo_ciphertext draws_M) ade_demo [7; 3; 10])).
    left. intros H.
    specialize (H 0%nat 1%nat 7 3 ltac:(lia) eq_refl eq_refl). lia.
Defined.

(** C4 as stated fails for [decode_advanced_string]: the test against the
    length of the message comes after the whole received string has gone
    through the machine, so a boundary beyond the message raises
    [ValueError] with the rotors advanced. *)
Lemma decode_out_of_bounds_after_encoding :
  out_of_bounds [3; 7; 100]
    (Z.of_nat (length (demo_ciphertext draws_M))) /\
  fst (Adv.decode_advanced_string (demo_ciphertext draws_M)
         (ade_demo, [3; 7; 100])) = Raise ValueError /\
  Adv.get_positions ade_demo = lit "A4DT" /\
  Adv.get_positions
    (fst (snd (Adv.decode_advanced_string (demo_ciphertext draws_M)
                 (ade_demo, [3; 7; 100])))) = lit "A4F8" /\
  fst (snd (Adv.decode_advanced_string (demo_ciphertext draws_M)
              (ade_demo, [3; 7; 100]))) <> ade_demo.
Proof.
  assert (Hlen : length (demo_ciphertext draws_M) = 51%nat)
    by (vm_compute; reflexivity).
  assert (Hrun : exists self' B',
             Adv.decode_advanced_string (demo_ciphertext draws_M)
               (ade_demo, [3; 7; 100]) = (Raise ValueError, (self', B')) /\
             Adv.get_positions self' = lit "A4F8").
  { eexists. eexists. split; vm_compute; reflexivity. }
  destruct Hrun as (self' & B' & -> & Hpos). cbn [fst snd].
  assert (Hpos0 : Adv.get_positions ade_demo = lit "A4DT")
    by (vm_compute; reflexivity).
  split; [|split; [|split; [|split]]].
  - rewrite Hlen. unfold out_of_bounds.
    apply Exists_cons_tl, Exists_cons_tl, Exists_cons_hd. cbn. lia.
  - reflexivity.
  - exact Hpos0.
  - exact Hpos.
  - intros Heq. subst self'. rewrite Hpos0 in Hpos. discriminate.
Qed.

(** ** The advanced protocol *)

Lemma draws_possible (c : char) :
  c_isupper c = true ->
  possible_draws Adv.default_advanced (draws_with_repeater c).
Proof.
  intros Hc. split; [|exact Hc].
  intros i instruction Hi.
  destruct i as [|[|[|i]]]; cbn in Hi; try (destruct i; discriminate);
    injection Hi as <-; cbn.
  - split; [vm_compute; split; discriminate|].
    split; [lia|]. split.
    + repeat constructor; cbn; intuition discriminate.
    + repeat constructor.
  - split; [vm_compute; split; discriminate|].
    split; [lia|]. split.
    + repeat constructor; cbn; intuition discriminate.
    + repeat constructor.
  - split; [vm_compute; split; discriminate|].
    split; [lia|]. split.
    + repeat constructor; cbn; intuition discriminate.
    + repeat constructor.
Qed.

Example demo_ciphertext_M :
  demo_ciphertext draws_M
  = lit "D11HQS1PJZGQ04B8N3F7DXIRXISQCMK31E1VPR3DPDSKLYZOOZ0".
Proof. vm_compute. reflexivity. Qed.

(** With the end marker M the protocol returns the plaintext, as the
    demonstration code expects. *)
Example advanced_round_trip_draws_M :
  fst (Adv.decode_advanced_string (demo_ciphertext draws_M)
         (ade_demo, [3; 7; 10])) = Ok demo_plaintext.
Proof. vm_compute. reflexivity. Qed.

(** C2.  The round trip of the advanced protocol fails on the machine of the
    demonstration code, with the boundaries [3, 7, 10] that both checks
    accept and with possible draws.  When the last padding letter equals
    the end marker (padding ZKA, marker A), the decoder takes the first
    doubled letter one symbol early and returns a text of 31 symbols.  And
    when the list object given to the encoder is given to the decoder, the
    length the encoder appended to it makes the decoder raise
    [ValueError]. *)
Theorem advanced_round_trip_breaks :
  possible_draws Adv.default_advanced draws_A /\
  possible_draws Adv.default_advanced draws_M /\
  Adv.encode_check [3; 7; 10] demo_plaintext = Ok false /\
  Adv.decode_check [3; 7; 10] = Ok false /\
  (exists st1 p st2,
      Adv.encode_advanced_string draws_A demo_plaintext
        (ade_demo, [3; 7; 10]) = (Ok (demo_ciphertext draws_A), st1) /\
      Adv.decode_advanced_string (demo_ciphertext draws_A)
        (ade_demo, [3; 7; 10]) = (Ok p, st2) /\
      p = lit "J9T7EISRS3LSSICSTRINGHELLOWORLD" /\
      p <> demo_plaintext) /\
  (exists self1 B1 st2,
      Adv.encode_advanced_string draws_M demo_plaintext
        (ade_demo, [3; 7; 10]) = (Ok (demo_ciphertext draws_M), (self1, B1)) /\
      B1 = [3; 7; 10; 30] /\
      Adv.decode_advanced_string (demo_ciphertext draws_M) (ade_demo, B1)
      = (Raise ValueError, st2)).
Proof.
  split; [apply draws_possible; reflexivity|].
  split; [apply draws_possible; reflexivity|].
  split; [reflexivity|]. split; [reflexivity|]. split.
  - eexists. eexists. eexists.
    split; [vm_compute; reflexivity|].
    split; [vm_compute; reflexivity|].
    split; [reflexivity | discriminate].
  - eexists. eexists. eexists.
    split; [vm_compute; reflexivity|].
    split; [reflexivity|]. vm_compute. reflexivity.
Qed.

(** ** The round trip of the classic machine *)

Section RotorInverse.

Lemma abc_In (x : char) : In x abc <-> c_isupper x = true.
Proof.
  split.
  - intros H. apply In_nth_error in H. destruct H as [i Hi].
    apply abc_nth_inv in Hi. apply is_upper_range. lia.
  - intros H. destruct (upper_index x H) as [Hi Hx].
    apply (nth_error_In abc (Z.to_nat (x - 65))).
    rewrite (abc_nth _ Hi), <- Hx. reflexivity.
Qed.

Lemma abc_NoDup : NoDup abc.
Proof.
  apply NoDup_nth_error. intros i j Hi Hij. rewrite abc_length in Hi.
  rewrite (abc_nth i Hi) in Hij. symmetry in Hij.
  apply abc_nth_inv in Hij. lia.
Qed.

Variable m : list char.
Hypothesis m_perm : Permutation abc m.

Lemma perm_length : length m = 26%nat.
Proof. rewrite <- (Permutation_length m_perm). apply abc_length. Qed.

Lemma perm_upper (y : char) : In y m -> c_isupper y = true.
Proof.
  intros H. apply abc_In.
  exact (Permutation_in y (Permutation_sym m_perm) H).
Qed.

Lemma perm_index (x : char) :
  c_isupper x = true ->
  exists i, index x m = Ok i /\ (i < 26)%nat /\ nth_error m i = Some x.
Proof.
  intros H. apply abc_In in H.
  destruct (index_In x m (Permutation_in x m_perm H)) as [i Hi].
  exists i. split; [exact Hi|]. apply index_Ok in Hi. destruct Hi as [Hi _].
  split; [|exact Hi]. rewrite <- perm_length. apply nth_error_Some.
  congruence.
Qed.

Lemma perm_index_nth (i : nat) (y : char) :
  nth_error m i = Some y -> index y m = Ok i.
Proof.
  intros H. apply index_Ok. split; [exact H|].
  intros k Hk Hk'.
  assert (Hnd : NoDup m) by exact (Permutation_NoDup m_perm abc_NoDup).
  assert (Hlen : (k < length m)%nat)
    by (apply nth_error_Some; congruence).
  pose proof (proj1 (NoDup_nth_error m) Hnd k i Hlen) as Hinj.
  rewrite H, Hk' in Hinj. specialize (Hinj eq_refl). lia.
Qed.

End RotorInverse.

Lemma mod26_small (z : Z) : 0 <= z < 26 -> z mod 26 = z.
Proof. intros H. apply Z.mod_small. exact H. Qed.

Lemma shift_back (a o : Z) : ((a + o) mod 26 - o) mod 26 = a mod 26.
Proof.
  rewrite Zminus_mod_idemp_l. f_equal. lia.
Qed.

Lemma shift_forth (a o : Z) : ((a - o) mod 26 + o) mod 26 = a mod 26.
Proof.
  rewrite Zplus_mod_idemp_l. f_equal. lia.
Qed.

(** The two offset transforms, with the tests of the inner methods
    resolved. *)
Lemma encode_offset_rtl_value (r : Rotor) (c : char) :
  length (mapping r) = 26%nat ->
  let o := position r - 65 - ring r + 1 in
  exists y,
    nth_error (mapping r) (Z.to_nat ((c - 65 + o) mod 26)) = Some y /\
    encode_offset_rtl r c = Ok ((y - 65 - o) mod 26 + 65).
Proof.
  intros Hlen o. unfold encode_offset_rtl. change (ord "A") with 65.
  fold o. rewrite encode_right_to_left_upper by apply mod26_is_upper.
  replace ((c - 65 + o) mod 26 + 65 - 65) with ((c - 65 + o) mod 26) by lia.
  unfold getitem.
  destruct (nth_error (mapping r) (Z.to_nat ((c - 65 + o) mod 26)))
    as [y|] eqn:Hy.
  - exists y. split; reflexivity.
  - apply nth_error_None in Hy.
    pose proof (Z.mod_pos_bound (c - 65 + o) 26 ltac:(lia)). lia.
Qed.

Lemma encode_offset_ltr_value (r : Rotor) (c : char) (i : nat) :
  let o := position r - 65 - ring r + 1 in
  index ((c - 65 + o) mod 26 + 65) (mapping r) = Ok i ->
  encode_offset_ltr r c = Ok ((Z.of_nat i - o) mod 26 + 65).
Proof.
  intros o Hi. unfold encode_offset_ltr, encode_left_to_right.
  change (ord "A") with 65. fold o.
  rewrite mod26_is_upper, (upper_is_alpha _ (mod26_is_upper _)).
  cbn [negb orb]. rewrite Hi. cbn [rbind]. do 2 f_equal. f_equal. lia.
Qed.

Lemma rotor_ltr_after_rtl (r : Rotor) (c d : char) :
  Permutation abc (mapping r) -> c_isupper c = true ->
  encode_offset_rtl r c = Ok d ->
  c_isupper d = true /\ encode_offset_ltr r d = Ok c.
Proof.
  intros Hperm Hc Hrtl.
  destruct (encode_offset_rtl_value r c (perm_length _ Hperm))
    as (y & Hy & Hval).
  cbv zeta in Hy, Hval. set (o := position r - 65 - ring r + 1) in *.
  rewrite Hval in Hrtl. injection Hrtl as <-.
  split; [apply mod26_is_upper|].
  assert (Hyu : c_isupper y = true)
    by (apply (perm_upper _ Hperm), (nth_error_In _ _ Hy)).
  apply is_upper_range in Hyu. apply is_upper_range in Hc.
  rewrite (encode_offset_ltr_value r _ (Z.to_nat ((c - 65 + o) mod 26))).
  - fold o.
    pose proof (Z.mod_pos_bound (c - 65 + o) 26 ltac:(lia)).
    rewrite Z2Nat.id by lia. rewrite shift_back.
    rewrite mod26_small by lia.
    replace (c - 65 + 65) with c by lia. reflexivity.
  - fold o.
    replace ((y - 65 - o) mod 26 + 65 - 65) with ((y - 65 - o) mod 26)
      by lia.
    rewrite shift_forth, mod26_small by lia.
    replace (y - 65 + 65) with y by lia.
    apply (perm_index_nth _ Hperm). exact Hy.
Qed.

Lemma rotor_rtl_after_ltr (r : Rotor) (c : char) :
  Permutation abc (mapping r) -> c_isupper c = true ->
  exists d, encode_offset_ltr r c = Ok d /\ c_isupper d = true /\
            encode_offset_rtl r d = Ok c.
Proof.
  intros Hperm Hc.
  set (o := position r - 65 - ring r + 1).
  destruct (perm_index _ Hperm ((c - 65 + o) mod 26 + 65)
              (mod26_is_upper _)) as (i & Hi & Hlt & Hnth).
  exists ((Z.of_nat i - o) mod 26 + 65).
  split; [apply encode_offset_ltr_value; exact Hi|].
  split; [apply mod26_is_upper|].
  destruct (encode_offset_rtl_value r ((Z.of_nat i - o) mod 26 + 65)
              (perm_length _ Hperm)) as (y & Hy & Hval).
  cbv zeta in Hy, Hval. fold o in Hy, Hval. rewrite Hval.
  replace ((Z.of_nat i - o) mod 26 + 65 - 65) with ((Z.of_nat i - o) mod 26)
    in Hy by lia.
  rewrite shift_forth, mod26_small, Nat2Z.id in Hy by lia.
  rewrite Hnth in Hy. injection Hy as <-.
  apply is_upper_range in Hc.
  replace ((c - 65 + o) mod 26 + 65 - 65 - o) with ((c - 65 + o) mod 26 - o)
    by lia.
  rewrite shift_back, mod26_small by lia.
  replace (c - 65 + 65) with c by lia. reflexivity.
Qed.

Lemma reflector_twice (r : Rotor) (c d : char) :
  length (mapping r) = 26%nat -> involution (mapping r) ->
  c_isupper c = true ->
  encode_offset_rtl r c = Ok d ->
  c_isupper d = true /\ encode_offset_rtl r d = Ok c.
Proof.
  intros Hlen Hinv Hc Hrtl.
  destruct (encode_offset_rtl_value r c Hlen) as (y & Hy & Hval).
  cbv zeta in Hy, Hval. set (o := position r - 65 - ring r + 1) in *.
  rewrite Hval in Hrtl. injection Hrtl as <-.
  split; [apply mod26_is_upper|].
  pose proof (Z.mod_pos_bound (c - 65 + o) 26 ltac:(lia)) as Hj.
  destruct (Hinv ((c - 65 + o) mod 26 + 65) (mod26_is_upper _))
    as (y' & Hy' & Hyu & Hback).
  replace ((c - 65 + o) mod 26 + 65 - 65) with ((c - 65 + o) mod 26)
    in Hy' by lia.
  rewrite Hy in Hy'. injection Hy' as <-.
  apply is_upper_range in Hyu. apply is_upper_range in Hc.
  destruct (encode_offset_rtl_value r ((y - 65 - o) mod 26 + 65) Hlen)
    as (z & Hz & Hval').
  cbv zeta in Hz, Hval'. fold o in Hz, Hval'. rewrite Hval'.
  replace ((y - 65 - o) mod 26 + 65 - 65) with ((y - 65 - o) mod 26)
    in Hz by lia.
  rewrite shift_forth, mod26_small in Hz by lia.
  rewrite Hback in Hz. injection Hz as <-.
  replace ((c - 65 + o) mod 26 + 65 - 65 - o) with ((c - 65 + o) mod 26 - o)
    by lia.
  rewrite shift_back, mod26_small by lia.
  replace (c - 65 + 65) with c by lia. reflexivity.
Qed.

Lemma pass_app (f : Rotor -> char -> result char) (l1 l2 : list Rotor)
    (c : char) :
  pass f (l1 ++ l2) c = (d <~ pass f l1 c ;; pass f l2 d).
Proof.
  revert c. induction l1 as [|r l1 IH]; intros c; cbn [pass app rbind].
  - reflexivity.
  - destruct (f r c) as [c'|e]; cbn [rbind]; [apply IH | reflexivity].
Qed.

(** Right to left through the rotors, then left to right: back where the
    symbol started; and the other way round. *)
Lemma pass_ltr_after_rtl (rs : list Rotor) (c : char) :
  Forall (fun r => Permutation abc (mapping r)) rs ->
  c_isupper c = true ->
  exists d, pass encode_offset_rtl (rev rs) c = Ok d /\
            c_isupper d = true /\
            pass encode_offset_ltr rs d = Ok c.
Proof.
  intros Hrs Hc. induction Hrs as [|r rs Hr Hrs IH].
  - exists c. cbn. auto.
  - destruct IH as (d1 & Hd1 & Hu1 & Hback).
    destruct (encode_offset_rtl_value r d1 (perm_length _ Hr))
      as (y & _ & Hval).
    cbv zeta in Hval.
    destruct (rotor_ltr_after_rtl r d1 _ Hr Hu1 Hval) as [Hu Hltr].
    eexists. cbn [rev]. rewrite pass_app, Hd1. cbn [rbind pass].
    rewrite Hval. cbn [rbind]. split; [reflexivity|].
    split; [exact Hu|]. rewrite Hltr. cbn [rbind]. exact Hback.
Qed.

Lemma pass_rtl_after_ltr (rs : list Rotor) (c : char) :
  Forall (fun r => Permutation abc (mapping r)) rs ->
  c_isupper c = true ->
  exists d, pass encode_offset_ltr rs c = Ok d /\
            c_isupper d = true /\
            pass encode_offset_rtl (rev rs) d = Ok c.
Proof.
  intros Hrs. revert c. induction Hrs as [|r rs Hr Hrs IH]; intros c Hc.
  - exists c. cbn. auto.
  - destruct (rotor_rtl_after_ltr r c Hr Hc) as (d1 & Hd1 & Hu1 & Hback1).
    destruct (IH d1 Hu1) as (d & Hd & Hu & Hback).
    exists d. cbn [pass rev]. rewrite Hd1. cbn [rbind].
    split; [exact Hd|]. split; [exact Hu|].
    rewrite pass_app, Hback. cbn [rbind pass]. rewrite Hback1. reflexivity.
Qed.

(** The substitution of [encode], after the rotors have stepped. *)
Lemma substitution_involutive (rs : list Rotor) (c : char) :
  wirings_ok (map mapping rs) -> c_isupper c = true ->
  exists d,
    (x <~ pass encode_offset_rtl (rev rs) c ;;
     pass encode_offset_ltr (tl rs) x) = Ok d /\
    c_isupper d = true /\
    (x <~ pass encode_offset_rtl (rev rs) d ;;
     pass encode_offset_ltr (tl rs) x) = Ok c.
Proof.
  intros (m0 & ms & Hws & _ & Hlen & Hinv & Hms) Hc.
  destruct rs as [|refl rotors]; [discriminate|].
  cbn [map] in Hws. injection Hws as <- <-.
  assert (Hrot : Forall (fun r => Permutation abc (mapping r)) rotors).
  { apply Forall_forall. intros r Hr. rewrite Forall_forall in Hms.
    apply Hms, in_map, Hr. }
  cbn [tl rev].
  destruct (pass_ltr_after_rtl rotors c Hrot Hc) as (d1 & Hd1 & Hu1 & Hb1).
  destruct (encode_offset_rtl_value refl d1 Hlen) as (y & _ & Hval).
  cbv zeta in Hval.
  destruct (reflector_twice refl d1 _ Hlen Hinv Hu1 Hval) as [Hu2 Hrefl].
  destruct (pass_rtl_after_ltr rotors _ Hrot Hu2) as (d & Hd & Hu & Hb).
  exists d. rewrite !pass_app, Hd1, Hb. cbn [rbind pass].
  rewrite Hval, Hrefl. cbn [rbind]. auto.
Qed.

Lemma last_three {A} (l : list A) :
  (3 <= length l)%nat -> exists pre a b c, l = pre ++ [a; b; c].
Proof.
  intros H. rewrite <- (rev_involutive l).
  rewrite <- length_rev in H.
  destruct (rev l) as [|c [|b [|a t]]]; cbn in H; try lia.
  exists (rev t), a, b, c. cbn. rewrite <- !app_assoc. reflexivity.
Qed.

Lemma advance_position_mapping (r : Rotor) :
  mapping (advance_position r) = mapping r.
Proof.
  unfold advance_position. destruct (position r =? ord "Z"); reflexivity.
Qed.

(** Stepping succeeds on a machine of at least three rotors besides the
    reflector and touches no wiring. *)
Lemma rotate_wirings (self : Commercial_enigma) :
  wirings_ok (map mapping (rotors self)) ->
  exists self', rotate self = (Ok tt, self') /\
                map mapping (rotors self') = map mapping (rotors self).
Proof.
  intros (m0 & ms & Hws & Hlen & _).
  destruct (rotors self) as [|refl rest] eqn:Hrs; [discriminate|].
  cbn [map] in Hws. injection Hws as <- <-. rewrite length_map in Hlen.
  destruct (last_three rest Hlen) as (pre & r3 & r2 & r1 & ->).
  eexists. split.
  - apply (rotate_app3 self (refl :: pre) r3 r2 r1). exact Hrs.
  - unfold set_rotors. cbn [rotors app map].
    rewrite !map_app. cbn [map]. rewrite advance_position_mapping.
    destruct (check_notch r1), (check_notch r2); cbn [orb];
      rewrite ?advance_position_mapping; reflexivity.
Qed.

Lemma Commercial_enigma_encode_involutive (self : Commercial_enigma)
    (c : char) :
  wirings_ok (map mapping (rotors self)) -> c_isupper c = true ->
  exists d self',
    Commercial_enigma_encode c self = (Ok d, self') /\
    Commercial_enigma_encode d self = (Ok c, self') /\
    c_isupper d = true /\
    wirings_ok (map mapping (rotors self')).
Proof.
  intros Hok Hc.
  destruct (rotate_wirings self Hok) as (self' & Hrot & Hmap).
  assert (Hok' : wirings_ok (map mapping (rotors self')))
    by (rewrite Hmap; exact Hok).
  destruct (substitution_involutive (rotors self') c Hok' Hc)
    as (d & Hd & Hu & Hback).
  exists d, self'. unfold Commercial_enigma_encode, bind, get, lift.
  rewrite Hrot, Hd, Hback. auto.
Qed.

(** The plugboard swaps the two ends of every lead. *)
Lemma partner_partner (q : PlugLead) (s : char) :
  lead_wf q -> In s (pair q) ->
  In (partner q s) (pair q) /\ partner q (partner q s) = s /\
  c_isupper (partner q s) = true.
Proof.
  intros Hwf Hs. pose proof Hwf as (Hlt & Hp & Hf & Hl).
  apply (lead_wf_letters q s Hwf) in Hs. unfold partner.
  rewrite (lead_wf_letters q _ Hwf).
  destruct (Z.eqb_spec s (first_letter q)) as [->|Hne].
  - destruct (Z.eqb_spec (last_letter q) (first_letter q)); [lia|]. auto.
  - destruct Hs as [Hs|Hs]; [contradiction|]. subst s.
    rewrite Z.eqb_refl. auto.
Qed.

Lemma Plugboard_encode_involutive (p : Plugboard) (s : char) :
  board_inv (connections p) (occupied_letters p) ->
  connections p <> [] -> c_isupper s = true ->
  exists t, Plugboard_encode p s = Ok t /\ c_isupper t = true /\
            Plugboard_encode p t = Ok s.
Proof.
  intros Hinv Hne Hs. destruct p as [conns occ].
  cbn [connections occupied_letters] in *.
  pose proof Hinv as (Hwf & _ & _).
  destruct (Plugboard_encode_inv conns occ s Hinv Hne Hs) as [Hin Hout].
  destruct (find (fun q => mem s (pair q)) conns) as [q|] eqn:Hfind.
  - apply find_some in Hfind. destruct Hfind as [Hq Hm]. apply mem_In in Hm.
    destruct (partner_partner q s (Hwf q Hq) Hm) as (Hpin & Hpp & Hpu).
    exists (partner q s). split; [exact (Hin q Hq Hm)|].
    split; [exact Hpu|].
    destruct (Plugboard_encode_inv conns occ _ Hinv Hne Hpu) as [Hin' _].
    rewrite (Hin' q Hq Hpin), Hpp. reflexivity.
  - assert (Hnone : forall q, In q conns -> ~ In s (pair q)).
    { intros q Hq Hsq. apply mem_In in Hsq.
      rewrite (find_none _ _ Hfind q Hq) in Hsq. discriminate. }
    exists s. rewrite (Hout Hnone). auto.
Qed.

Lemma Enigma_encode_involutive (self : Enigma) (c : char) :
  enigma_ok self -> c_isupper c = true ->
  exists d self',
    Enigma_encode c self = (Ok d, self') /\
    Enigma_encode d self = (Ok c, self') /\
    c_isupper d = true /\ enigma_ok self'.
Proof.
  intros [Hws Hpb] Hc. destruct self as [ce0 [p|]];
    cbn [ce pb] in *; unfold Enigma_encode; cbn [pb].
  - destruct Hpb as [Hinv Hne].
    destruct (Plugboard_encode_involutive p c Hinv Hne Hc)
      as (c1 & Hc1 & Hu1 & Hb1).
    destruct (Commercial_enigma_encode_involutive ce0 c1 Hws Hu1)
      as (c2 & ce' & Henc & Hdec & Hu2 & Hws').
    destruct (Plugboard_encode_involutive p c2 Hinv Hne Hu2)
      as (c3 & Hc3 & Hu3 & Hb3).
    exists c3, (mkEnigma ce' (Some p)).
    unfold bind, lift, on_ce. cbn [ce pb].
    rewrite Hc1, Henc, Hc3, Hb3, Hdec, Hb1.
    split; [reflexivity|]. split; [reflexivity|]. split; [exact Hu3|].
    split; cbn [ce pb]; auto.
  - destruct (Commercial_enigma_encode_involutive ce0 c Hws Hc)
      as (d & ce' & Henc & Hdec & Hu & Hws').
    exists d, (mkEnigma ce' None). unfold on_ce. cbn [ce pb].
    rewrite Henc, Hdec.
    split; [reflexivity|]. split; [reflexivity|]. split; [exact Hu|].
    split; cbn [ce pb]; auto.
Qed.

(** A loop of [encode_string] over a self-inverse, deterministic step. *)
Lemma encode_string_loop_involutive {S : Type} (enc : char -> M S char)
    (ok : S -> Prop) :
  (forall s c, ok s -> c_isupper c = true ->
     exists d s', enc c s = (Ok d, s') /\ enc d s = (Ok c, s') /\
                  c_isupper d = true /\ ok s') ->
  forall (P : str) (out1 out2 : str) (s : S),
    ok s -> Forall (fun c => c_isupper c = true) P ->
    exists C s',
      encode_string_loop enc P out1 s = (Ok (out1 ++ C), s') /\
      encode_string_loop enc C out2 s = (Ok (out2 ++ P), s') /\
      length C = length P /\
      Forall (fun c => c_isupper c = true) C.
Proof.
  intros Hstep P. induction P as [|c P IH]; intros out1 out2 s Hs HP.
  - exists [], s. cbn. rewrite !app_nil_r. auto.
  - inversion HP as [|c' P' Hc HP']; subst.
    destruct (Hstep s c Hs Hc) as (d & s1 & Henc & Hdec & Hu & Hs1).
    destruct (IH (out1 ++ [d]) (out2 ++ [c]) s1 Hs1 HP')
      as (C & s' & HC & HP2 & Hlen & HCu).
    exists (d :: C), s'. cbn [encode_string_loop]. unfold bind.
    rewrite Henc, Hdec, HC, HP2. rewrite <- !app_assoc. cbn [app length].
    repeat split; auto.
Qed.

(** ** What the constructors establish *)

Lemma permutationb_Permutation (m : list char) :
  permutationb m = true -> Permutation abc m.
Proof.
  unfold permutationb. rewrite andb_true_iff, forallb_forall.
  intros [Hlen Hall]. apply Nat.leb_le in Hlen.
  apply NoDup_Permutation_bis.
  - exact abc_NoDup.
  - rewrite abc_length. exact Hlen.
  - intros x Hx. apply mem_In, Hall, Hx.
Qed.

Lemma involutionb_involution (m : list char) :
  involutionb m = true -> involution m.
Proof.
  unfold involutionb. rewrite forallb_forall. intros H x Hx.
  specialize (H x (proj2 (abc_In x) Hx)).
  destruct (nth_error m (Z.to_nat (x - 65))) as [y|] eqn:Hxy;
    [|discriminate].
  apply andb_true_iff in H. destruct H as [Hy H].
  destruct (nth_error m (Z.to_nat (y - 65))) as [z|] eqn:Hyz;
    [|discriminate].
  apply Z.eqb_eq in H. subst z. exists y.
  split; [reflexivity|]. split; [exact Hy | exact Hyz].
Qed.

Lemma named_rotor_tables (s : string) m n (b : bool) :
  named_rotor s = Some (m, n, b) ->
  Permutation abc m /\ (b = true -> involution m).
Proof.
  unfold named_rotor.
  repeat match goal with
         | |- context [String.eqb s ?k] => destruct (String.eqb s k)
         end;
    intros [= <- <- <-];
    (split;
     [apply permutationb_Permutation; vm_compute; reflexivity
     | first [discriminate
             | intros _; apply involutionb_involution; vm_compute;
               reflexivity]]).
Qed.

Lemma Rotor_init_cases (rt : rotor_type) (rg : Z) (p : char) (r : Rotor) :
  Rotor_init rt rg p = Ok r ->
  match rt with
  | Named s => named_rotor s = Some (mapping r, notch r, is_reflector r)
  | Tuple w n => mapping r = w /\ is_reflector r = false
  | List w => mapping r = w /\ is_reflector r = false
  end.
Proof.
  unfold Rotor_init.
  destruct ((rg <? 1) || (rg >? 26)); [discriminate|].
  destruct (negb (c_isalpha p) || negb (c_isupper p)); [discriminate|].
  destruct rt as [s | w n | w].
  - destruct (named_rotor s) as [[[m n] b]|]; [|discriminate].
    intros [= <-]. reflexivity.
  - destruct (Nat.eqb (length w) 26 && _ && isalpha n && isupper n
              && Nat.eqb (length n) 1); [|discriminate].
    intros [= <-]. auto.
  - destruct (Nat.eqb (length w) 26); [|discriminate].
    intros [= <-]. auto.
Qed.

Lemma Rotor_init_wiring (rt : rotor_type) (rg : Z) (p : char) (r : Rotor) :
  Rotor_init rt rg p = Ok r -> wiring_ok rt -> Permutation abc (mapping r).
Proof.
  intros Hinit Hok. apply Rotor_init_cases in Hinit.
  destruct rt as [s | w n | w]; cbn in Hok.
  - exact (proj1 (named_rotor_tables s _ _ _ Hinit)).
  - destruct Hinit as [-> _]. exact Hok.
  - destruct Hinit as [-> _]. exact Hok.
Qed.

Lemma Rotor_init_reflector (rt : rotor_type) (rg : Z) (p : char)
    (r : Rotor) :
  Rotor_init rt rg p = Ok r -> is_reflector r = true ->
  involution (mapping r).
Proof.
  intros Hinit Hrefl. apply Rotor_init_cases in Hinit.
  destruct rt as [s | w n | w].
  - exact (proj2 (named_rotor_tables s _ _ _ Hinit) Hrefl).
  - destruct Hinit as [_ H]. congruence.
  - destruct Hinit as [_ H]. congruence.
Qed.

Lemma build_rotors_Forall2 (rts : list rotor_type) (rs : list Rotor) :
  build_rotors rts = Ok rs ->
  Forall2 (fun rt r => Rotor_init rt 1 (ord "A") = Ok r) rts rs.
Proof.
  revert rs. induction rts as [|rt rts IH]; intros rs; cbn [build_rotors].
  - intros [= <-]. constructor.
  - destruct (Rotor_init rt 1 (ord "A")) as [r|e] eqn:Hr; cbn [rbind];
      [|discriminate].
    destruct (build_rotors rts) as [rs'|e]; cbn [rbind]; [|discriminate].
    intros [= <-]. constructor; [exact Hr | apply IH; reflexivity].
Qed.

Lemma update_mapping (rs : list Rotor) (k : nat) (r r' : Rotor) :
  nth_error rs k = Some r -> mapping r' = mapping r ->
  map mapping (update rs k r') = map mapping rs.
Proof.
  revert k. induction rs as [|x rs IH]; intros [|k] Hk Hm; cbn in *;
    try discriminate.
  - injection Hk as ->. rewrite Hm. reflexivity.
  - f_equal. apply IH; assumption.
Qed.

Lemma ring_settings_loop_mapping (rings : list Z) (i : nat)
    (rs : list Rotor) :
  map mapping (snd (ring_settings_loop i rings rs)) = map mapping rs.
Proof.
  revert i rs. induction rings as [|x rings IH]; intros i rs;
    cbn [ring_settings_loop]; [reflexivity|].
  destruct ((x <? 1) || (x >? 26)); [reflexivity|].
  destruct (nth_error rs (S i)) as [r|] eqn:Hr; [|reflexivity].
  rewrite IH. apply (update_mapping rs (S i) r); auto.
Qed.

Lemma position_settings_loop_mapping (positions : list char) (i : nat)
    (rs : list Rotor) :
  map mapping (snd (position_settings_loop i positions rs))
  = map mapping rs.
Proof.
  revert i rs. induction positions as [|x positions IH]; intros i rs;
    cbn [position_settings_loop]; [reflexivity|].
  destruct (negb (c_isalpha x) || negb (c_isupper x)); [reflexivity|].
  destruct (nth_error rs (S i)) as [r|] eqn:Hr; [|reflexivity].
  rewrite IH. apply (update_mapping rs (S i) r); auto.
Qed.

Lemma opt_apply_mapping {A} (f : A -> M (list Rotor) unit) (o : option A)
    (rs rs' : list Rotor) :
  (forall a l, map mapping (snd (f a l)) = map mapping l) ->
  opt_apply f o rs = Ok rs' -> map mapping rs' = map mapping rs.
Proof.
  intros Hf. unfold opt_apply. destruct o as [a|].
  - specialize (Hf a rs). destruct (f a rs) as [[u|e] l]; [|discriminate].
    intros [= <-]. exact Hf.
  - intros [= <-]. reflexivity.
Qed.

Lemma ring_settings_mapping (rings : list Z) (rs : list Rotor) :
  map mapping (snd (ring_settings rings rs)) = map mapping rs.
Proof.
  unfold ring_settings.
  destruct (negb (Z.of_nat (length rings) =? Z.of_nat (length rs) - 1));
    [reflexivity | apply ring_settings_loop_mapping].
Qed.

Lemma position_settings_mapping (positions : list char) (rs : list Rotor) :
  map mapping (snd (position_settings positions rs)) = map mapping rs.
Proof.
  unfold position_settings.
  destruct (negb (Z.of_nat (length positions) =? Z.of_nat (length rs) - 1));
    [reflexivity | apply position_settings_loop_mapping].
Qed.

(** The constructor checks the reflector; with custom rotors that are
    permutations, the machine it returns has the wirings the round trip
    needs. *)
Lemma Commercial_enigma_init_wirings (rts : list rotor_type)
    (rings : option (list Z)) (positions : option (list char))
    (self : Commercial_enigma) :
  Commercial_enigma_init rts rings positions = Ok self ->
  Forall wiring_ok (tl rts) ->
  wirings_ok (map mapping (rotors self)).
Proof.
  unfold Commercial_enigma_init. intros Hinit Hok.
  destruct (Nat.eqb (length rts) 4 || Nat.eqb (length rts) 5) eqn:Hlen;
    cbn [negb] in Hinit; [|discriminate].
  destruct (build_rotors rts) as [rs|e] eqn:Hbuild; cbn [rbind] in Hinit;
    [|discriminate].
  apply build_rotors_Forall2 in Hbuild.
  assert (Hn : (4 <= length rs)%nat).
  { rewrite <- (Forall2_length Hbuild).
    apply orb_true_iff in Hlen. rewrite !Nat.eqb_eq in Hlen. lia. }
  destruct Hbuild as [|rt0 r0 rts' rs' Hr0 Hrest]; [cbn in Hn; lia|].
  cbn [getitem nth_error rbind tl] in Hinit, Hok.
  assert (Hperm : Forall (Permutation abc) (map mapping rs')).
  { clear -Hrest Hok. induction Hrest as [|rt r rts rs Hr Hrest IH];
      cbn; constructor.
    - apply (Rotor_init_wiring rt 1 (ord "A")); [exact Hr|].
      inversion Hok; assumption.
    - apply IH. inversion Hok; assumption. }
  assert (Hrefl : exists rs1,
             (if negb (is_reflector r0)
              then v <~ valid_reflector r0 ;;
                   if v then Ok (update (r0 :: rs') 0
                                   (set_is_reflector true r0))
                   else Raise ValueError
              else Ok (r0 :: rs')) = Ok rs1 /\
             map mapping rs1 = map mapping (r0 :: rs') /\
             involution (mapping r0)).
  { destruct (is_reflector r0) eqn:Hir; cbn [negb] in *.
    - exists (r0 :: rs'). split; [reflexivity|]. split; [reflexivity|].
      exact (Rotor_init_reflector _ _ _ _ Hr0 Hir).
    - destruct (valid_reflector r0) as [[|]|e] eqn:Hv; cbn [rbind] in *;
        try discriminate.
      eexists. split; [reflexivity|]. split; [reflexivity|].
      apply (valid_reflector_involution r0
               (Rotor_init_length _ _ _ _ Hr0)) in Hv.
      exact (proj2 Hv). }
  destruct Hrefl as (rs1 & Hrs1 & Hmap1 & Hinv).
  rewrite Hrs1 in Hinit. cbn [rbind] in Hinit.
  destruct (existsb is_reflector (tl rs1)); [discriminate|].
  destruct (opt_apply ring_settings rings rs1) as [rs2|e] eqn:Hrings;
    cbn [rbind] in Hinit; [|discriminate].
  destruct (opt_apply position_settings positions rs2) as [rs3|e]
    eqn:Hpos; cbn [rbind] in Hinit; [|discriminate].
  injection Hinit as <-. cbn [rotors].
  rewrite (opt_apply_mapping _ _ _ _ position_settings_mapping Hpos).
  rewrite (opt_apply_mapping _ _ _ _ ring_settings_mapping Hrings).
  rewrite Hmap1. cbn [map].
  exists (mapping r0), (map mapping rs'). split; [reflexivity|].
  split; [rewrite length_map; cbn in Hn; lia|].
  split; [exact (Rotor_init_length _ _ _ _ Hr0)|].
  split; [exact Hinv | exact Hperm].
Qed.

Lemma conn_add_nonempty (pl : PlugLead) (l : list PlugLead) :
  conn_add pl l <> [].
Proof.
  unfold conn_add. destruct (conn_mem pl l) eqn:Hm.
  - destruct l; [discriminate | discriminate].
  - destruct l; discriminate.
Qed.

Lemma Plugboard_add_nonempty (pl : PlugLead) (self : Plugboard) :
  connections self <> [] ->
  connections (snd (Plugboard_add pl self)) <> [].
Proof.
  intros Hne. unfold Plugboard_add.
  repeat match goal with
         | |- context [if ?b then _ else _] => destruct b
         end; cbn [snd connections]; auto using conn_add_nonempty.
Qed.

Lemma Plugboard_add_all_nonempty (leads : list str) (self : Plugboard) :
  connections self <> [] ->
  connections (snd (Plugboard_add_all leads self)) <> [].
Proof.
  revert self. induction leads as [|lead rest IH]; intros self Hne.
  - exact Hne.
  - cbn [Plugboard_add_all]. unfold bind, lift.
    destruct (PlugLead_init lead) as [pl|e]; [|exact Hne].
    pose proof (Plugboard_add_nonempty pl self Hne) as Hadd.
    destruct (Plugboard_add pl self) as [[w|e] self1]; cbn [snd] in Hadd.
    + apply IH. exact Hadd.
    + exact Hadd.
Qed.

Lemma Plugboard_init_nonempty (leads : list str) (p : Plugboard) :
  leads <> [] -> Plugboard_init (Some leads) = Ok p ->
  connections p <> [].
Proof.
  intros Hne. destruct leads as [|lead rest]; [contradiction|].
  unfold Plugboard_init. cbn [Plugboard_add_all]. unfold bind, lift.
  destruct (PlugLead_init lead) as [pl|e]; [|discriminate].
  unfold Plugboard_add at 1. cbn [occupied_letters connections mem set_mem
                                   andb conn_mem existsb length].
  change (connection_limit <=? 0)%nat with false. cbv iota.
  pose proof (Plugboard_add_all_nonempty rest
                {| connections := conn_add pl [];
                   occupied_letters := set_union Z.eq_dec [] (pair pl) |}
                (conn_add_nonempty pl [])) as Hall.
  destruct (Plugboard_add_all rest _) as [[u|e] p']; [|discriminate].
  intros [= <-]. exact Hall.
Qed.

Lemma Enigma_init_ok (rts : list rotor_type) (rings : option (list Z))
    (positions : option (list char)) (plugboard : option (list str))
    (self : Enigma) :
  Enigma_init rts rings positions plugboard = Ok self ->
  Forall wiring_ok (tl rts) ->
  plugboard <> Some [] ->
  enigma_ok self.
Proof.
  unfold Enigma_init. intros Hinit Hok Hpb.
  destruct (Commercial_enigma_init rts rings positions) as [c|e] eqn:Hce;
    cbn [rbind] in Hinit; [|discriminate].
  pose proof (Commercial_enigma_init_wirings _ _ _ _ Hce Hok) as Hws.
  destruct plugboard as [leads|].
  - destruct (Plugboard_init (Some leads)) as [p|e] eqn:Hp;
      cbn [rbind] in Hinit; [|discriminate].
    injection Hinit as <-. split; [exact Hws|]. cbn [pb]. split.
    + apply Plugboard_reachable_inv, (reach_init (Some leads)), Hp.
    + apply (Plugboard_init_nonempty leads); [congruence | exact Hp].
  - injection Hinit as <-. split; [exact Hws | exact I].
Qed.

(** C1 (amended).  Take a machine as [Enigma(rotors, rings, positions,
    plugboard)] builds it from arguments written in ASCII (every position
    one ASCII character; custom wirings, notches and lead strings of ASCII
    characters), whose custom rotors are permutations of the alphabet and
    whose plugboard, when one is given, has at least one lead.  For every
    string [P] over the alphabet, [encode_string(P)] returns some [C], and
    [encode_string(C)] on a machine built from the same arguments returns
    [P]; both runs leave the rotors in the same positions. *)
Theorem Enigma_round_trip (rts : list rotor_type) (rings : option (list Z))
    (positions : option (list char)) (plugboard : option (list str))
    (self : Enigma) (P : str) :
  Enigma_init rts rings positions plugboard = Ok self ->
  ascii_arguments rts positions plugboard ->
  Forall wiring_ok (tl rts) ->
  plugboard <> Some [] ->
  Forall (fun c => c_isupper c = true) P ->
  exists C self',
    Enigma_encode_string P self = (Ok C, self') /\
    Enigma_encode_string C self = (Ok P, self').
Proof.
  intros Hinit _ Hok Hpb HP.
  pose proof (Enigma_init_ok _ _ _ _ _ Hinit Hok Hpb) as Hself.
  destruct (encode_string_loop_involutive Enigma_encode enigma_ok
              Enigma_encode_involutive P [] [] self Hself HP)
    as (C & self' & HC & HP' & _ & _).
  exists C, self'. split; [exact HC | exact HP'].
Qed.

Lemma Enigma_round_trip_witness :
  exists C self',
    Enigma_encode_string (lit "ENIGMA") enigma_demo = (Ok C, self') /\
    Enigma_encode_string C enigma_demo = (Ok (lit "ENIGMA"), self').
Proof.
  apply (Enigma_round_trip enigma_demo_rotors (Some [18; 24; 3; 5])
           (Some (lit "EZGP")) (Some enigma_demo_leads)).
  - reflexivity.
  - reflexivity.
  - repeat constructor.
  - discriminate.
  - repeat constructor.
Defined.

(** C1 as stated fails on a machine built with an empty list of leads: the
    constructor accepts it, and the first symbol makes [Plugboard.encode]
    raise [ValueError], so no ciphertext is returned. *)
Lemma Enigma_round_trip_fails_without_leads :
  Enigma_init [Named "B"; Named "I"; Named "II"; Named "III"]
    None None (Some []) = Ok enigma_no_leads /\
  Enigma_encode_string (lit "A") enigma_no_leads
  = (Raise ValueError, enigma_no_leads) /\
  ~ (exists C self',
        Enigma_encode_string (lit "A") enigma_no_leads = (Ok C, self') /\
        Enigma_encode_string C enigma_no_leads = (Ok (lit "A"), self')).
Proof.
  assert (H : Enigma_encode_string (lit "A") enigma_no_leads
              = (Raise ValueError, enigma_no_leads)) by reflexivity.
  split; [reflexivity|]. split; [exact H|].
  intros (C & self' & HC & _). rewrite H in HC. discriminate.
Qed.

(** The condition on the custom rotors is needed as well: [Rotor.__init__]
    accepts any list of 26 entries, and with a wiring that is not a
    permutation 'T' is sent to 'Q' and 'Q' to 'Z'. *)
Lemma Enigma_round_trip_needs_permutations :
  Enigma_init [Named "B"; wiring_AA; Named "II"; Named "III"]
    None None None = Ok enigma_AA /\
  fst (Enigma_encode_string (lit "T") enigma_AA) = Ok (lit "Q") /\
  fst (Enigma_encode_string (lit "Q") enigma_AA) = Ok (lit "Z").
Proof. repeat split. Qed.

(** * Further properties of the two modules *)

(** ** PlugLead *)

Lemma PlugLead_init_pair (a b : char) :
  c_isupper a = true -> c_isupper b = true -> a <> b ->
  PlugLead_init [a; b]
  = Ok (mkPlugLead [Z.min a b; Z.max a b] (Z.min a b) (Z.max a b)).
Proof.
  intros Ha Hb Hne. unfold PlugLead_init.
  assert (Halpha : isalpha [a; b] = true).
  { unfold isalpha. cbn. rewrite (upper_is_alpha a Ha), (upper_is_alpha b Hb).
    reflexivity. }
  assert (Hupper : isupper [a; b] = true).
  { unfold isupper. cbn. rewrite Ha. cbn.
    apply is_upper_range in Ha, Hb.
    assert (Hla : c_islower a = false)
      by (unfold c_islower; apply andb_false_iff; left; apply Z.leb_gt; lia).
    assert (Hlb : c_islower b = false)
      by (unfold c_islower; apply andb_false_iff; left; apply Z.leb_gt; lia).
    rewrite Hla, Hlb. reflexivity. }
  rewrite Halpha, Hupper. cbn [negb orb]. rewrite (strip_alpha _ Halpha).
  destruct (Z.eqb_spec a b); [contradiction|].
  unfold mkpair. destruct (Z.eqb_spec a b); [contradiction|]. reflexivity.
Qed.

Lemma PlugLead_init_Ok (m : str) (pl : PlugLead) :
  PlugLead_init m = Ok pl ->
  exists a b, m = [a; b] /\ a <> b /\
              c_isupper a = true /\ c_isupper b = true.
Proof.
  unfold PlugLead_init.
  destruct (isalpha m) eqn:Ha; [|discriminate].
  destruct (isupper m) eqn:Hu; [|discriminate].
  cbn [negb orb]. rewrite (strip_alpha m Ha).
  destruct m as [|m0 [|m1 [|? ?]]]; try discriminate.
  destruct (Z.eqb_spec m0 m1) as [|Hne]; [discriminate|].
  intros _. exists m0, m1. split; [reflexivity|]. split; [exact Hne|].
  split; apply (alpha_upper_chars [m0; m1]); cbn; auto.
Qed.

Lemma PlugLead_init_Raise (m : str) (e : exn) :
  PlugLead_init m = Raise e -> e = ValueError.
Proof.
  unfold PlugLead_init.
  destruct (negb (isalpha m) || negb (isupper m)); [congruence|].
  destruct (strip m) as [|m0 [|m1 [|? ?]]]; try congruence.
  destruct (m0 =? m1); congruence.
Qed.

(** X1.  On ASCII strings, [PlugLead(mapping)] succeeds exactly on a string
    of two different upper-case letters; when it fails it raises
    [ValueError]; and it builds the same lead from 'AB' as from 'BA'. *)
Theorem PlugLead_init_unordered_pair :
  (forall m, Forall (fun c => 0 <= c < 128) m ->
             ((exists pl, PlugLead_init m = Ok pl) <->
              (exists a b, m = [a; b] /\ a <> b /\
                           c_isupper a = true /\ c_isupper b = true))) /\
  (forall m e, PlugLead_init m = Raise e -> e = ValueError) /\
  (forall a b, PlugLead_init [a; b] = PlugLead_init [b; a]).
Proof.
  split; [|split].
  - intros m _. split.
    + intros [pl H]. exact (PlugLead_init_Ok m pl H).
    + intros (a & b & -> & Hne & Ha & Hb). eexists.
      apply PlugLead_init_pair; assumption.
  - exact PlugLead_init_Raise.
  - intros a b.
    destruct (PlugLead_init [a; b]) as [pl|e] eqn:Hab.
    + destruct (PlugLead_init_Ok _ _ Hab) as (a' & b' & [= <- <-] & Hne & Ha & Hb).
      rewrite (PlugLead_init_pair a b Ha Hb Hne) in Hab.
      rewrite (PlugLead_init_pair b a Hb Ha (not_eq_sym Hne)).
      rewrite <- Hab, Z.min_comm, Z.max_comm. reflexivity.
    + destruct (PlugLead_init [b; a]) as [pl|e'] eqn:Hba.
      * destruct (PlugLead_init_Ok _ _ Hba)
          as (b' & a' & [= <- <-] & Hne & Hb & Ha).
        rewrite (PlugLead_init_pair a b Ha Hb (not_eq_sym Hne)) in Hab.
        discriminate.
      * rewrite (PlugLead_init_Raise _ _ Hab), (PlugLead_init_Raise _ _ Hba).
        reflexivity.
Qed.

(** X2.  A lead built from two letters sends each to the other, returns
    every other upper-case letter unchanged, and raises [ValueError] on an
    ASCII character that is not an upper-case letter. *)
Theorem PlugLead_encode_swaps (a b c : char) (pl : PlugLead) :
  PlugLead_init [a; b] = Ok pl ->
  PlugLead_encode pl a = Ok b /\
  PlugLead_encode pl b = Ok a /\
  (c_isupper c = true -> c <> a -> c <> b -> PlugLead_encode pl c = Ok c) /\
  (0 <= c < 128 -> c_isupper c = false ->
   PlugLead_encode pl c = Raise ValueError).
Proof.
  intros Hinit. pose proof (PlugLead_init_wf _ _ Hinit) as Hwf.
  destruct (PlugLead_init_Ok _ _ Hinit)
    as (a' & b' & [= <- <-] & Hne & Ha & Hb).
  rewrite (PlugLead_init_pair a b Ha Hb Hne) in Hinit.
  injection Hinit as <-.
  assert (Hswap : forall x, c_isupper x = true ->
            PlugLead_encode
              (mkPlugLead [Z.min a b; Z.max a b] (Z.min a b) (Z.max a b)) x
            = Ok (if x =? a then b else if x =? b then a else x)).
  { intros x Hx. rewrite (PlugLead_encode_wf _ x Hwf Hx).
    unfold partner, mem. cbn [pair first_letter last_letter set_mem].
    destruct (Z.eq_dec x (Z.min a b)) as [E1|E1];
      destruct (Z.eq_dec x (Z.max a b)) as [E2|E2];
      destruct (Z.eqb_spec x (Z.min a b)); try contradiction;
      destruct (Z.eqb_spec x a); destruct (Z.eqb_spec x b);
      f_equal; lia. }
  split; [|split; [|split]].
  - rewrite (Hswap a Ha), Z.eqb_refl. reflexivity.
  - rewrite (Hswap b Hb), Z.eqb_refl.
    destruct (Z.eqb_spec b a); congruence.
  - intros Hc Hca Hcb. rewrite (Hswap c Hc).
    destruct (Z.eqb_spec c a); [contradiction|].
    destruct (Z.eqb_spec c b); [contradiction|]. reflexivity.
  - intros _ Hc. unfold PlugLead_encode. rewrite Hc.
    rewrite orb_true_r. reflexivity.
Qed.

Lemma PlugLead_encode_swaps_witness :
  PlugLead_encode lead_KU (ord "K") = Ok (ord "U") /\
  PlugLead_encode lead_KU (ord "U") = Ok (ord "K") /\
  (c_isupper (ord "A") = true -> ord "A" <> ord "K" -> ord "A" <> ord "U" ->
   PlugLead_encode lead_KU (ord "A") = Ok (ord "A")) /\
  (0 <= ord "A" < 128 -> c_isupper (ord "A") = false ->
   PlugLead_encode lead_KU (ord "A") = Raise ValueError).
Proof.
  apply (PlugLead_encode_swaps (ord "K") (ord "U") (ord "A") lead_KU).
  reflexivity.
Defined.

(** X3.  [rewire] accepts a pair of equal letters, which [__init__]
    rejects: the call succeeds for every upper-case letter [a], and the lead
    then raises [StopIteration] when asked to encode [a]; the letters that
    [Plugboard.add] reads stay those of the first wiring. *)
Theorem PlugLead_rewire_same_letter (a : char) (self : PlugLead) :
  c_isupper a = true ->
  exists self',
    PlugLead_rewire [a; a] self = (Ok tt, self') /\
    PlugLead_init [a; a] = Raise ValueError /\
    PlugLead_encode self' a = Raise StopIteration /\
    first_letter self' = first_letter self /\
    last_letter self' = last_letter self.
Proof.
  intros Ha.
  assert (Halpha : isalpha [a; a] = true).
  { unfold isalpha. cbn. rewrite (upper_is_alpha a Ha). reflexivity. }
  assert (Hupper : isupper [a; a] = true).
  { unfold isupper. cbn. rewrite Ha. cbn.
    apply is_upper_range in Ha.
    assert (Hla : c_islower a = false)
      by (unfold c_islower; apply andb_false_iff; left; apply Z.leb_gt; lia).
    rewrite Hla. reflexivity. }
  eexists. unfold PlugLead_rewire, PlugLead_init.
  rewrite Halpha, Hupper. cbn [negb orb]. rewrite (strip_alpha _ Halpha).
  rewrite Z.eqb_refl.
  split; [reflexivity|]. split; [reflexivity|].
  split; [|split; reflexivity].
  unfold PlugLead_encode, mkpair, mem. cbn [pair].
  rewrite Ha, (upper_is_alpha a Ha), Z.eqb_refl. cbn [negb orb set_mem].
  destruct (Z.eq_dec a a); [|contradiction]. cbn [set_remove].
  destruct (Z.eq_dec a a); [|contradiction]. reflexivity.
Qed.

Lemma PlugLead_rewire_same_letter_witness :
  exists self',
    PlugLead_rewire (lit "AA") lead_KU = (Ok tt, self') /\
    PlugLead_init (lit "AA") = Raise ValueError /\
    PlugLead_encode self' (ord "A") = Raise StopIteration /\
    first_letter self' = ord "K" /\
    last_letter self' = ord "U".
Proof.
  apply (PlugLead_rewire_same_letter (ord "A") lead_KU). reflexivity.
Defined.

(** ** Plugboard *)

Lemma Plugboard_add_length (pl : PlugLead) (self : Plugboard) :
  (length (connections self) <= connection_limit)%nat ->
  (length (connections (snd (Plugboard_add pl self))) <= connection_limit)%nat.
Proof.
  intros Hle. unfold Plugboard_add.
  destruct (mem (first_letter pl) (occupied_letters self)
            && mem (last_letter pl) (occupied_letters self)); [exact Hle|].
  destruct (mem (first_letter pl) (occupied_letters self)); [exact Hle|].
  destruct (mem (last_letter pl) (occupied_letters self)); [exact Hle|].
  destruct (Nat.leb_spec connection_limit (length (connections self)))
    as [Hfull|Hroom]; [exact Hle|].
  cbn [snd connections]. unfold conn_add.
  destruct (conn_mem pl (connections self)); [exact Hle|].
  rewrite length_app. cbn. lia.
Qed.

Lemma Plugboard_add_all_length (leads : list str) (self : Plugboard) :
  (length (connections self) <= connection_limit)%nat ->
  (length (connections (snd (Plugboard_add_all leads self)))
   <= connection_limit)%nat.
Proof.
  revert self. induction leads as [|lead rest IH]; intros self Hle.
  - exact Hle.
  - cbn [Plugboard_add_all]. unfold bind, lift.
    destruct (PlugLead_init lead) as [pl|e]; [|exact Hle].
    pose proof (Plugboard_add_length pl self Hle) as Hadd.
    destruct (Plugboard_add pl self) as [[w|e] self1]; cbn [snd] in Hadd.
    + apply IH. exact Hadd.
    + exact Hadd.
Qed.

Lemma Plugboard_reachable_length (self : Plugboard) :
  Plugboard_reachable self ->
  (length (connections self) <= connection_limit)%nat.
Proof.
  induction 1 as [leads self Hinit | self m pl _ IH Hpl
                 | self m pl _ IH Hpl | self leads _ IH].
  - unfold Plugboard_init in Hinit. destruct leads as [ls|].
    + pose proof (Plugboard_add_all_length ls (mkPlugboard [] [])
                    ltac:(cbn; unfold connection_limit; lia)) as Hall.
      destruct (Plugboard_add_all ls (mkPlugboard [] [])) as [[u|e] self'];
        [|discriminate].
      injection Hinit as <-. exact Hall.
    + injection Hinit as <-. cbn. unfold connection_limit. lia.
  - apply Plugboard_add_length, IH.
  - unfold Plugboard_remove.
    destruct (conn_mem pl (connections self)); [|exact IH].
    cbn [snd connections]. unfold conn_remove.
    pose proof (filter_length_le
                  (fun q => negb (PlugLead_eqb pl q)) (connections self)).
    lia.
  - unfold Plugboard_reset. destruct leads as [ls|].
    + apply Plugboard_add_all_length. cbn. unfold connection_limit. lia.
    + cbn. unfold connection_limit. lia.
Qed.

Lemma free_letters_not_connected (self : Plugboard) (pl : PlugLead) :
  board_inv (connections self) (occupied_letters self) ->
  lead_wf pl ->
  mem (first_letter pl) (occupied_letters self) = false ->
  conn_mem pl (connections self) = false.
Proof.
  intros (_ & Hocc & _) Hwf Hfree.
  destruct (conn_mem pl (connections self)) eqn:Hm; [|reflexivity].
  apply conn_mem_true in Hm. destruct Hm as (q & Hq & Hpair).
  apply mem_not_In in Hfree. exfalso. apply Hfree.
  apply (Hocc q _ Hq). rewrite Hpair.
  apply (lead_wf_letters pl _ Hwf). auto.
Qed.

(** X4.  No board the class can produce holds more than ten leads: once ten
    are connected, adding a lead whose letters are free changes nothing and
    only issues the capacity warning. *)
Theorem Plugboard_capacity (self : Plugboard) (m : str) (pl : PlugLead) :
  Plugboard_reachable self ->
  (length (connections self) <= 10)%nat /\
  (PlugLead_init m = Ok pl ->
   length (connections self) = 10%nat ->
   mem (first_letter pl) (occupied_letters self) = false ->
   mem (last_letter pl) (occupied_letters self) = false ->
   Plugboard_add pl self = (Ok [LimitReached], self)).
Proof.
  intros Hreach. split; [exact (Plugboard_reachable_length self Hreach)|].
  intros Hpl Hfull Hf Hl.
  pose proof (free_letters_not_connected self pl
                (Plugboard_reachable_inv _ Hreach)
                (PlugLead_init_wf _ _ Hpl) Hf) as Hnew.
  unfold Plugboard_add. rewrite Hf, Hl, Hnew, Hfull. reflexivity.
Qed.

Lemma Plugboard_capacity_witness :
  (length (connections board_ten_leads) <= 10)%nat /\
  Plugboard_add lead_DG board_ten_leads = (Ok [LimitReached], board_ten_leads).
Proof.
  destruct (Plugboard_capacity board_ten_leads (lit "DG") lead_DG) as [H1 H2].
  - apply (reach_init (Some enigma_demo_leads)). reflexivity.
  - split; [exact H1|]. apply H2; reflexivity.
Defined.

(** X5.  Adding a lead of two free letters to a board with room connects
    it without a warning: afterwards [encode] sends each of the two letters
    to the other, and every other letter where it went before. *)
Theorem Plugboard_add_then_encode
    (self : Plugboard) (a b : char) (pl : PlugLead) :
  Plugboard_reachable self ->
  PlugLead_init [a; b] = Ok pl ->
  mem a (occupied_letters self) = false ->
  mem b (occupied_letters self) = false ->
  (length (connections self) < 10)%nat ->
  exists self',
    Plugboard_add pl self = (Ok [], self') /\
    Plugboard_encode self' a = Ok b /\
    Plugboard_encode self' b = Ok a /\
    (forall c, c_isupper c = true -> c <> a -> c <> b ->
               connections self <> [] ->
               Plugboard_encode self' c = Plugboard_encode self c).
Proof.
  intros Hreach Hpl Ha Hb Hroom.
  pose proof (PlugLead_init_wf _ _ Hpl) as Hwf.
  pose proof (Plugboard_reachable_inv _ Hreach) as Hinv.
  destruct (PlugLead_init_Ok _ _ Hpl) as (a' & b' & [= <- <-] & Hne & Hua & Hub).
  assert (Hletters : forall x, In x (pair pl) <-> x = a \/ x = b).
  { intros x. rewrite (PlugLead_init_pair a b Hua Hub Hne) in Hpl.
    injection Hpl as <-. cbn. lia. }
  assert (Hf : mem (first_letter pl) (occupied_letters self) = false).
  { destruct (proj1 (Hletters (first_letter pl))
                (proj2 (lead_wf_letters pl _ Hwf) (or_introl eq_refl)))
      as [-> | ->]; assumption. }
  assert (Hl : mem (last_letter pl) (occupied_letters self) = false).
  { destruct (proj1 (Hletters (last_letter pl))
                (proj2 (lead_wf_letters pl _ Hwf) (or_intror eq_refl)))
      as [-> | ->]; assumption. }
  pose proof (free_letters_not_connected self pl Hinv Hwf Hf) as Hnew.
  pose proof (Plugboard_reachable_inv _ (reach_add self _ pl Hreach Hpl))
    as Hinv'.
  unfold Plugboard_add in *. rewrite Hf, Hl, Hnew in *. cbn [andb] in *.
  destruct (Nat.leb_spec connection_limit (length (connections self)))
    as [Hfull|_]; [unfold connection_limit in Hfull; lia|].
  cbn [snd] in Hinv'. unfold conn_add in *. rewrite Hnew in *.
  eexists. split; [reflexivity|].
  set (conns' := connections self ++ [pl]) in *.
  set (occ' := set_union Z.eq_dec (occupied_letters self) (pair pl)) in *.
  cbn [connections occupied_letters] in Hinv'.
  assert (Hne' : conns' <> []) by (unfold conns'; destruct (connections self);
                                   discriminate).
  assert (Hin : In pl conns') by (apply in_or_app; right; left; reflexivity).
  assert (Hpa : partner pl a = b /\ partner pl b = a).
  { pose proof Hwf as (Hlt & Hp & _).
    pose proof (proj1 (Hletters (first_letter pl))
                  (proj2 (lead_wf_letters pl _ Hwf) (or_introl eq_refl))).
    pose proof (proj1 (Hletters (last_letter pl))
                  (proj2 (lead_wf_letters pl _ Hwf) (or_intror eq_refl))).
    unfold partner.
    destruct (Z.eqb_spec a (first_letter pl)),
      (Z.eqb_spec b (first_letter pl)); lia. }
  split; [|split].
  - destruct (Plugboard_encode_inv conns' occ' a Hinv' Hne' Hua) as [H _].
    rewrite (H pl Hin (proj2 (Hletters a) (or_introl eq_refl))).
    f_equal. apply Hpa.
  - destruct (Plugboard_encode_inv conns' occ' b Hinv' Hne' Hub) as [H _].
    rewrite (H pl Hin (proj2 (Hletters b) (or_intror eq_refl))).
    f_equal. apply Hpa.
  - intros c Hc Hca Hcb Hnonempty.
    destruct self as [conns occ]. cbn [connections occupied_letters] in *.
    destruct (Plugboard_encode_inv conns occ c Hinv Hnonempty Hc)
      as [Hold_in Hold_out].
    destruct (Plugboard_encode_inv conns' occ' c Hinv' Hne' Hc)
      as [Hnew_in Hnew_out].
    destruct (find (fun q => mem c (pair q)) conns) as [q|] eqn:Hfind.
    + apply find_some in Hfind. destruct Hfind as [Hq Hm].
      apply mem_In in Hm. rewrite (Hold_in q Hq Hm).
      apply Hnew_in; [apply in_or_app; left; exact Hq | exact Hm].
    + assert (Hnone : forall q, In q conns -> ~ In c (pair q)).
      { intros q Hq Hcq. apply mem_In in Hcq.
        rewrite (find_none _ _ Hfind q Hq) in Hcq. discriminate. }
      rewrite (Hold_out Hnone). apply Hnew_out.
      intros q Hq. apply in_app_or in Hq. destruct Hq as [Hq|[<-|[]]].
      * apply Hnone, Hq.
      * rewrite Hletters. lia.
Qed.

Lemma Plugboard_add_then_encode_witness :
  exists self',
    Plugboard_add lead_AB board_SZ_GT_DV_KU = (Ok [], self') /\
    Plugboard_encode self' (ord "A") = Ok (ord "B") /\
    Plugboard_encode self' (ord "B") = Ok (ord "A") /\
    (forall c, c_isupper c = true -> c <> ord "A" -> c <> ord "B" ->
               connections board_SZ_GT_DV_KU <> [] ->
               Plugboard_encode self' c
               = Plugboard_encode board_SZ_GT_DV_KU c).
Proof.
  apply (Plugboard_add_then_encode board_SZ_GT_DV_KU (ord "A") (ord "B")).
  - apply (reach_init (Some [lit "SZ"; lit "GT"; lit "DV"; lit "KU"])).
    reflexivity.
  - reflexivity.
  - reflexivity.
  - reflexivity.
  - cbn. lia.
Defined.

Lemma conn_mem_remove (pl : PlugLead) (conns : list PlugLead) :
  conn_mem pl (conn_remove pl conns) = false.
Proof.
  unfold conn_mem, conn_remove.
  destruct (existsb _ _) eqn:H; [|reflexivity].
  apply existsb_exists in H. destruct H as (q & Hq & He).
  apply filter_In in Hq. destruct Hq as [_ Hq]. rewrite He in Hq.
  discriminate.
Qed.

(** X6.  [remove] raises [ValueError] and changes nothing when the lead is
    not connected.  When it is, the lead is gone afterwards, and while
    another lead remains its two letters are encoded to themselves. *)
Theorem Plugboard_remove_then_encode
    (self : Plugboard) (a b : char) (pl : PlugLead) :
  Plugboard_reachable self ->
  PlugLead_init [a; b] = Ok pl ->
  (conn_mem pl (connections self) = false ->
   Plugboard_remove pl self = (Raise ValueError, self)) /\
  (conn_mem pl (connections self) = true ->
   exists self',
     Plugboard_remove pl self = (Ok tt, self') /\
     conn_mem pl (connections self') = false /\
     (connections self' <> [] ->
      Plugboard_encode self' a = Ok a /\ Plugboard_encode self' b = Ok b)).
Proof.
  intros Hreach Hpl. unfold Plugboard_remove. split; intros Hm; rewrite Hm.
  - reflexivity.
  - eexists. split; [reflexivity|]. cbn [connections].
    split; [apply conn_mem_remove|]. intros Hne.
    pose proof (Plugboard_reachable_inv _ Hreach) as Hinv.
    pose proof (board_inv_filter (fun q => negb (PlugLead_eqb pl q)) _ _ Hinv)
      as Hinv'.
    destruct (PlugLead_init_Ok _ _ Hpl)
      as (a' & b' & [= <- <-] & Hab & Hua & Hub).
    assert (Hletters : forall x, In x (pair pl) <-> x = a \/ x = b).
    { intros x. rewrite (PlugLead_init_pair a b Hua Hub Hab) in Hpl.
      injection Hpl as <-. cbn. lia. }
    apply conn_mem_true in Hm. destruct Hm as (q0 & Hq0 & Hpair).
    destruct Hinv as (_ & _ & Huniq).
    assert (Hgone : forall x, In x (pair pl) ->
              forall q, In q (conn_remove pl (connections self)) ->
                        ~ In x (pair q)).
    { intros x Hx q Hq Hxq. unfold conn_remove in Hq.
      apply filter_In in Hq. destruct Hq as [Hq Hneq].
      rewrite <- Hpair in Hx.
      rewrite (Huniq q q0 x Hq Hq0 Hxq Hx) in Hneq.
      unfold PlugLead_eqb in Hneq. rewrite Hpair in Hneq.
      rewrite (proj2 (str_eqb_eq _ _) eq_refl) in Hneq. discriminate. }
    split.
    + apply (Plugboard_encode_inv _ _ a Hinv' Hne Hua).
      apply Hgone, Hletters. auto.
    + apply (Plugboard_encode_inv _ _ b Hinv' Hne Hub).
      apply Hgone, Hletters. auto.
Qed.

Lemma Plugboard_remove_then_encode_witness :
  Plugboard_remove lead_AB board_SZ_GT_DV_KU
  = (Raise ValueError, board_SZ_GT_DV_KU) /\
  exists self',
    Plugboard_remove lead_SZ board_SZ_GT_DV_KU = (Ok tt, self') /\
    conn_mem lead_SZ (connections self') = false /\
    (connections self' <> [] ->
     Plugboard_encode self' (ord "S") = Ok (ord "S") /\
     Plugboard_encode self' (ord "Z") = Ok (ord "Z")).
Proof.
  split.
  - apply (proj1 (Plugboard_remove_then_encode board_SZ_GT_DV_KU
                    (ord "A") (ord "B") lead_AB
                    (reach_init
                       (Some [lit "SZ"; lit "GT"; lit "DV"; lit "KU"])
                       _ eq_refl) eq_refl)).
    reflexivity.
  - apply (proj2 (Plugboard_remove_then_encode board_SZ_GT_DV_KU
                    (ord "S") (ord "Z") lead_SZ
                    (reach_init
                       (Some [lit "SZ"; lit "GT"; lit "DV"; lit "KU"])
                       _ eq_refl) eq_refl)).
    reflexivity.
Defined.

(** X7.  On a board with at least one lead, [encode] is its own inverse on
    the alphabet: encoding the result of an encoding gives the symbol
    back. *)
Theorem Plugboard_encode_twice (self : Plugboard) (s : char) :
  Plugboard_reachable self ->
  connections self <> [] ->
  c_isupper s = true ->
  exists t, Plugboard_encode self s = Ok t /\
            c_isupper t = true /\
            Plugboard_encode self t = Ok s.
Proof.
  intros Hreach Hne Hs.
  apply Plugboard_encode_involutive; auto.
  exact (Plugboard_reachable_inv _ Hreach).
Qed.

Lemma Plugboard_encode_twice_witness :
  exists t, Plugboard_encode board_SZ_GT_DV_KU (ord "T") = Ok t /\
            c_isupper t = true /\
            Plugboard_encode board_SZ_GT_DV_KU t = Ok (ord "T").
Proof.
  apply (Plugboard_encode_twice board_SZ_GT_DV_KU (ord "T")).
  - apply (reach_init (Some [lit "SZ"; lit "GT"; lit "DV"; lit "KU"])).
    reflexivity.
  - discriminate.
  - reflexivity.
Defined.

Lemma Plugboard_encode_loop_not_upper (conns : list PlugLead) (i n : nat)
    (s : char) :
  (forall q, In q conns -> lead_wf q) ->
  c_isupper s = false ->
  Plugboard_encode_loop conns i n s = Raise ValueError.
Proof.
  intros Hwf Hs. revert i.
  induction conns as [|pl rest IH]; intros i; cbn [Plugboard_encode_loop];
    [reflexivity|].
  assert (Hnot : mem s (pair pl) = false).
  { apply mem_not_In. intros Hin.
    pose proof (Hwf pl (in_eq _ _)) as Hpl.
    pose proof Hpl as (_ & _ & Hf & Hl).
    apply (lead_wf_letters pl s Hpl) in Hin.
    destruct Hin as [-> | ->]; congruence. }
  rewrite Hnot. cbn [orb].
  assert (Henc : PlugLead_encode pl s = Raise ValueError).
  { unfold PlugLead_encode. rewrite Hs, orb_true_r. reflexivity. }
  destruct (Nat.eqb (S i) n); [exact Henc|].
  apply IH. intros q Hq. apply Hwf. right. exact Hq.
Qed.

(** X8.  On every board the class can produce, with or without leads,
    [encode] raises [ValueError] for an ASCII character that is not an
    upper-case letter. *)
Theorem Plugboard_encode_rejects_non_letters (self : Plugboard) (s : char) :
  Plugboard_reachable self ->
  0 <= s < 128 ->
  c_isupper s = false ->
  Plugboard_encode self s = Raise ValueError.
Proof.
  intros Hreach _ Hs.
  pose proof (Plugboard_reachable_inv _ Hreach) as (Hwf & _).
  apply Plugboard_encode_loop_not_upper; assumption.
Qed.

Lemma Plugboard_encode_rejects_non_letters_witness :
  Plugboard_encode board_SZ_GT_DV_KU (ord "s") = Raise ValueError.
Proof.
  apply (Plugboard_encode_rejects_non_letters board_SZ_GT_DV_KU (ord "s")).
  - apply (reach_init (Some [lit "SZ"; lit "GT"; lit "DV"; lit "KU"])).
    reflexivity.
  - cbn. lia.
  - reflexivity.
Defined.

(** ** Rotor *)

Lemma set_position_twice (p q : char) (r : Rotor) :
  set_position p (set_position q r) = set_position p r.
Proof. reflexivity. Qed.

Lemma set_position_same (r : Rotor) : set_position (position r) r = r.
Proof. destruct r; reflexivity. Qed.

Lemma advance_position_iter (r : Rotor) (n : nat) :
  c_isupper (position r) = true ->
  Nat.iter n advance_position r
  = set_position (65 + (position r - 65 + Z.of_nat n) mod 26) r.
Proof.
  intros Hp. apply is_upper_range in Hp.
  induction n as [|n IH].
  - change (Nat.iter 0 advance_position r) with r.
    rewrite Z.add_0_r, mod26_small by lia.
    replace (65 + (position r - 65)) with (position r) by lia.
    symmetry. apply set_position_same.
  - change (Nat.iter (S n) advance_position r)
      with (advance_position (Nat.iter n advance_position r)).
    rewrite IH. unfold advance_position.
    cbn [position set_position]. change (ord "Z") with 90.
    change (ord "A") with 65.
    pose proof (Z.mod_pos_bound (position r - 65 + Z.of_nat n) 26
                  ltac:(lia)) as Hk.
    assert (Hnext : (position r - 65 + Z.of_nat (S n)) mod 26
                    = ((position r - 65 + Z.of_nat n) mod 26 + 1) mod 26).
    { rewrite Zplus_mod_idemp_l. f_equal. lia. }
    rewrite Hnext.
    set (k := (position r - 65 + Z.of_nat n) mod 26) in *.
    destruct (Z.eqb_spec (65 + k) 90) as [He|He];
      rewrite ?set_position_twice; f_equal.
    + replace k with 25 by lia. reflexivity.
    + rewrite (mod26_small (k + 1)) by lia. lia.
Qed.

(** X9.  Starting from an upper-case letter, [advance_position] keeps the
    position an upper-case letter, changes nothing else, and brings the
    rotor back to where it started after 26 calls. *)
Theorem advance_position_period (r : Rotor) :
  c_isupper (position r) = true ->
  (forall n, c_isupper (position (Nat.iter n advance_position r)) = true) /\
  (forall n, Nat.iter n advance_position r
             = set_position (position (Nat.iter n advance_position r)) r) /\
  Nat.iter 26 advance_position r = r.
Proof.
  intros Hp. split; [|split].
  - intros n. rewrite (advance_position_iter r n Hp). cbn [position].
    rewrite Z.add_comm. apply mod26_is_upper.
  - intros n. rewrite (advance_position_iter r n Hp). reflexivity.
  - rewrite (advance_position_iter r 26 Hp).
    apply is_upper_range in Hp.
    replace (position r - 65 + Z.of_nat 26)
      with (position r - 65 + 1 * 26) by lia.
    rewrite Z.mod_add, mod26_small by lia.
    replace (65 + (position r - 65)) with (position r) by lia.
    apply set_position_same.
Qed.

Lemma advance_position_period_witness :
  (forall n, c_isupper
               (position (Nat.iter n advance_position (rotor_at "I" "Y")))
             = true) /\
  (forall n, Nat.iter n advance_position (rotor_at "I" "Y")
             = set_position
                 (position (Nat.iter n advance_position (rotor_at "I" "Y")))
                 (rotor_at "I" "Y")) /\
  Nat.iter 26 advance_position (rotor_at "I" "Y") = rotor_at "I" "Y".
Proof.
  apply (advance_position_period (rotor_at "I" "Y")). reflexivity.
Defined.

(** X10.  On a rotor whose wiring is a permutation of the alphabet, with
    any ring and position, [encode_offset_ltr] undoes [encode_offset_rtl]
    and [encode_offset_rtl] undoes [encode_offset_ltr], and neither
    raises. *)
Theorem rotor_offset_transforms_inverse (r : Rotor) (c : char) :
  Permutation abc (mapping r) ->
  c_isupper c = true ->
  (exists d, encode_offset_rtl r c = Ok d /\ c_isupper d = true /\
             encode_offset_ltr r d = Ok c) /\
  (exists d, encode_offset_ltr r c = Ok d /\ c_isupper d = true /\
             encode_offset_rtl r d = Ok c).
Proof.
  intros Hperm Hc. split.
  - destruct (encode_offset_rtl_value r c (perm_length _ Hperm))
      as (y & _ & Hval).
    cbv zeta in Hval.
    destruct (rotor_ltr_after_rtl r c _ Hperm Hc Hval) as [Hu Hback].
    eexists. split; [exact Hval|]. split; [exact Hu | exact Hback].
  - exact (rotor_rtl_after_ltr r c Hperm Hc).
Qed.

Lemma rotor_offset_transforms_inverse_witness :
  (exists d, encode_offset_rtl (set_ring 7 (rotor_at "IV" "Q")) (ord "J")
             = Ok d /\ c_isupper d = true /\
             encode_offset_ltr (set_ring 7 (rotor_at "IV" "Q")) d
             = Ok (ord "J")) /\
  (exists d, encode_offset_ltr (set_ring 7 (rotor_at "IV" "Q")) (ord "J")
             = Ok d /\ c_isupper d = true /\
             encode_offset_rtl (set_ring 7 (rotor_at "IV" "Q")) d
             = Ok (ord "J")).
Proof.
  apply (rotor_offset_transforms_inverse
           (set_ring 7 (rotor_at "IV" "Q")) (ord "J")).
  - apply permutationb_Permutation. reflexivity.
  - reflexivity.
Defined.

(** ** ring_settings and position_settings *)

Lemma update_app_middle {A} (pre post : list A) (r r' : A) :
  update (pre ++ r :: post) (length pre) r' = pre ++ r' :: post.
Proof.
  induction pre as [|x pre IH]; cbn; [reflexivity | f_equal; exact IH].
Qed.

Lemma nth_error_app_middle {A} (pre post : list A) (r : A) :
  nth_error (pre ++ r :: post) (length pre) = Some r.
Proof.
  induction pre as [|x pre IH]; cbn; [reflexivity | exact IH].
Qed.

(** The loop of [ring_settings] stops at the first ring out of range, with
    the rings before it already written. *)
Lemma ring_settings_loop_general (rings : list Z) :
  forall (i : nat) (pre post : list Rotor),
    length pre = S i -> (length rings <= length post)%nat ->
    ring_settings_loop i rings (pre ++ post)
    = ((if Nat.eqb (length (valid_prefix ring_valid rings)) (length rings)
        then Ok tt else Raise ValueError),
       pre ++ assign set_ring (valid_prefix ring_valid rings) post).
Proof.
  induction rings as [|x rings IH]; intros i pre post Hpre Hlen.
  - reflexivity.
  - cbn [ring_settings_loop valid_prefix]. unfold ring_valid at 1 3.
    destruct ((x <? 1) || (x >? 26)); cbn [negb]; [reflexivity|].
    destruct post as [|r post]; [cbn in Hlen; lia|].
    rewrite <- Hpre, nth_error_app_middle, update_app_middle.
    replace (pre ++ set_ring x r :: post)
      with ((pre ++ [set_ring x r]) ++ post)
      by (rewrite <- app_assoc; reflexivity).
    rewrite (IH (length pre) (pre ++ [set_ring x r]) post).
    + cbn [length assign]. rewrite <- app_assoc. reflexivity.
    + rewrite length_app. cbn. lia.
    + cbn in Hlen. lia.
Qed.

Lemma position_settings_loop_general (positions : list char) :
  forall (i : nat) (pre post : list Rotor),
    length pre = S i -> (length positions <= length post)%nat ->
    position_settings_loop i positions (pre ++ post)
    = ((if Nat.eqb (length (valid_prefix position_valid positions))
                   (length positions)
        then Ok tt else Raise ValueError),
       pre ++ assign set_position (valid_prefix position_valid positions)
                post).
Proof.
  induction positions as [|x positions IH]; intros i pre post Hpre Hlen.
  - reflexivity.
  - cbn [position_settings_loop valid_prefix]. unfold position_valid at 1 3.
    destruct (negb (c_isalpha x) || negb (c_isupper x)); cbn [negb];
      [reflexivity|].
    destruct post as [|r post]; [cbn in Hlen; lia|].
    rewrite <- Hpre, nth_error_app_middle, update_app_middle.
    replace (pre ++ set_position x r :: post)
      with ((pre ++ [set_position x r]) ++ post)
      by (rewrite <- app_assoc; reflexivity).
    rewrite (IH (length pre) (pre ++ [set_position x r]) post).
    + cbn [length assign]. rewrite <- app_assoc. reflexivity.
    + rewrite length_app. cbn. lia.
    + cbn in Hlen. lia.
Qed.

Lemma valid_prefix_all {A} (ok : A -> bool) (l : list A) :
  forallb ok l = true -> valid_prefix ok l = l.
Proof.
  induction l as [|x l IH]; cbn; [reflexivity|].
  destruct (ok x); cbn; [|discriminate]. intros H. f_equal. exact (IH H).
Qed.

Lemma valid_prefix_stop {A} (ok : A -> bool) (good rest : list A) (bad : A) :
  forallb ok good = true -> ok bad = false ->
  valid_prefix ok (good ++ bad :: rest) = good.
Proof.
  intros Hgood Hbad. induction good as [|x good IH]; cbn in *.
  - rewrite Hbad. reflexivity.
  - destruct (ok x); cbn in *; [|discriminate]. f_equal. exact (IH Hgood).
Qed.

Lemma assign_ring_fields (xs : list Z) (rs : list Rotor) :
  (length xs <= length rs)%nat ->
  map ring (assign set_ring xs rs) = xs ++ skipn (length xs) (map ring rs) /\
  map position (assign set_ring xs rs) = map position rs /\
  map mapping (assign set_ring xs rs) = map mapping rs /\
  map notch (assign set_ring xs rs) = map notch rs.
Proof.
  revert rs. induction xs as [|x xs IH]; intros rs Hlen.
  - cbn. auto.
  - destruct rs as [|r rs]; [cbn in Hlen; lia|].
    cbn [assign map length skipn app].
    destruct (IH rs ltac:(cbn in Hlen; lia)) as (H1 & H2 & H3 & H4).
    rewrite H1, H2, H3, H4. auto.
Qed.

Lemma assign_position_fields (xs : list char) (rs : list Rotor) :
  (length xs <= length rs)%nat ->
  map position (assign set_position xs rs)
  = xs ++ skipn (length xs) (map position rs) /\
  map ring (assign set_position xs rs) = map ring rs /\
  map mapping (assign set_position xs rs) = map mapping rs /\
  map notch (assign set_position xs rs) = map notch rs.
Proof.
  revert rs. induction xs as [|x xs IH]; intros rs Hlen.
  - cbn. auto.
  - destruct rs as [|r rs]; [cbn in Hlen; lia|].
    cbn [assign map length skipn app].
    destruct (IH rs ltac:(cbn in Hlen; lia)) as (H1 & H2 & H3 & H4).
    rewrite H1, H2, H3, H4. auto.
Qed.

Lemma ring_valid_range (x : Z) : ring_valid x = true <-> 1 <= x <= 26.
Proof.
  unfold ring_valid. rewrite negb_true_iff, orb_false_iff, Z.ltb_ge.
  rewrite Z.gtb_ltb, Z.ltb_ge. tauto.
Qed.

Lemma ring_valid_Forall (rings : list Z) :
  Forall (fun x => 1 <= x <= 26) rings -> forallb ring_valid rings = true.
Proof.
  intros H. apply forallb_forall. rewrite Forall_forall in H.
  intros x Hx. apply ring_valid_range, H, Hx.
Qed.

Lemma position_valid_upper (p : char) :
  position_valid p = true <-> c_isupper p = true.
Proof.
  unfold position_valid, c_isalpha.
  destruct (c_isupper p), (c_islower p); cbn; split; congruence.
Qed.

Lemma position_valid_Forall (positions : list char) :
  Forall (fun p => c_isupper p = true) positions ->
  forallb position_valid positions = true.
Proof.
  intros H. apply forallb_forall. rewrite Forall_forall in H.
  intros x Hx. apply position_valid_upper, H, Hx.
Qed.

(** [ring_settings] on a machine with its reflector and [post] behind it. *)
Lemma ring_settings_run (rings : list Z) (r0 : Rotor) (post : list Rotor) :
  length rings = length post ->
  ring_settings rings (r0 :: post)
  = ((if Nat.eqb (length (valid_prefix ring_valid rings)) (length rings)
      then Ok tt else Raise ValueError),
     r0 :: assign set_ring (valid_prefix ring_valid rings) post).
Proof.
  intros Hlen. unfold ring_settings. cbn [length].
  replace (Z.of_nat (length rings) =? Z.of_nat (S (length post)) - 1)
    with true by (symmetry; apply Z.eqb_eq; lia).
  cbn [negb].
  apply (ring_settings_loop_general rings 0 [r0] post); [reflexivity | lia].
Qed.

Lemma position_settings_run (positions : list char) (r0 : Rotor)
    (post : list Rotor) :
  length positions = length post ->
  position_settings positions (r0 :: post)
  = ((if Nat.eqb (length (valid_prefix position_valid positions))
                 (length positions)
      then Ok tt else Raise ValueError),
     r0 :: assign set_position (valid_prefix position_valid positions)
             post).
Proof.
  intros Hlen. unfold position_settings. cbn [length].
  replace (Z.of_nat (length positions) =? Z.of_nat (S (length post)) - 1)
    with true by (symmetry; apply Z.eqb_eq; lia).
  cbn [negb].
  apply (position_settings_loop_general positions 0 [r0] post);
    [reflexivity | lia].
Qed.

(** X11.  [ring_settings] with one ring in 1..26 for each rotor behind the
    reflector succeeds: [get_rings()] is then the reflector's ring followed
    by the list given, and positions, wirings and plugboard are as before.
    [get_rings()] has one entry more than [ring_settings] takes, so feeding
    it back raises [ValueError]. *)
Theorem Enigma_ring_settings_get_rings
    (self : Enigma) (r0 : Rotor) (post : list Rotor) (rings : list Z) :
  rotors (ce self) = r0 :: post ->
  length rings = length post ->
  Forall (fun x => 1 <= x <= 26) rings ->
  exists self',
    Enigma_ring_settings rings self = (Ok tt, self') /\
    Enigma_get_rings self' = ring r0 :: rings /\
    Enigma_get_positions self' = Enigma_get_positions self /\
    map mapping (rotors (ce self')) = map mapping (rotors (ce self)) /\
    pb self' = pb self /\
    Enigma_ring_settings (Enigma_get_rings self') self'
    = (Raise ValueError, self').
Proof.
  intros Hrs Hlen Hvalid. apply ring_valid_Forall in Hvalid.
  destruct self as [[rs rl pl] p]. cbn [ce rotors] in Hrs. subst rs.
  unfold Enigma_ring_settings, on_ce, Commercial_enigma_ring_settings,
    on_rotors, Enigma_get_rings, Enigma_get_positions, set_rotors.
  cbn [ce pb rotors ring_length position_length].
  rewrite (ring_settings_run rings r0 post Hlen).
  rewrite (valid_prefix_all _ _ Hvalid), Nat.eqb_refl.
  destruct (assign_ring_fields rings post ltac:(lia)) as (H1 & H2 & H3 & _).
  eexists. split; [reflexivity|]. cbn [ce pb rotors map].
  rewrite H1, H2, H3, Hlen.
  rewrite <- (length_map ring post), skipn_all, app_nil_r.
  split; [reflexivity|]. split; [reflexivity|]. split; [reflexivity|].
  split; [reflexivity|].
  assert (Hsame : length (assign set_ring rings post) = length post).
  { rewrite <- (length_map mapping), H3, length_map. reflexivity. }
  unfold ring_settings. cbn [length].
  match goal with
  | |- context [negb (?a =? ?b)] => destruct (Z.eqb_spec a b) as [E|E]
  end; [exfalso | reflexivity].
  rewrite Hsame in E. lia.
Qed.

Lemma Enigma_ring_settings_get_rings_witness :
  exists self',
    Enigma_ring_settings [7; 11; 15; 19] enigma_demo = (Ok tt, self') /\
    Enigma_get_rings self' = [1; 7; 11; 15; 19] /\
    Enigma_get_positions self' = Enigma_get_positions enigma_demo /\
    map mapping (rotors (ce self')) = map mapping (rotors (ce enigma_demo))
    /\ pb self' = pb enigma_demo /\
    Enigma_ring_settings (Enigma_get_rings self') self'
    = (Raise ValueError, self').
Proof.
  apply (Enigma_ring_settings_get_rings enigma_demo
           (hd (rotor_at "A" "A") (rotors (ce enigma_demo)))
           (tl (rotors (ce enigma_demo))) [7; 11; 15; 19]).
  - reflexivity.
  - reflexivity.
  - repeat constructor; cbn; lia.
Defined.

(** X12.  [ring_settings] does not validate before it writes: when the
    list has the right length and its first ring out of range comes after
    [good], the call raises [ValueError] with the rings of [good] already
    set on the first rotors.  A list of the wrong length is rejected with
    nothing changed. *)
Theorem Enigma_ring_settings_partial
    (self : Enigma) (r0 : Rotor) (post : list Rotor)
    (good rest : list Z) (bad : Z) (rings : list Z) :
  rotors (ce self) = r0 :: post ->
  (length rings <> length post ->
   Enigma_ring_settings rings self = (Raise ValueError, self)) /\
  (length (good ++ bad :: rest) = length post ->
   Forall (fun x => 1 <= x <= 26) good ->
   bad < 1 \/ 26 < bad ->
   exists self',
     Enigma_ring_settings (good ++ bad :: rest) self
     = (Raise ValueError, self') /\
     Enigma_get_rings self'
     = ring r0 :: good ++ skipn (length good) (map ring post)).
Proof.
  intros Hrs. destruct self as [[rs rl pl] p]. cbn [ce rotors] in Hrs.
  subst rs.
  unfold Enigma_ring_settings, on_ce, Commercial_enigma_ring_settings,
    on_rotors, Enigma_get_rings, set_rotors.
  cbn [ce pb rotors ring_length position_length]. split.
  - intros Hlen. unfold ring_settings. cbn [length].
    replace (Z.of_nat (length rings) =? Z.of_nat (S (length post)) - 1)
      with false by (symmetry; apply Z.eqb_neq; lia).
    reflexivity.
  - intros Hlen Hgood Hbad. apply ring_valid_Forall in Hgood.
    assert (Hb : ring_valid bad = false).
    { destruct (ring_valid bad) eqn:E; [|reflexivity].
      apply ring_valid_range in E. lia. }
    rewrite (ring_settings_run _ r0 post Hlen).
    rewrite (valid_prefix_stop _ good rest bad Hgood Hb).
    replace (Nat.eqb (length good) (length (good ++ bad :: rest)))
      with false
      by (symmetry; apply Nat.eqb_neq; rewrite length_app; cbn; lia).
    eexists. split; [reflexivity|]. cbn [ce rotors map].
    rewrite length_app in Hlen. cbn in Hlen.
    destruct (assign_ring_fields good post ltac:(lia)) as (H1 & _).
    rewrite H1. reflexivity.
Qed.

Lemma Enigma_ring_settings_partial_witness :
  Enigma_ring_settings [7; 11] enigma_demo = (Raise ValueError, enigma_demo)
  /\
  exists self',
    Enigma_ring_settings ([7; 11] ++ 99 :: [19]) enigma_demo
    = (Raise ValueError, self') /\
    Enigma_get_rings self' = [1; 7; 11; 3; 5].
Proof.
  destruct (Enigma_ring_settings_partial enigma_demo
              (hd (rotor_at "A" "A") (rotors (ce enigma_demo)))
              (tl (rotors (ce enigma_demo))) [7; 11] [19] 99 [7; 11]
              eq_refl) as [H1 H2].
  split.
  - apply H1. cbn. lia.
  - apply H2.
    + reflexivity.
    + repeat constructor; cbn; lia.
    + lia.
Defined.

(** X13.  [position_settings] behaves the same way: with one upper-case
    letter for each rotor behind the reflector it sets exactly those
    positions, and when an ASCII character that is not an upper-case letter
    comes after [good], it raises [ValueError] with the positions of [good]
    already set. *)
Theorem Enigma_position_settings_get_positions
    (self : Enigma) (r0 : Rotor) (post : list Rotor)
    (positions good rest : list char) (bad : char) :
  rotors (ce self) = r0 :: post ->
  (length positions = length post ->
   Forall (fun p => c_isupper p = true) positions ->
   exists self',
     Enigma_position_settings positions self = (Ok tt, self') /\
     Enigma_get_positions self' = position r0 :: positions /\
     Enigma_get_rings self' = Enigma_get_rings self) /\
  (length (good ++ bad :: rest) = length post ->
   Forall (fun p => c_isupper p = true) good ->
   0 <= bad < 128 ->
   c_isupper bad = false ->
   exists self',
     Enigma_position_settings (good ++ bad :: rest) self
     = (Raise ValueError, self') /\
     Enigma_get_positions self'
     = position r0 :: good ++ skipn (length good) (map position post)).
Proof.
  intros Hrs. destruct self as [[rs rl pl] p]. cbn [ce rotors] in Hrs.
  subst rs.
  unfold Enigma_position_settings, on_ce,
    Commercial_enigma_position_settings, on_rotors, Enigma_get_rings,
    Enigma_get_positions, set_rotors.
  cbn [ce pb rotors ring_length position_length]. split.
  - intros Hlen Hvalid. apply position_valid_Forall in Hvalid.
    rewrite (position_settings_run positions r0 post Hlen).
    rewrite (valid_prefix_all _ _ Hvalid), Nat.eqb_refl.
    destruct (assign_position_fields positions post ltac:(lia))
      as (H1 & H2 & _).
    eexists. split; [reflexivity|]. cbn [ce rotors map].
    rewrite H1, H2, Hlen.
    rewrite <- (length_map position post), skipn_all, app_nil_r. auto.
  - intros Hlen Hgood _ Hbad. apply position_valid_Forall in Hgood.
    assert (Hb : position_valid bad = false).
    { destruct (position_valid bad) eqn:E; [|reflexivity].
      apply position_valid_upper in E. congruence. }
    rewrite (position_settings_run _ r0 post Hlen).
    rewrite (valid_prefix_stop _ good rest bad Hgood Hb).
    replace (Nat.eqb (length good) (length (good ++ bad :: rest)))
      with false
      by (symmetry; apply Nat.eqb_neq; rewrite length_app; cbn; lia).
    eexists. split; [reflexivity|]. cbn [ce rotors map].
    rewrite length_app in Hlen. cbn in Hlen.
    destruct (assign_position_fields good post ltac:(lia)) as (H1 & _).
    rewrite H1. reflexivity.
Qed.

Lemma Enigma_position_settings_get_positions_witness :
  (exists self',
      Enigma_position_settings (lit "QEVZ") enigma_demo = (Ok tt, self') /\
      Enigma_get_positions self' = lit "AQEVZ" /\
      Enigma_get_rings self' = Enigma_get_rings enigma_demo) /\
  (exists self',
      Enigma_position_settings (lit "QE" ++ ord "v" :: lit "Z") enigma_demo
      = (Raise ValueError, self') /\
      Enigma_get_positions self' = lit "AQEGP").
Proof.
  destruct (Enigma_position_settings_get_positions enigma_demo
              (hd (rotor_at "A" "A") (rotors (ce enigma_demo)))
              (tl (rotors (ce enigma_demo)))
              (lit "QEVZ") (lit "QE") (lit "Z") (ord "v") eq_refl)
    as [H1 H2].
  split.
  - apply H1; [reflexivity | repeat constructor].
  - apply H2; [reflexivity | repeat constructor | cbn; lia | reflexivity].
Defined.

(** ** Commercial_enigma: what the constructor returns *)

Lemma valid_prefix_full {A} (ok : A -> bool) (l : list A) :
  Nat.eqb (length (valid_prefix ok l)) (length l) = true ->
  valid_prefix ok l = l /\ forallb ok l = true.
Proof.
  induction l as [|x l IH]; cbn; [auto|].
  destruct (ok x); cbn; [|discriminate].
  intros H. destruct (IH H) as [-> ->]. auto.
Qed.

Lemma assign_length {A} (set : A -> Rotor -> Rotor) (xs : list A)
    (rs : list Rotor) :
  length (assign set xs rs) = length rs.
Proof.
  revert rs. induction xs as [|x xs IH]; intros [|r rs]; cbn; auto.
Qed.

Lemma assign_is_reflector {A} (set : A -> Rotor -> Rotor) (xs : list A)
    (rs : list Rotor) :
  (forall x r, is_reflector (set x r) = is_reflector r) ->
  map is_reflector (assign set xs rs) = map is_reflector rs.
Proof.
  intros Hset. revert rs.
  induction xs as [|x xs IH]; intros [|r rs]; cbn; auto.
  rewrite Hset, IH. reflexivity.
Qed.

Lemma Rotor_init_fields (rt : rotor_type) (rg : Z) (p : char) (r : Rotor) :
  Rotor_init rt rg p = Ok r ->
  ring r = rg /\ position r = p /\ 1 <= rg <= 26 /\ c_isupper p = true.
Proof.
  unfold Rotor_init.
  destruct ((rg <? 1) || (rg >? 26)) eqn:Hrg; [discriminate|].
  destruct (negb (c_isalpha p) || negb (c_isupper p)) eqn:Hp;
    [discriminate|].
  intros H.
  assert (Hfields : ring r = rg /\ position r = p).
  { destruct rt as [s | w n | w].
    - destruct (named_rotor s) as [[[m n] b]|]; [|discriminate].
      injection H as <-. auto.
    - destruct (Nat.eqb (length w) 26 && _ && isalpha n && isupper n
                && Nat.eqb (length n) 1); [|discriminate].
      injection H as <-. auto.
    - destruct (Nat.eqb (length w) 26); [|discriminate].
      injection H as <-. auto. }
  destruct Hfields as [H1 H2]. split; [exact H1|]. split; [exact H2|].
  split.
  - apply ring_valid_range. unfold ring_valid. rewrite Hrg. reflexivity.
  - apply position_valid_upper. unfold position_valid. rewrite Hp.
    reflexivity.
Qed.

Lemma named_reflector_notch (s : string) m n :
  named_rotor s = Some (m, n, true) -> n = None.
Proof.
  unfold named_rotor.
  repeat match goal with
         | |- context [String.eqb s ?k] => destruct (String.eqb s k)
         end; intros [= <- <-]; try reflexivity; discriminate.
Qed.

Lemma reflector_flag_notch (rt : rotor_type) (rg : Z) (p : char)
    (r : Rotor) :
  Rotor_init rt rg p = Ok r -> is_reflector r = true -> notch r = None.
Proof.
  intros Hinit Hrefl. apply Rotor_init_cases in Hinit.
  destruct rt as [s | w n | w].
  - rewrite Hrefl in Hinit. exact (named_reflector_notch s _ _ Hinit).
  - destruct Hinit as [_ H]. congruence.
  - destruct Hinit as [_ H]. congruence.
Qed.

Lemma set_is_reflector_true (r : Rotor) :
  is_reflector r = true -> set_is_reflector true r = r.
Proof. destruct r; cbn. intros ->. reflexivity. Qed.

Lemma opt_ring_settings_shape (rings : option (list Z)) (r0 : Rotor)
    (post : list Rotor) (rs : list Rotor) :
  opt_apply ring_settings rings (r0 :: post) = Ok rs ->
  exists l, rs = r0 :: assign set_ring l post /\
            forallb ring_valid l = true /\
            (length l <= length post)%nat /\
            (forall l', rings = Some l' -> l' = l /\ length l = length post).
Proof.
  unfold opt_apply. destruct rings as [l|].
  - destruct (Nat.eq_dec (length l) (length post)) as [Hlen|Hlen].
    + rewrite (ring_settings_run l r0 post Hlen).
      destruct (Nat.eqb (length (valid_prefix ring_valid l)) (length l))
        eqn:Hfull; [|discriminate].
      destruct (valid_prefix_full _ _ Hfull) as [-> Hall].
      intros [= <-]. exists l. split; [reflexivity|]. split; [exact Hall|].
      split; [lia|]. intros l' [= <-]. auto.
    + unfold ring_settings. cbn [length].
      replace (Z.of_nat (length l) =? Z.of_nat (S (length post)) - 1)
        with false by (symmetry; apply Z.eqb_neq; lia).
      discriminate.
  - intros [= <-]. exists []. split; [reflexivity|]. split; [reflexivity|].
    split; [cbn; lia|]. discriminate.
Qed.

Lemma opt_position_settings_shape (positions : option (list char))
    (r0 : Rotor) (post : list Rotor) (rs : list Rotor) :
  opt_apply position_settings positions (r0 :: post) = Ok rs ->
  exists l, rs = r0 :: assign set_position l post /\
            forallb position_valid l = true /\
            (length l <= length post)%nat /\
            (forall l', positions = Some l' ->
                        l' = l /\ length l = length post).
Proof.
  unfold opt_apply. destruct positions as [l|].
  - destruct (Nat.eq_dec (length l) (length post)) as [Hlen|Hlen].
    + rewrite (position_settings_run l r0 post Hlen).
      destruct (Nat.eqb (length (valid_prefix position_valid l)) (length l))
        eqn:Hfull; [|discriminate].
      destruct (valid_prefix_full _ _ Hfull) as [-> Hall].
      intros [= <-]. exists l. split; [reflexivity|]. split; [exact Hall|].
      split; [lia|]. intros l' [= <-]. auto.
    + unfold position_settings. cbn [length].
      replace (Z.of_nat (length l) =? Z.of_nat (S (length post)) - 1)
        with false by (symmetry; apply Z.eqb_neq; lia).
      discriminate.
  - intros [= <-]. exists []. split; [reflexivity|]. split; [reflexivity|].
    split; [cbn; lia|]. discriminate.
Qed.

(** The rotors of a machine the constructor returns: the rotors built from
    the specifications, the first flagged as reflector, then the rings and
    the positions written on the others. *)
Lemma Commercial_enigma_init_shape (rts : list rotor_type)
    (rings : option (list Z)) (positions : option (list char))
    (self : Commercial_enigma) :
  Commercial_enigma_init rts rings positions = Ok self ->
  exists r0 rs' lr lp,
    Forall2 (fun rt r => Rotor_init rt 1 (ord "A") = Ok r) rts (r0 :: rs') /\
    (length rts = 4 \/ length rts = 5)%nat /\
    notch r0 = None /\ involution (mapping r0) /\
    existsb is_reflector rs' = false /\
    forallb ring_valid lr = true /\ (length lr <= length rs')%nat /\
    (forall l, rings = Some l -> l = lr /\ length lr = length rs') /\
    forallb position_valid lp = true /\ (length lp <= length rs')%nat /\
    (forall l, positions = Some l -> l = lp /\ length lp = length rs') /\
    rotors self
    = set_is_reflector true r0
      :: assign set_position lp (assign set_ring lr rs') /\
    ring_length self = Z.of_nat (length rts) - 1 /\
    position_length self = Z.of_nat (length rts) - 1.
Proof.
  unfold Commercial_enigma_init. intros Hinit.
  destruct (Nat.eqb (length rts) 4 || Nat.eqb (length rts) 5) eqn:Hlen;
    cbn [negb] in Hinit; [|discriminate].
  apply orb_true_iff in Hlen. rewrite !Nat.eqb_eq in Hlen.
  destruct (build_rotors rts) as [rs|e] eqn:Hbuild; cbn [rbind] in Hinit;
    [|discriminate].
  apply build_rotors_Forall2 in Hbuild.
  pose proof (Forall2_length Hbuild) as Hn.
  destruct rs as [|r0 rs']; [cbn in Hn; lia|].
  cbn [getitem nth_error rbind] in Hinit.
  assert (Hr0 : Rotor_init (hd (Named "") rts) 1 (ord "A") = Ok r0).
  { inversion Hbuild; subst. assumption. }
  assert (Hrefl : exists rs1,
             (if negb (is_reflector r0)
              then v <~ valid_reflector r0 ;;
                   if v then Ok (update (r0 :: rs') 0
                                   (set_is_reflector true r0))
                   else Raise ValueError
              else Ok (r0 :: rs')) = Ok rs1 /\
             rs1 = set_is_reflector true r0 :: rs' /\
             notch r0 = None /\ involution (mapping r0)).
  { destruct (is_reflector r0) eqn:Hir; cbn [negb] in *.
    - exists (r0 :: rs'). split; [reflexivity|].
      split; [rewrite (set_is_reflector_true r0 Hir); reflexivity|].
      split; [exact (reflector_flag_notch _ _ _ _ Hr0 Hir)|].
      exact (Rotor_init_reflector _ _ _ _ Hr0 Hir).
    - destruct (valid_reflector r0) as [[|]|e] eqn:Hv; cbn [rbind] in *;
        try discriminate.
      eexists. split; [reflexivity|]. split; [reflexivity|].
      apply (valid_reflector_involution r0
               (Rotor_init_length _ _ _ _ Hr0)) in Hv.
      exact Hv. }
  destruct Hrefl as (rs1 & Hrs1 & -> & Hnotch & Hinv).
  rewrite Hrs1 in Hinit. cbn [rbind tl] in Hinit.
  destruct (existsb is_reflector rs') eqn:Hnone; [discriminate|].
  destruct (opt_apply ring_settings rings (set_is_reflector true r0 :: rs'))
    as [rs2|e] eqn:Hrings; cbn [rbind] in Hinit; [|discriminate].
  destruct (opt_ring_settings_shape _ _ _ _ Hrings)
    as (lr & -> & Hlr & Hlrlen & Hlrsome).
  destruct (opt_apply position_settings positions _) as [rs3|e] eqn:Hpos;
    cbn [rbind] in Hinit; [|discriminate].
  destruct (opt_position_settings_shape _ _ _ _ Hpos)
    as (lp & -> & Hlp & Hlplen & Hlpsome).
  rewrite assign_length in Hlplen.
  injection Hinit as <-. exists r0, rs', lr, lp. cbn [rotors ring_length
                                                     position_length].
  split; [exact Hbuild|]. split; [exact Hlen|]. split; [exact Hnotch|].
  split; [exact Hinv|]. split; [exact Hnone|]. split; [exact Hlr|].
  split; [exact Hlrlen|]. split; [exact Hlrsome|]. split; [exact Hlp|].
  split; [exact Hlplen|]. split.
  - intros l Hl. destruct (Hlpsome l Hl) as [H1 H2].
    rewrite assign_length in H2. auto.
  - split; [reflexivity|]. split; reflexivity.
Qed.

Lemma existsb_false_map {A} (f : A -> bool) (l : list A) :
  existsb f l = false -> map f l = repeat false (length l).
Proof.
  induction l as [|x l IH]; cbn; [reflexivity|].
  destruct (f x); cbn; [discriminate|]. intros H. rewrite (IH H).
  reflexivity.
Qed.

Lemma assign_Forall {A} (set : A -> Rotor -> Rotor) (ok : A -> bool)
    (P : Rotor -> Prop) (xs : list A) (rs : list Rotor) :
  (forall x r, ok x = true -> P r -> P (set x r)) ->
  forallb ok xs = true -> Forall P rs -> Forall P (assign set xs rs).
Proof.
  intros Hset. revert rs. induction xs as [|x xs IH]; intros rs Hok Hrs.
  - destruct rs; exact Hrs.
  - destruct rs as [|r rs]; [exact Hrs|]. cbn in Hok.
    apply andb_true_iff in Hok. destruct Hok as [Hx Hxs].
    inversion Hrs; subst. cbn. constructor; auto.
Qed.

(** X14.  The constructor of the machine raises [ValueError] unless it gets
    four or five rotors.  A machine it returns for arguments written in
    ASCII (every position one ASCII character, custom wirings and notches of
    ASCII characters) has as many rotors as it was given; only the first is
    flagged as reflector, it has no notch, an involution as wiring, ring 1
    and position 'A'; every ring is in 1..26 and every position an
    upper-case letter; and the rings and positions given are those of the
    rotors behind the reflector, in order. *)
Theorem Commercial_enigma_init_invariants (rts : list rotor_type)
    (rings : option (list Z)) (positions : option (list char))
    (self : Commercial_enigma) :
  (length rts <> 4%nat -> length rts <> 5%nat ->
   Commercial_enigma_init rts rings positions = Raise ValueError) /\
  (ascii_arguments rts positions None ->
   Commercial_enigma_init rts rings positions = Ok self ->
   length (rotors self) = length rts /\
   (length rts = 4 \/ length rts = 5)%nat /\
   map is_reflector (rotors self)
   = true :: repeat false (length rts - 1) /\
   (exists r0, hd_error (rotors self) = Some r0 /\ notch r0 = None /\
               involution (mapping r0) /\
               ring r0 = 1 /\ position r0 = ord "A") /\
   Forall (fun r => 1 <= ring r <= 26 /\ c_isupper (position r) = true /\
                    length (mapping r) = 26%nat) (rotors self) /\
   (forall l, rings = Some l -> map ring (rotors self) = 1 :: l) /\
   (forall l, positions = Some l ->
              map position (rotors self) = ord "A" :: l) /\
   ring_length self = Z.of_nat (length (rotors self)) - 1).
Proof.
  split.
  - intros H4 H5. unfold Commercial_enigma_init.
    destruct (Nat.eqb_spec (length rts) 4); [contradiction|].
    destruct (Nat.eqb_spec (length rts) 5); [contradiction|]. reflexivity.
  - intros _ Hinit.
    destruct (Commercial_enigma_init_shape _ _ _ _ Hinit)
      as (r0 & rs' & lr & lp & Hbuild & Hlen & Hnotch & Hinv & Hnone & Hlr
          & Hlrlen & Hlrsome & Hlp & Hlplen & Hlpsome & Hrotors & Hrl & _).
    pose proof (Forall2_length Hbuild) as Hn. cbn [length] in Hn.
    set (P := fun r => 1 <= ring r <= 26 /\ c_isupper (position r) = true /\
                       length (mapping r) = 26%nat).
    assert (Hbase : P r0 /\ ring r0 = 1 /\ position r0 = ord "A"
                    /\ Forall P rs').
    { inversion Hbuild as [|rt r rts' rs0 Hr Hrest]; subst.
      destruct (Rotor_init_fields _ _ _ _ Hr) as (H1 & H2 & H3 & H4).
      split; [|split; [exact H1 | split; [exact H2|]]].
      - unfold P. rewrite H1, H2. split; [lia|]. split; [exact H4|].
        exact (Rotor_init_length _ _ _ _ Hr).
      - clear -Hrest. induction Hrest as [|rt r rts rs Hr Hrest IH];
          constructor; [|exact IH].
        destruct (Rotor_init_fields _ _ _ _ Hr) as (H1 & H2 & H3 & H4).
        unfold P. rewrite H1, H2. split; [lia|]. split; [exact H4|].
        exact (Rotor_init_length _ _ _ _ Hr). }
    destruct Hbase as (HP0 & Hring0 & Hpos0 & HPrs).
    rewrite Hrotors. cbn [length map hd_error].
    rewrite !assign_length.
    split; [lia|]. split; [exact Hlen|]. split.
    { f_equal.
      rewrite (assign_is_reflector set_position) by reflexivity.
      rewrite (assign_is_reflector set_ring) by reflexivity.
      rewrite (existsb_false_map _ _ Hnone). f_equal. lia. }
    split.
    { exists (set_is_reflector true r0). cbn. auto. }
    assert (Hrings : map ring (assign set_position lp
                                 (assign set_ring lr rs'))
                     = lr ++ skipn (length lr) (map ring rs')).
    { destruct (assign_position_fields lp (assign set_ring lr rs')
                  ltac:(rewrite assign_length; lia)) as (_ & H2 & _).
      rewrite H2.
      exact (proj1 (assign_ring_fields lr rs' Hlrlen)). }
    assert (Hpositions : map position (assign set_position lp
                                         (assign set_ring lr rs'))
                         = lp ++ skipn (length lp) (map position rs')).
    { destruct (assign_position_fields lp (assign set_ring lr rs')
                  ltac:(rewrite assign_length; lia)) as (H1 & _).
      rewrite H1.
      destruct (assign_ring_fields lr rs' Hlrlen) as (_ & H2 & _).
      rewrite H2. reflexivity. }
    split.
    { constructor; [exact HP0|].
      apply (assign_Forall set_position position_valid P); [|exact Hlp|].
      - intros x r Hx (H1 & H2 & H3). unfold P. cbn.
        split; [exact H1|]. split; [|exact H3].
        apply position_valid_upper, Hx.
      - apply (assign_Forall set_ring ring_valid P); [|exact Hlr|exact HPrs].
        intros x r Hx (H1 & H2 & H3). unfold P. cbn.
        split; [|auto]. apply ring_valid_range, Hx. }
    split.
    { intros l Hl. destruct (Hlrsome l Hl) as [-> Hfull].
      cbn [ring set_is_reflector]. rewrite Hring0, Hrings, Hfull.
      rewrite <- (length_map ring rs'), skipn_all, app_nil_r. reflexivity. }
    split.
    { intros l Hl. destruct (Hlpsome l Hl) as [-> Hfull].
      cbn [position set_is_reflector]. rewrite Hpos0, Hpositions, Hfull.
      rewrite <- (length_map position rs'), skipn_all, app_nil_r.
      reflexivity. }
    rewrite Hrl. lia.
Qed.

Lemma Commercial_enigma_init_invariants_witness :
  Commercial_enigma_init [Named "B"; Named "I"; Named "II"] None None
  = Raise ValueError /\
  map is_reflector (rotors ce_AEV) = [true; false; false; false] /\
  map position (rotors ce_AEV) = lit "AAEV".
Proof.
  split.
  - apply (proj1 (Commercial_enigma_init_invariants
                    [Named "B"; Named "I"; Named "II"] None None ce_AEV));
      cbn; lia.
  - destruct (proj2 (Commercial_enigma_init_invariants
                       [Named "B"; Named "I"; Named "II"; Named "III"]
                       None (Some (lit "AEV")) ce_AEV) eq_refl eq_refl)
      as (_ & _ & Hflags & _ & _ & _ & Hpos & _).
    split; [exact Hflags | exact (Hpos _ eq_refl)].
Defined.

(** X15.  On every machine the constructor returns for arguments written
    in ASCII (every position one ASCII character, custom wirings and notches
    of ASCII characters), [rotate] does not raise.  It leaves the reflector,
    and with five rotors the rotor next to it, as they are; it always
    advances the rightmost rotor; it advances the second rotor from the
    right when one of the two rightmost stood on its notch, and the third
    when the second stood on its notch. *)
Theorem rotate_stepping_rule (rts : list rotor_type)
    (rings : option (list Z)) (positions : option (list char))
    (self : Commercial_enigma) :
  Commercial_enigma_init rts rings positions = Ok self ->
  ascii_arguments rts positions None ->
  exists pre r3 r2 r1,
    rotors self = pre ++ [r3; r2; r1] /\
    (length pre = length rts - 3)%nat /\ pre <> [] /\
    rotate self
    = (Ok tt,
       set_rotors
         (pre ++ [if check_notch r2 then advance_position r3 else r3;
                  if check_notch r1 || check_notch r2
                  then advance_position r2 else r2;
                  advance_position r1]) self).
Proof.
  intros Hinit _.
  destruct (Commercial_enigma_init_shape _ _ _ _ Hinit)
    as (r0 & rs' & lr & lp & Hbuild & Hrts & Hnotch & Hinv & Hnone & Hlr
        & Hlrlen & Hlrsome & Hlp & Hlplen & Hlpsome & Hrotors & Hrl & _).
  pose proof (Forall2_length Hbuild) as Hn. cbn [length] in Hn.
  assert (Hlen : length (rotors self) = length rts).
  { rewrite Hrotors. cbn [length]. rewrite !assign_length. lia. }
  destruct (last_three (rotors self) ltac:(lia))
    as (pre & r3 & r2 & r1 & Hrs).
  exists pre, r3, r2, r1. split; [exact Hrs|].
  assert (Hpre : (length pre = length rts - 3)%nat).
  { rewrite Hrs, length_app in Hlen. cbn in Hlen. lia. }
  split; [exact Hpre|]. split.
  - intros ->. cbn in Hpre. lia.
  - exact (rotate_app3 self pre r3 r2 r1 Hrs).
Qed.

Lemma rotate_stepping_rule_witness :
  exists pre r3 r2 r1,
    rotors ce_AEV = pre ++ [r3; r2; r1] /\
    (length pre = 4 - 3)%nat /\ pre <> [] /\
    rotate ce_AEV
    = (Ok tt,
       set_rotors
         (pre ++ [if check_notch r2 then advance_position r3 else r3;
                  if check_notch r1 || check_notch r2
                  then advance_position r2 else r2;
                  advance_position r1]) ce_AEV).
Proof.
  apply (rotate_stepping_rule
           [Named "B"; Named "I"; Named "II"; Named "III"]
           None (Some (lit "AEV"))).
  - reflexivity.
  - reflexivity.
Defined.

(** ** One symbol and a whole string through the machine *)

Lemma fixed_point_freeb_correct (m : list char) :
  fixed_point_freeb m = true -> fixed_point_free m.
Proof.
  unfold fixed_point_freeb. rewrite forallb_forall. intros H x Hx Hfix.
  specialize (H x (proj2 (abc_In x) Hx)). rewrite Hfix in H.
  rewrite Z.eqb_refl in H. discriminate.
Qed.

Lemma involution_involutionb (m : list char) :
  involution m -> involutionb m = true.
Proof.
  intros H. unfold involutionb. apply forallb_forall. intros x Hx.
  apply abc_In in Hx. destruct (H x Hx) as (y & Hy & Hu & Hback).
  rewrite Hy, Hu, Hback, Z.eqb_refl. reflexivity.
Qed.

(** Of the ten named rotors, those that pass the constructor's test of the
    reflector have no fixed point. *)
Lemma named_reflector_fixed_point_free (s : string) m (b : bool) :
  named_rotor s = Some (m, None, b) -> involution m -> fixed_point_free m.
Proof.
  unfold named_rotor.
  repeat match goal with
         | |- context [String.eqb s ?k] => destruct (String.eqb s k)
         end;
    intros [= <- <-]; intros Hinv;
    first [ apply fixed_point_freeb_correct; vm_compute; reflexivity
          | apply involution_involutionb in Hinv; vm_compute in Hinv;
            discriminate ].
Qed.

Lemma reflector_moves (r : Rotor) (c : char) :
  length (mapping r) = 26%nat -> involution (mapping r) ->
  fixed_point_free (mapping r) -> c_isupper c = true ->
  encode_offset_rtl r c <> Ok c.
Proof.
  intros Hlen Hinv Hfpf Hc Hrtl.
  destruct (encode_offset_rtl_value r c Hlen) as (y & Hy & Hval).
  cbv zeta in Hy, Hval. set (o := position r - 65 - ring r + 1) in *.
  rewrite Hval in Hrtl. injection Hrtl as Heq.
  pose proof (Z.mod_pos_bound (c - 65 + o) 26 ltac:(lia)) as Hj.
  destruct (Hinv ((c - 65 + o) mod 26 + 65) (mod26_is_upper _))
    as (y' & Hy' & Hyu & _).
  replace ((c - 65 + o) mod 26 + 65 - 65) with ((c - 65 + o) mod 26)
    in Hy' by lia.
  rewrite Hy in Hy'. injection Hy' as <-.
  apply is_upper_range in Hyu.
  assert (Hyj : y - 65 = (c - 65 + o) mod 26).
  { rewrite <- (mod26_small (y - 65)) by lia.
    rewrite <- (shift_forth (y - 65) o).
    replace ((y - 65 - o) mod 26) with (c - 65) by lia. reflexivity. }
  apply (Hfpf ((c - 65 + o) mod 26 + 65) (mod26_is_upper _)).
  replace ((c - 65 + o) mod 26 + 65 - 65) with ((c - 65 + o) mod 26) by lia.
  rewrite Hy. f_equal. lia.
Qed.

(** The substitution of [encode] in full: it returns, it is undone by a
    second pass, and with a reflector without fixed point it never returns
    the symbol it was given. *)
Lemma substitution_full (rs : list Rotor) (c : char) :
  wirings_ok (map mapping rs) -> c_isupper c = true ->
  exists d,
    (x <~ pass encode_offset_rtl (rev rs) c ;;
     pass encode_offset_ltr (tl rs) x) = Ok d /\
    c_isupper d = true /\
    (forall m0 ms, map mapping rs = m0 :: ms -> fixed_point_free m0 ->
                   d <> c).
Proof.
  intros Hok Hc.
  pose proof Hok as (m0 & ms & Hws & _ & Hlen & Hinv & Hms).
  destruct rs as [|refl rotors]; [discriminate|].
  cbn [map] in Hws. injection Hws as <- <-.
  assert (Hrot : Forall (fun r => Permutation abc (mapping r)) rotors).
  { apply Forall_forall. intros r Hr. rewrite Forall_forall in Hms.
    apply Hms, in_map, Hr. }
  cbn [tl rev map].
  destruct (pass_ltr_after_rtl rotors c Hrot Hc) as (d1 & Hd1 & Hu1 & Hb1).
  destruct (encode_offset_rtl_value refl d1 Hlen) as (y & _ & Hval).
  cbv zeta in Hval.
  destruct (reflector_twice refl d1 _ Hlen Hinv Hu1 Hval) as [Hu2 Hrefl].
  destruct (pass_rtl_after_ltr rotors _ Hrot Hu2) as (d & Hd & Hu & Hb).
  exists d. rewrite pass_app, Hd1. cbn [rbind pass].
  rewrite Hval. cbn [rbind]. split; [exact Hd|]. split; [exact Hu|].
  intros m0 ms' [= <- <-] Hfpf Hdc. subst d.
  rewrite Hd1 in Hb. injection Hb as Heq.
  apply (reflector_moves refl d1 Hlen Hinv Hfpf Hu1).
  rewrite Hval, <- Heq. reflexivity.
Qed.

Lemma Commercial_enigma_encode_full (self : Commercial_enigma) (c : char) :
  wirings_ok (map mapping (rotors self)) -> c_isupper c = true ->
  exists d,
    Commercial_enigma_encode c self = (Ok d, snd (rotate self)) /\
    c_isupper d = true /\
    map mapping (rotors (snd (rotate self))) = map mapping (rotors self) /\
    (forall m0 ms, map mapping (rotors self) = m0 :: ms ->
                   fixed_point_free m0 -> d <> c).
Proof.
  intros Hok Hc.
  destruct (rotate_wirings self Hok) as (self' & Hrot & Hmap).
  rewrite Hrot. cbn [snd].
  assert (Hok' : wirings_ok (map mapping (rotors self')))
    by (rewrite Hmap; exact Hok).
  destruct (substitution_full (rotors self') c Hok' Hc)
    as (d & Hd & Hu & Hmove).
  exists d. unfold Commercial_enigma_encode, bind, get, lift.
  rewrite Hrot, Hd. split; [reflexivity|]. split; [exact Hu|].
  split; [exact Hmap|]. intros m0 ms Hws. apply (Hmove m0 ms).
  rewrite Hmap. exact Hws.
Qed.

Lemma Enigma_encode_full (self : Enigma) (c : char) :
  enigma_ok self -> c_isupper c = true ->
  exists d,
    Enigma_encode c self = (Ok d, Enigma_step self) /\
    c_isupper d = true /\
    enigma_ok (Enigma_step self) /\
    map mapping (rotors (ce (Enigma_step self)))
    = map mapping (rotors (ce self)) /\
    (forall m0 ms, map mapping (rotors (ce self)) = m0 :: ms ->
                   fixed_point_free m0 -> d <> c).
Proof.
  intros [Hws Hpb] Hc. unfold Enigma_step.
  destruct self as [ce0 [p|]]; cbn [ce pb] in *; unfold Enigma_encode;
    cbn [pb].
  - destruct Hpb as [Hinv Hne].
    destruct (Plugboard_encode_involutive p c Hinv Hne Hc)
      as (c1 & Hc1 & Hu1 & Hb1).
    destruct (Commercial_enigma_encode_full ce0 c1 Hws Hu1)
      as (c2 & Henc & Hu2 & Hmap & Hmove).
    destruct (Plugboard_encode_involutive p c2 Hinv Hne Hu2)
      as (c3 & Hc3 & Hu3 & Hb3).
    exists c3. unfold bind, lift, on_ce. cbn [ce pb].
    rewrite Hc1, Henc, Hc3.
    split; [reflexivity|]. split; [exact Hu3|]. split.
    { split; cbn [ce pb]; [rewrite Hmap; exact Hws | auto]. }
    split; [exact Hmap|].
    intros m0 ms Hm Hfpf Heq. subst c3.
    rewrite Hc1 in Hb3. injection Hb3 as Heq.
    exact (Hmove m0 ms Hm Hfpf (eq_sym Heq)).
  - destruct (Commercial_enigma_encode_full ce0 c Hws Hc)
      as (d & Henc & Hu & Hmap & Hmove).
    exists d. unfold on_ce. cbn [ce pb]. rewrite Henc.
    split; [reflexivity|]. split; [exact Hu|]. split.
    { split; cbn [ce pb]; [rewrite Hmap; exact Hws | exact I]. }
    split; [exact Hmap | exact Hmove].
Qed.

Lemma encode_string_loop_run {St : Type} (enc : char -> M St char)
    (ok : St -> Prop) (step : St -> St) (R : St -> char -> char -> Prop) :
  (forall s c, ok s -> c_isupper c = true ->
     exists d, enc c s = (Ok d, step s) /\ c_isupper d = true /\
               ok (step s) /\ R s c d) ->
  forall (P : str) (out : str) (s : St),
    ok s -> Forall (fun c => c_isupper c = true) P ->
    exists C,
      encode_string_loop enc P out s
      = (Ok (out ++ C), Nat.iter (length P) step s) /\
      ok (Nat.iter (length P) step s) /\
      length C = length P /\
      (forall i c d, nth_error P i = Some c -> nth_error C i = Some d ->
                     R (Nat.iter i step s) c d).
Proof.
  intros Hstep P. induction P as [|c P IH]; intros out s Hs HP.
  - exists []. cbn. rewrite app_nil_r. split; [reflexivity|].
    split; [exact Hs|]. split; [reflexivity|].
    intros [|i] c d H; discriminate.
  - inversion HP as [|c' P' Hc HP']; subst.
    destruct (Hstep s c Hs Hc) as (d & Henc & Hu & Hs1 & HR).
    destruct (IH (out ++ [d]) (step s) Hs1 HP')
      as (C & HC & Hok & Hlen & Hpoint).
    exists (d :: C). cbn [encode_string_loop length]. unfold bind.
    rewrite Henc, HC, <- app_assoc.
    change (Nat.iter (S (length P)) step s)
      with (step (Nat.iter (length P) step s)).
    rewrite <- Nat.iter_swap.
    split; [reflexivity|]. split; [exact Hok|]. split; [cbn; lia|].
    intros [|i] x y Hx Hy; cbn in Hx, Hy.
    + injection Hx as <-. injection Hy as <-. exact HR.
    + change (Nat.iter (S i) step s) with (step (Nat.iter i step s)).
      rewrite <- Nat.iter_swap. exact (Hpoint i x y Hx Hy).
Qed.

Lemma Enigma_init_named_reflector (rts : list rotor_type)
    (rings : option (list Z)) (positions : option (list char))
    (plugboard : option (list str)) (self : Enigma) (s : string)
    (rest : list rotor_type) :
  Enigma_init rts rings positions plugboard = Ok self ->
  rts = Named s :: rest ->
  exists m0 ms, map mapping (rotors (ce self)) = m0 :: ms /\
                fixed_point_free m0.
Proof.
  unfold Enigma_init. intros Hinit ->.
  destruct (Commercial_enigma_init (Named s :: rest) rings positions)
    as [c|e] eqn:Hce; cbn [rbind] in Hinit; [|discriminate].
  destruct (Commercial_enigma_init_shape _ _ _ _ Hce)
    as (r0 & rs' & lr & lp & Hbuild & _ & Hnotch & Hinv & _ & _ & _ & _ & _
        & _ & _ & Hrotors & _).
  assert (Hr0 : Rotor_init (Named s) 1 (ord "A") = Ok r0)
    by (inversion Hbuild; assumption).
  apply Rotor_init_cases in Hr0. rewrite Hnotch in Hr0.
  pose proof (named_reflector_fixed_point_free s _ _ Hr0 Hinv) as Hfpf.
  assert (Hce_self : ce self = c).
  { destruct plugboard as [leads|].
    - destruct (Plugboard_init (Some leads)); cbn [rbind] in Hinit;
        [|discriminate]. injection Hinit as <-. reflexivity.
    - injection Hinit as <-. reflexivity. }
  rewrite Hce_self, Hrotors. cbn [map]. eexists. eexists.
  split; [reflexivity | exact Hfpf].
Qed.

(** X16.  Take a machine that [Enigma(rotors, rings, positions, plugboard)]
    builds from arguments written in ASCII (every position one ASCII
    character; custom wirings, notches and lead strings of ASCII
    characters), with one of the named reflectors, custom rotors that are
    permutations of the alphabet and a plugboard that, when one is given,
    has at least one lead.  It encodes every text over the alphabet, and no
    symbol is encoded to itself: the ciphertext has the length of the
    plaintext and differs from it at every index. *)
Theorem Enigma_never_encodes_to_itself
    (rts : list rotor_type) (rings : option (list Z))
    (positions : option (list char)) (plugboard : option (list str))
    (self : Enigma) (s : string) (rest : list rotor_type) (P : str) :
  Enigma_init rts rings positions plugboard = Ok self ->
  ascii_arguments rts positions plugboard ->
  rts = Named s :: rest ->
  Forall wiring_ok rest ->
  plugboard <> Some [] ->
  Forall (fun c => c_isupper c = true) P ->
  exists C self',
    Enigma_encode_string P self = (Ok C, self') /\
    length C = length P /\
    forall i c d, nth_error P i = Some c -> nth_error C i = Some d ->
                  d <> c.
Proof.
  intros Hinit _ Hrts Hok Hpb HP.
  assert (Hself : enigma_ok self).
  { apply (Enigma_init_ok _ _ _ _ _ Hinit); [|exact Hpb].
    rewrite Hrts. exact Hok. }
  pose proof (Enigma_init_named_reflector _ _ _ _ _ s rest Hinit Hrts)
    as Hfpf.
  set (ok := fun e : Enigma =>
               enigma_ok e /\
               exists m0 ms, map mapping (rotors (ce e)) = m0 :: ms /\
                             fixed_point_free m0).
  destruct (encode_string_loop_run Enigma_encode ok Enigma_step
              (fun _ c d => d <> c)) with (P := P) (out := @nil char)
                                          (s := self)
    as (C & HC & _ & Hlen & Hpoint).
  - intros e c [He (m0 & ms & Hm & Hm0)] Hc.
    destruct (Enigma_encode_full e c He Hc)
      as (d & Henc & Hu & He' & Hmap & Hmove).
    exists d. split; [exact Henc|]. split; [exact Hu|]. split.
    + split; [exact He'|]. exists m0, ms. rewrite Hmap. auto.
    + exact (Hmove m0 ms Hm Hm0).
  - split; assumption.
  - exact HP.
  - eexists. eexists. split; [exact HC|]. split; [exact Hlen|].
    exact Hpoint.
Qed.

Lemma Enigma_never_encodes_to_itself_witness :
  exists C self',
    Enigma_encode_string (lit "AAAAAA") enigma_demo = (Ok C, self') /\
    length C = length (lit "AAAAAA") /\
    forall i c d, nth_error (lit "AAAAAA") i = Some c ->
                  nth_error C i = Some d -> d <> c.
Proof.
  apply (Enigma_never_encodes_to_itself enigma_demo_rotors
           (Some [18; 24; 3; 5]) (Some (lit "EZGP"))
           (Some enigma_demo_leads) enigma_demo "A"
           [Named "IV"; Named "V"; Named "Beta"; Named "I"]).
  - reflexivity.
  - reflexivity.
  - reflexivity.
  - repeat constructor.
  - discriminate.
  - repeat constructor.
Defined.

Lemma encode_offset_rtl_mod26 (r : Rotor) (c : char) :
  encode_offset_rtl r ((c - 65) mod 26 + 65) = encode_offset_rtl r c.
Proof.
  unfold encode_offset_rtl.
  replace ((c - 65) mod 26 + 65 - 65) with ((c - 65) mod 26) by lia.
  rewrite Zplus_mod_idemp_l. reflexivity.
Qed.

Lemma Enigma_encode_letter_mod_26 (self : Enigma) (c : char) :
  pb self = None ->
  (3 <= length (rotors (ce self)))%nat ->
  Enigma_encode c self = Enigma_encode (letter_mod_26 c) self.
Proof.
  intros Hpb Hlen. unfold Enigma_encode. rewrite Hpb. unfold on_ce.
  destruct (last_three _ Hlen) as (pre & r3 & r2 & r1 & Hrs).
  unfold Commercial_enigma_encode, bind, get, lift.
  rewrite (rotate_app3 (ce self) pre r3 r2 r1 Hrs).
  unfold set_rotors. cbn [rotors]. rewrite rev_app_distr. cbn [rev app pass].
  unfold letter_mod_26. rewrite encode_offset_rtl_mod26. reflexivity.
Qed.

(** A loop of [encode_string] whose step reads [c] as [norm c]. *)
Lemma encode_string_loop_norm {St : Type} (enc : char -> M St char)
    (ok : St -> Prop) (norm : char -> char) :
  (forall s c, ok s ->
     exists d s', enc c s = (Ok d, s') /\ enc (norm c) s = (Ok d, s') /\
                  c_isupper d = true /\ ok s') ->
  forall (P : str) (out : str) (s : St),
    ok s ->
    exists C s',
      encode_string_loop enc P out s = (Ok (out ++ C), s') /\
      encode_string_loop enc (map norm P) out s = (Ok (out ++ C), s') /\
      length C = length P /\
      Forall (fun d => c_isupper d = true) C.
Proof.
  intros Hstep P. induction P as [|c P IH]; intros out s Hs.
  - exists [], s. cbn. rewrite app_nil_r. auto.
  - destruct (Hstep s c Hs) as (d & s1 & Henc & Hnorm & Hu & Hs1).
    destruct (IH (out ++ [d]) s1 Hs1) as (C & s' & HC & HN & Hlen & HCu).
    exists (d :: C), s'. cbn [map encode_string_loop]. unfold bind.
    rewrite Henc, Hnorm, HC, HN. rewrite <- !app_assoc. cbn [app length].
    split; [reflexivity|]. split; [reflexivity|].
    split; [congruence | constructor; assumption].
Qed.

(** X17.  A machine built without plugboard does not reject characters
    outside the alphabet.  Built from arguments written in ASCII (every
    position one ASCII character, custom wirings and notches of ASCII
    characters) with custom rotors that are permutations of the alphabet,
    it encodes every text, whatever its characters: [encode_string] returns
    a text of upper-case letters of the same length, the one it returns
    for the text in which every character [c] is replaced by the letter of
    index [(ord(c) - 65) mod 26]. *)
Theorem Enigma_encode_reads_mod_26
    (rts : list rotor_type) (rings : option (list Z))
    (positions : option (list char)) (self : Enigma) (P : str) :
  Enigma_init rts rings positions None = Ok self ->
  ascii_arguments rts positions None ->
  Forall wiring_ok (tl rts) ->
  exists C self',
    Enigma_encode_string P self = (Ok C, self') /\
    Enigma_encode_string (map letter_mod_26 P) self = (Ok C, self') /\
    length C = length P /\
    Forall (fun d => c_isupper d = true) C.
Proof.
  intros Hinit _ Hok.
  assert (Hself : enigma_ok self)
    by (apply (Enigma_init_ok _ _ _ _ _ Hinit Hok); discriminate).
  assert (Hpb : pb self = None).
  { unfold Enigma_init in Hinit.
    destruct (Commercial_enigma_init rts rings positions);
      cbn [rbind] in Hinit; [|discriminate].
    injection Hinit as <-. reflexivity. }
  destruct (encode_string_loop_norm Enigma_encode
              (fun s => enigma_ok s /\ pb s = None) letter_mod_26)
    with (P := P) (out := @nil char) (s := self)
    as (C & self' & HC & HN & Hlen & HCu).
  - intros s c [Hs Hnone].
    destruct (Enigma_encode_full s (letter_mod_26 c) Hs (mod26_is_upper _))
      as (d & Henc & Hu & Hs' & _).
    exists d, (Enigma_step s).
    assert (Hthree : (3 <= length (rotors (ce s)))%nat).
    { destruct Hs as [(m0 & ms & Hws & Hms & _) _].
      rewrite <- (length_map mapping), Hws. cbn. lia. }
    rewrite (Enigma_encode_letter_mod_26 s c Hnone Hthree).
    split; [exact Henc|]. split; [exact Henc|]. split; [exact Hu|].
    split; [exact Hs' | exact Hnone].
  - split; assumption.
  - exists C, self'. auto.
Qed.

Lemma Enigma_encode_reads_mod_26_witness :
  exists C self',
    Enigma_encode_string (lit "a1 b") (mkEnigma ce_AEV None)
    = (Ok C, self') /\
    Enigma_encode_string (map letter_mod_26 (lit "a1 b"))
      (mkEnigma ce_AEV None) = (Ok C, self') /\
    length C = length (lit "a1 b") /\
    Forall (fun d => c_isupper d = true) C.
Proof.
  apply (Enigma_encode_reads_mod_26
           [Named "B"; Named "I"; Named "II"; Named "III"]
           None (Some (lit "AEV"))).
  - reflexivity.
  - reflexivity.
  - repeat constructor.
Defined.

Lemma rotate_last_rotor (self : Commercial_enigma) (r1 : Rotor) :
  wirings_ok (map mapping (rotors self)) ->
  getneg (rotors self) 1 = Ok r1 ->
  getneg (rotors (snd (rotate self))) 1 = Ok (advance_position r1).
Proof.
  intros (m0 & ms & Hws & Hlen & _) Hlast.
  destruct (rotors self) as [|refl rest] eqn:Hrs; [discriminate|].
  cbn [map] in Hws. injection Hws as <- <-. rewrite length_map in Hlen.
  destruct (last_three rest Hlen) as (pre & r3 & r2 & r1' & ->).
  destruct (getneg_app3 (refl :: pre) r3 r2 r1') as (G1 & _).
  cbn [app] in G1. rewrite G1 in Hlast. injection Hlast as ->.
  rewrite (rotate_app3 self (refl :: pre) r3 r2 r1 Hrs).
  unfold set_rotors. cbn [snd rotors].
  exact (proj1 (getneg_app3 (refl :: pre) _ _ (advance_position r1))).
Qed.

Lemma Enigma_step_iter (self : Enigma) (r1 : Rotor) (n : nat) :
  enigma_ok self ->
  getneg (rotors (ce self)) 1 = Ok r1 ->
  enigma_ok (Nat.iter n Enigma_step self) /\
  getneg (rotors (ce (Nat.iter n Enigma_step self))) 1
  = Ok (Nat.iter n advance_position r1).
Proof.
  intros Hok Hlast. induction n as [|n [IHok IHlast]].
  - split; assumption.
  - change (Nat.iter (S n) Enigma_step self)
      with (Enigma_step (Nat.iter n Enigma_step self)).
    change (Nat.iter (S n) advance_position r1)
      with (advance_position (Nat.iter n advance_position r1)).
    split.
    + destruct (Enigma_encode_full _ (ord "A") IHok eq_refl)
        as (_ & _ & _ & H & _). exact H.
    + unfold Enigma_step at 1. cbn [ce].
      apply rotate_last_rotor; [apply IHok | exact IHlast].
Qed.

(** X18.  Take a machine that [Enigma(rotors, rings, positions, plugboard)]
    builds from arguments written in ASCII (every position one ASCII
    character; custom wirings, notches and lead strings of ASCII
    characters), whose custom rotors are permutations of the alphabet and
    whose plugboard, when one is given, has at least one lead.  What
    [encode_string] leaves behind depends on the length of the text only:
    two texts over the alphabet of the same length are both encoded and
    leave the machine in the same state.  The output has the length of the
    input, the plugboard is untouched and the rightmost rotor has been
    advanced once for each symbol. *)
Theorem Enigma_encode_string_state
    (rts : list rotor_type) (rings : option (list Z))
    (positions : option (list char)) (plugboard : option (list str))
    (self : Enigma) (P Q : str) :
  Enigma_init rts rings positions plugboard = Ok self ->
  ascii_arguments rts positions plugboard ->
  Forall wiring_ok (tl rts) ->
  plugboard <> Some [] ->
  Forall (fun c => c_isupper c = true) P ->
  Forall (fun c => c_isupper c = true) Q ->
  length P = length Q ->
  exists C D self',
    Enigma_encode_string P self = (Ok C, self') /\
    Enigma_encode_string Q self = (Ok D, self') /\
    length C = length P /\
    pb self' = pb self /\
    (forall r1, getneg (rotors (ce self)) 1 = Ok r1 ->
                getneg (rotors (ce self')) 1
                = Ok (Nat.iter (length P) advance_position r1)).
Proof.
  intros Hinit _ Hok Hpb HP HQ Hlen.
  pose proof (Enigma_init_ok _ _ _ _ _ Hinit Hok Hpb) as Hself.
  assert (Hstep : forall e c, enigma_ok e -> c_isupper c = true ->
            exists d, Enigma_encode c e = (Ok d, Enigma_step e) /\
                      c_isupper d = true /\ enigma_ok (Enigma_step e) /\
                      True).
  { intros e c He Hc.
    destruct (Enigma_encode_full e c He Hc) as (d & H1 & H2 & H3 & _).
    exists d. auto. }
  destruct (encode_string_loop_run Enigma_encode enigma_ok Enigma_step
              (fun _ _ _ => True) Hstep P [] self Hself HP)
    as (C & HC & _ & HlenC & _).
  destruct (encode_string_loop_run Enigma_encode enigma_ok Enigma_step
              (fun _ _ _ => True) Hstep Q [] self Hself HQ)
    as (D & HD & _ & _ & _).
  exists C, D, (Nat.iter (length P) Enigma_step self).
  split; [exact HC|]. split; [rewrite Hlen; exact HD|].
  split; [exact HlenC|]. split.
  - clear. induction (length P) as [|n IH]; [reflexivity|].
    change (Nat.iter (S n) Enigma_step self)
      with (Enigma_step (Nat.iter n Enigma_step self)).
    exact IH.
  - intros r1 Hr1.
    exact (proj2 (Enigma_step_iter self r1 (length P) Hself Hr1)).
Qed.

Lemma Enigma_encode_string_state_witness :
  exists C D self',
    Enigma_encode_string (lit "HELLO") enigma_demo = (Ok C, self') /\
    Enigma_encode_string (lit "WORLD") enigma_demo = (Ok D, self') /\
    length C = length (lit "HELLO") /\
    pb self' = pb enigma_demo /\
    (forall r1, getneg (rotors (ce enigma_demo)) 1 = Ok r1 ->
                getneg (rotors (ce self')) 1
                = Ok (Nat.iter (length (lit "HELLO")) advance_position r1)).
Proof.
  apply (Enigma_encode_string_state enigma_demo_rotors
           (Some [18; 24; 3; 5]) (Some (lit "EZGP"))
           (Some enigma_demo_leads)).
  - reflexivity.
  - reflexivity.
  - repeat constructor.
  - discriminate.
  - repeat constructor.
  - repeat constructor.
  - reflexivity.
Defined.

(** X19.  [replace_plugboard()] without leads does not give a machine
    without plugboard: the board is kept, empty, and from then on every
    [encode], and every [encode_string] of a non-empty text, raises
    [ValueError] before the rotors step. *)
Theorem Enigma_replace_plugboard_without_leads
    (self : Enigma) (p : Plugboard) :
  pb self = Some p ->
  exists self',
    Enigma_replace_plugboard None self = (Ok tt, self') /\
    ce self' = ce self /\
    (forall c, Enigma_encode c self' = (Raise ValueError, self')) /\
    (forall c s, Enigma_encode_string (c :: s) self'
                 = (Raise ValueError, self')).
Proof.
  intros Hpb. unfold Enigma_replace_plugboard, Plugboard_reset.
  rewrite Hpb. eexists. split; [reflexivity|]. split; [reflexivity|].
  assert (Henc : forall c self0 occ,
            pb self0 = Some {| connections := []; occupied_letters := occ |} ->
            Enigma_encode c self0 = (Raise ValueError, self0)).
  { intros c self0 occ H0. unfold Enigma_encode. rewrite H0. reflexivity. }
  split.
  - intros c. apply (Henc c _ (occupied_letters p)). reflexivity.
  - intros c s. unfold Enigma_encode_string. cbn [encode_string_loop].
    unfold bind at 1.
    rewrite Henc with (occ := occupied_letters p) by reflexivity.
    reflexivity.
Qed.

Lemma Enigma_replace_plugboard_without_leads_witness :
  exists self',
    Enigma_replace_plugboard None enigma_demo = (Ok tt, self') /\
    ce self' = ce enigma_demo /\
    (forall c, Enigma_encode c self' = (Raise ValueError, self')) /\
    (forall c s, Enigma_encode_string (c :: s) self'
                 = (Raise ValueError, self')).
Proof.
  apply (Enigma_replace_plugboard_without_leads enigma_demo
           (match pb enigma_demo with
            | Some p => p
            | None => board_empty
            end)).
  reflexivity.
Defined.

Lemma strip_two (a b : char) :
  c_isspace a = false -> c_isspace b = false -> strip [a; b] = [a; b].
Proof.
  intros Ha Hb. unfold strip. cbn [lstrip]. rewrite Ha.
  cbn [rev app lstrip]. rewrite Hb. reflexivity.
Qed.

(** X20.  The validation loop of [AdvancedPlugLead.__init__] tests the
    method [char.isnumeric] and not its result, so it never raises: any two
    different characters that are not white space make a lead, lower-case
    letters and punctuation included.  A lead of two characters outside the
    36 symbols returns every symbol unchanged. *)
Theorem AdvancedPlugLead_init_accepts_any_pair (a b : char) :
  0 <= a < 128 -> 0 <= b < 128 ->
  c_isspace a = false -> c_isspace b = false -> a <> b ->
  exists pl,
    Adv.AdvancedPlugLead_init [a; b] = Ok pl /\
    (forall c, In c (pair pl) <-> c = a \/ c = b) /\
    (Adv.c_valid a = false -> Adv.c_valid b = false ->
     forall c, Adv.c_valid c = true ->
               Adv.AdvancedPlugLead_encode pl c = Ok c).
Proof.
  intros _ _ Ha Hb Hab. unfold Adv.AdvancedPlugLead_init.
  rewrite (strip_two a b Ha Hb).
  destruct (Z.eqb_spec a b) as [|_]; [contradiction|].
  eexists. split; [reflexivity|]. cbn [pair]. unfold mkpair.
  destruct (Z.eqb_spec a b) as [|_]; [contradiction|].
  assert (Hin : forall c, In c [Z.min a b; Z.max a b] <-> c = a \/ c = b)
    by (intros c; cbn; lia).
  split; [exact Hin|].
  intros Hva Hvb c Hc. unfold Adv.AdvancedPlugLead_encode. rewrite Hc.
  cbn [negb pair]. unfold mem.
  destruct (set_mem Z.eq_dec c [Z.min a b; Z.max a b]) eqn:Hm;
    [|reflexivity].
  apply set_mem_correct1 in Hm. apply Hin in Hm.
  destruct Hm as [-> | ->]; congruence.
Qed.

Lemma AdvancedPlugLead_init_accepts_any_pair_witness :
  exists pl,
    Adv.AdvancedPlugLead_init [ord "a"; ord "!"] = Ok pl /\
    (forall c, In c (pair pl) <-> c = ord "a" \/ c = ord "!") /\
    (Adv.c_valid (ord "a") = false -> Adv.c_valid (ord "!") = false ->
     forall c, Adv.c_valid c = true ->
               Adv.AdvancedPlugLead_encode pl c = Ok c).
Proof.
  apply (AdvancedPlugLead_init_accepts_any_pair (ord "a") (ord "!")).
  - cbn. lia.
  - cbn. lia.
  - reflexivity.
  - reflexivity.
  - discriminate.
Defined.

Lemma c_valid_lineup (c : char) : Adv.c_valid c = true -> In c Adv.lineup.
Proof.
  unfold Adv.c_valid, c_isalpha, c_isupper, c_islower, c_isnumeric.
  intros H.
  assert (Hc : 65 <= c <= 90 \/ 48 <= c <= 57) by lia.
  destruct Hc as [Hc | Hc].
  - replace c with (65 + Z.of_nat (Z.to_nat (c - 65))) by lia.
    unfold Adv.lineup. apply in_or_app. left.
    apply in_map with (f := fun i => 65 + Z.of_nat i).
    apply in_seq. lia.
  - replace c with (48 + Z.of_nat (Z.to_nat (c - 48))) by lia.
    unfold Adv.lineup. apply in_or_app. right.
    apply in_map with (f := fun i => 48 + Z.of_nat i).
    apply in_seq. lia.
Qed.

(** X21.  On a rotor over the 36 symbols that stands on an upper-case
    letter or a digit, [advance_position] does not raise; 36 calls return
    the rotor as it was, and no smaller positive number of calls brings the
    position back. *)
Theorem AdvancedRotor_advance_position_cycle (r : Adv.AdvancedRotor) :
  Adv.is36 r = true ->
  Adv.c_valid (position (Adv.base r)) = true ->
  advance_times 36 r = Ok r /\
  forall n, (0 < n < 36)%nat ->
    exists r', advance_times n r = Ok r' /\
               position (Adv.base r') <> position (Adv.base r).
Proof.
  intros H36 Hpos. apply c_valid_lineup in Hpos.
  destruct r as [[rg p ds m nt rf] ri tb lb]. unfold Adv.is36 in H36.
  cbn [Adv.tuple_bool Adv.list_bool] in H36.
  cbn [Adv.base position] in Hpos |- *.
  split.
  - cbv [Adv.lineup map seq app Z.of_nat Pos.of_succ_nat Pos.succ Z.add
         Pos.add Pos.add_carry] in Hpos.
    cbn [In] in Hpos.
    repeat (destruct Hpos as [<- | Hpos];
            [destruct tb, lb; try discriminate; vm_compute; reflexivity|]).
    contradiction.
  - intros n Hn.
    assert (Hcases : In n (seq 1 35)) by (apply in_seq; lia).
    clear Hn. cbn [seq In] in Hcases.
    cbv [Adv.lineup map seq app Z.of_nat Pos.of_succ_nat Pos.succ Z.add
         Pos.add Pos.add_carry] in Hpos.
    cbn [In] in Hpos.
    repeat (destruct Hpos as [<- | Hpos];
            [repeat (destruct Hcases as [<- | Hcases];
                     [destruct tb, lb; try discriminate;
                      (eexists; split; [vm_compute; reflexivity
                                       | vm_compute; discriminate])|]);
             contradiction|]).
    contradiction.
Qed.

Lemma AdvancedRotor_advance_position_cycle_witness :
  advance_times 36 cer3_at_Z = Ok cer3_at_Z /\
  forall n, (0 < n < 36)%nat ->
    exists r', advance_times n cer3_at_Z = Ok r' /\
               position (Adv.base r') <> position (Adv.base cer3_at_Z).
Proof.
  apply (AdvancedRotor_advance_position_cycle cer3_at_Z);
    vm_compute; reflexivity.
Defined.

Lemma encode_check_short (B : list Z) (string : str) :
  B = [] \/ (length string <= 1)%nat ->
  Adv.encode_check B string = Ok true \/
  Adv.encode_check B string = Raise ValueError.
Proof.
  intros Hedge. unfold Adv.encode_check.
  destruct (Adv.list_eqb B (Adv.sorted B)); cbn [negb]; [|auto].
  destruct (Nat.eqb (length B) (Adv.len_set B)); cbn [negb]; [|auto].
  destruct B as [|x B]; [cbn; auto|].
  destruct Hedge as [Hnil | Hlen]; [discriminate|].
  destruct (Adv.py_max (x :: B)) as [mx|e] eqn:Hmax; [|discriminate].
  destruct (Adv.py_min (x :: B)) as [mn|e] eqn:Hmin; [|discriminate].
  cbn [rbind].
  destruct (mx >? Z.of_nat (length string) - 1) eqn:Hbound; [auto|].
  rewrite Z.gtb_ltb in Hbound. apply Z.ltb_ge in Hbound.
  pose proof (py_max_ge _ mx x Hmax (or_introl eq_refl)).
  pose proof (py_min_le _ mn x Hmin (or_introl eq_refl)).
  left. f_equal. apply Z.leb_le. lia.
Qed.

(** X22.  [encode_advanced_string] cannot encode a text of fewer than two
    symbols, whichever list of boundaries it is given, and both methods
    reject the empty list of boundaries: the call raises [ValueError] (for
    the empty list it is the one of [max] or [min]) and leaves the machine
    and the list as they were. *)
Theorem advanced_string_edge_inputs
    (rnd : Adv.random) (string total_string : str)
    (self : Adv.AdvancedEnigma) (B : list Z) :
  (B = [] \/ (length string <= 1)%nat ->
   Adv.encode_advanced_string rnd string (self, B)
   = (Raise ValueError, (self, B))) /\
  Adv.decode_advanced_string total_string (self, [])
  = (Raise ValueError, (self, [])).
Proof.
  split.
  - intros Hedge. unfold Adv.encode_advanced_string. cbn [snd].
    destruct (encode_check_short B string Hedge) as [-> | ->]; reflexivity.
  - reflexivity.
Qed.

Lemma advanced_string_edge_inputs_witness :
  Adv.encode_advanced_string draws_M (lit "A") (ade_demo, [1])
  = (Raise ValueError, (ade_demo, [1])) /\
  Adv.encode_advanced_string draws_M demo_plaintext (ade_demo, [])
  = (Raise ValueError, (ade_demo, [])).
Proof.
  split.
  - apply (proj1 (advanced_string_edge_inputs draws_M (lit "A") []
                    ade_demo [1])).
    right. cbn. lia.
  - apply (proj1 (advanced_string_edge_inputs draws_M demo_plaintext []
                    ade_demo [])).
    left. reflexivity.
Defined.

Lemma on_self_eq {A} (m : M Adv.AdvancedEnigma A)
    (st : Adv.AdvancedEnigma * list Z) :
  Adv.on_self m st = (fst (m (fst st)), (snd (m (fst st)), snd st)).
Proof. unfold Adv.on_self. destruct (m (fst st)); reflexivity. Qed.

Lemma encode_string_loop_length {St : Type} (enc : char -> M St char)
    (s : str) :
  forall (out : str) (st : St) (res : str) (st' : St),
    encode_string_loop enc s out st = (Ok res, st') ->
    length res = (length out + length s)%nat.
Proof.
  induction s as [|c s IH]; intros out st res st' H; cbn in H.
  - injection H as <- _. cbn. lia.
  - unfold bind in H. destruct (enc c st) as [[c'|e] st1]; [|discriminate].
    apply IH in H. rewrite H, length_app. cbn. lia.
Qed.

Lemma alternate_length (parts : list str) :
  forall active sr srg sp cr crg cp enc self res self',
    Adv.alternate parts active sr srg sp cr crg cp enc self
    = (Ok res, self') ->
    length res = (length enc + length (concat parts))%nat.
Proof.
  induction parts as [|bit parts IH];
    intros active sr srg sp cr crg cp enc self res self' H; cbn in H.
  - injection H as <- _. cbn. lia.
  - cbn [concat]. rewrite length_app.
    destruct active.
    + destruct sr as [sr|]; [|discriminate].
      destruct srg as [srg|]; [|discriminate].
      destruct sp as [sp|]; [|discriminate].
      unfold bind, Adv.bound, ret, get in H.
      destruct (Adv.replace_ce sr srg sp self) as [[u|e] s1];
        [|discriminate].
      destruct (Adv.AdvancedEnigma_encode_string bit s1)
        as [[out|e] s2] eqn:Hout; [|discriminate].
      apply IH in H. apply encode_string_loop_length in Hout.
      rewrite H, length_app, Hout. cbn. lia.
    + destruct crg as [crg|]; [|discriminate].
      destruct cp as [cp|]; [|discriminate].
      unfold bind, Adv.bound, ret, get in H.
      destruct (Adv.replace_ce cr crg cp self) as [[u|e] s1];
        [|discriminate].
      destruct (Adv.AdvancedEnigma_encode_string bit s1)
        as [[out|e] s2] eqn:Hout; [|discriminate].
      apply IH in H. apply encode_string_loop_length in Hout.
      rewrite H, length_app, Hout. cbn. lia.
Qed.

Lemma firstn_plus {A} (a b : nat) (l : list A) :
  firstn (a + b) l = firstn a l ++ firstn b (skipn a l).
Proof.
  revert l. induction a as [|a IH]; intros l; [reflexivity|].
  destruct l as [|x l]; cbn.
  - rewrite firstn_nil. reflexivity.
  - rewrite IH. reflexivity.
Qed.

Lemma slice_app {A} (s : list A) (i j k : Z) :
  0 <= i <= j -> j <= k ->
  Adv.slice s i j ++ Adv.slice s j k = Adv.slice s i k.
Proof.
  intros Hij Hjk. unfold Adv.slice.
  replace (Z.to_nat k - Z.to_nat i)%nat
    with ((Z.to_nat j - Z.to_nat i) + (Z.to_nat k - Z.to_nat j))%nat by lia.
  rewrite firstn_plus, skipn_skipn.
  replace (Z.to_nat j - Z.to_nat i + Z.to_nat i)%nat with (Z.to_nat j)
    by lia.
  reflexivity.
Qed.

Lemma last_default {A} (x : A) (L : list A) (d1 d2 : A) :
  last (x :: L) d1 = last (x :: L) d2.
Proof.
  revert x. induction L as [|y L IH]; intros x; [reflexivity|].
  change (last (x :: y :: L) d1) with (last (y :: L) d1).
  change (last (x :: y :: L) d2) with (last (y :: L) d2).
  apply IH.
Qed.

Lemma last_cons {A} (j : A) (L : list A) (i : A) :
  last (j :: L) i = last L j.
Proof.
  destruct L as [|x L]; [reflexivity|].
  change (last (j :: x :: L) i) with (last (x :: L) i).
  apply last_default.
Qed.

Lemma last_Forall {A} (P : A -> Prop) (L : list A) (d : A) :
  Forall P L -> P d -> P (last L d).
Proof.
  induction 1 as [|x L Hx HL IH]; intros Hd; [exact Hd|].
  destruct L as [|y L]; [exact Hx|].
  change (last (x :: y :: L) d) with (last (y :: L) d). apply IH, Hd.
Qed.

Lemma partition_from (s : str) (L : list Z) :
  forall i, 0 <= i -> StronglySorted Z.le (i :: L) ->
  concat (map (fun ij => Adv.slice s (fst ij) (snd ij)) (combine (i :: L) L))
  = Adv.slice s i (last L i).
Proof.
  induction L as [|j L IH]; intros i Hi Hs.
  - cbn. unfold Adv.slice. rewrite Nat.sub_diag. reflexivity.
  - inversion Hs as [|? ? Hs' Hall]; subst.
    assert (Hij : i <= j) by (inversion Hall; assumption).
    change (combine (i :: j :: L) (j :: L))
      with ((i, j) :: combine (j :: L) L).
    cbn [map concat fst snd]. rewrite (IH j) by (auto; lia).
    rewrite (last_cons j L i). apply slice_app; [lia|].
    inversion Hs' as [|? ? _ Hj]; subst.
    apply (last_Forall (fun x => j <= x)); [exact Hj | lia].
Qed.

Lemma sorted_snoc (l : list Z) (n : Z) :
  StronglySorted Z.le l -> Forall (fun x => x <= n) l ->
  StronglySorted Z.le (l ++ [n]).
Proof.
  induction 1 as [|x l Hl IH Hx]; intros Hn; cbn.
  - repeat constructor.
  - inversion Hn; subst. constructor; [apply IH; assumption|].
    apply Forall_app. split; [exact Hx | repeat constructor; assumption].
Qed.

Lemma partition_whole (s : str) (B : list Z) (mn mx : Z) :
  B = Adv.sorted B ->
  Adv.py_min B = Ok mn -> 0 < mn ->
  Adv.py_max B = Ok mx -> mx <= Z.of_nat (length s) ->
  concat (Adv.partition s (B ++ [Z.of_nat (length s)])) = s.
Proof.
  intros Hs Hmin Hpos Hmax Hbound. unfold Adv.partition.
  rewrite partition_from.
  - rewrite last_last. unfold Adv.slice. cbn [Z.to_nat skipn].
    rewrite Nat.sub_0_r, Nat2Z.id. apply firstn_all.
  - lia.
  - pose proof (sorted_is_sorted B) as Hsorted. rewrite <- Hs in Hsorted.
    constructor.
    + apply sorted_snoc; [exact Hsorted|]. apply Forall_forall.
      intros x Hx. pose proof (py_max_ge B mx x Hmax Hx). lia.
    + apply Forall_app. split.
      * apply Forall_forall. intros x Hx.
        pose proof (py_min_le B mn x Hmin Hx). lia.
      * repeat constructor. lia.
Qed.

Lemma encode_check_passed (B : list Z) (string : str) :
  Adv.encode_check B string = Ok false ->
  concat (Adv.partition string (B ++ [Z.of_nat (length string)])) = string.
Proof.
  unfold Adv.encode_check.
  destruct (Adv.list_eqb B (Adv.sorted B)) eqn:Hs; cbn [negb];
    [|discriminate].
  destruct (Nat.eqb (length B) (Adv.len_set B)); cbn [negb];
    [|discriminate].
  destruct (Adv.py_max B) as [mx|e] eqn:Hmax; cbn [rbind]; [|discriminate].
  destruct (mx >? Z.of_nat (length string) - 1) eqn:Hbound; [discriminate|].
  destruct (Adv.py_min B) as [mn|e] eqn:Hmin; cbn [rbind]; [|discriminate].
  intros [= Hpos]. apply Z.leb_gt in Hpos.
  rewrite Z.gtb_ltb in Hbound. apply Z.ltb_ge in Hbound.
  apply (partition_whole string B mn mx); auto using list_eqb_eq. lia.
Qed.

(** X23.  When [encode_advanced_string] returns, the caller's list has the
    length of the text appended and is otherwise unchanged, and the result
    is as long as the auxiliary string that was drawn plus the text. *)
Theorem encode_advanced_string_output
    (rnd : Adv.random) (string : str) (self self' : Adv.AdvancedEnigma)
    (B B' : list Z) (out : str) :
  Adv.encode_advanced_string rnd string (self, B) = (Ok out, (self', B')) ->
  B' = B ++ [Z.of_nat (length string)] /\
  exists pre self1,
    Adv.auxiliary_string rnd self = (Ok pre, self1) /\
    length out = (length pre + length string)%nat.
Proof.
  unfold Adv.encode_advanced_string. cbn [snd].
  destruct (Adv.encode_check B string) as [[|]|e] eqn:Hcheck;
    try discriminate.
  unfold bind at 1. rewrite on_self_eq. cbn [fst snd].
  destruct (Adv.auxiliary_string rnd self) as [[pre|e] s1] eqn:Haux;
    cbn [fst snd]; [|discriminate].
  unfold bind at 1. rewrite on_self_eq. cbn [fst snd].
  destruct (Adv.AdvancedEnigma_encode_string pre s1) as [[prencode|e] s2]
    eqn:Hpre; cbn [fst snd]; [|discriminate].
  unfold bind at 1. rewrite on_self_eq. cbn [fst snd get].
  destruct (Adv.swapS s2) as [ks|]; cbn [Adv.attr]; [|discriminate].
  unfold bind at 1. cbn [ret].
  unfold bind at 1. unfold lift at 1.
  destruct (Adv.swap_last3 (Adv.get_rotor_types s2) ks) as [srs|e];
    [|discriminate].
  destruct (Adv.swapR s2) as [kr|]; cbn [Adv.attr]; [|discriminate].
  unfold bind at 1. cbn [ret].
  unfold bind at 1. unfold lift at 1.
  destruct (Adv.swap_settings _ _ Adv.ring_perms kr) as [srg|e];
    [|discriminate].
  destruct (Adv.swapP s2) as [kp|]; cbn [Adv.attr]; [|discriminate].
  unfold bind at 1. cbn [ret].
  unfold bind at 1. unfold lift at 1.
  destruct (Adv.swap_settings _ _ Adv.position_perms kp) as [sps|e];
    [|discriminate].
  unfold bind at 1. unfold Adv.append_unpacked at 1. cbn [fst snd].
  unfold bind at 1. cbn [get].
  unfold bind at 1. rewrite on_self_eq. cbn [fst snd].
  match goal with
  | |- context [Adv.alternate ?p ?a ?x1 ?x2 ?x3 ?x4 ?x5 ?x6 ?x7 ?x8] =>
      destruct (Adv.alternate p a x1 x2 x3 x4 x5 x6 x7 x8)
        as [[enc|e] s3] eqn:Halt; cbn [fst snd]; [|discriminate]
  end.
  cbn [ret]. intros [= <- <- <-]. split; [reflexivity|].
  exists pre, s1. split; [reflexivity|].
  apply alternate_length in Halt. apply encode_string_loop_length in Hpre.
  rewrite (encode_check_passed B string Hcheck) in Halt.
  rewrite length_app, Halt, Hpre. cbn. lia.
Qed.

Lemma encode_advanced_string_output_witness :
  snd (snd (Adv.encode_advanced_string draws_M demo_plaintext
              (ade_demo, [3; 7; 10])))
  = [3; 7; 10] ++ [Z.of_nat (length demo_plaintext)] /\
  exists pre self1,
    Adv.auxiliary_string draws_M ade_demo = (Ok pre, self1) /\
    length (demo_ciphertext draws_M)
    = (length pre + length demo_plaintext)%nat.
Proof.
  apply (encode_advanced_string_output draws_M demo_plaintext ade_demo
           (fst (snd (Adv.encode_advanced_string draws_M demo_plaintext
                        (ade_demo, [3; 7; 10]))))
           [3; 7; 10]
           (snd (snd (Adv.encode_advanced_string draws_M demo_plaintext
                        (ade_demo, [3; 7; 10]))))
           (demo_ciphertext draws_M)).
  vm_compute. reflexivity.
Defined.

Lemma decode_check_passed (B : list Z) (message : str) (mx : Z) :
  Adv.decode_check B = Ok false ->
  Adv.py_max B = Ok mx ->
  (mx >? Z.of_nat (length message) - 1) = false ->
  concat (Adv.partition message (B ++ [Z.of_nat (length message)]))
  = message.
Proof.
  unfold Adv.decode_check.
  destruct (Adv.list_eqb B (Adv.sorted B)) eqn:Hs; cbn [negb];
    [|discriminate].
  destruct (Nat.eqb (length B) (Adv.len_set B)); cbn [negb];
    [|discriminate].
  destruct (Adv.py_min B) as [mn|e] eqn:Hmin; cbn [rbind]; [|discriminate].
  intros [= Hpos] Hmax Hbound. apply Z.leb_gt in Hpos.
  rewrite Z.gtb_ltb in Hbound. apply Z.ltb_ge in Hbound.
  apply (partition_whole message B mn mx); auto using list_eqb_eq. lia.
Qed.

(** X24.  When [decode_advanced_string] returns, the header it has cut
    off ends where the first doubled capital of the plainly encoded input
    ends; the text returned has the length of the rest of the input, and
    that length has been appended to the caller's list. *)
Theorem decode_advanced_string_output
    (total_string : str) (self self' : Adv.AdvancedEnigma)
    (B B' : list Z) (out : str) :
  Adv.decode_advanced_string total_string (self, B)
  = (Ok out, (self', B')) ->
  exists jumbled self1 e,
    Adv.AdvancedEnigma_encode_string total_string self
    = (Ok jumbled, self1) /\
    Adv.search_double jumbled 0 = Some e /\
    B' = B ++ [Z.of_nat (length total_string - e)] /\
    length out = (length total_string - e)%nat.
Proof.
  unfold Adv.decode_advanced_string. cbn [snd].
  destruct (Adv.decode_check B) as [[|]|e] eqn:Hcheck; try discriminate.
  unfold bind at 1. rewrite on_self_eq. cbn [fst snd].
  destruct (Adv.AdvancedEnigma_encode_string total_string self)
    as [[jumbled|e] s1] eqn:Hjum; cbn [fst snd]; [|discriminate].
  destruct (Adv.search_double jumbled 0) as [e|] eqn:Hend;
    cbn [Adv.attr]; [|discriminate].
  unfold bind at 1. cbn [ret].
  unfold bind at 1. unfold lift at 1.
  destruct (Adv.py_max B) as [mx|ex] eqn:Hmax; [|discriminate].
  destruct (mx >? Z.of_nat (length (skipn e total_string)) - 1) eqn:Hbound;
    [discriminate|].
  unfold bind at 1. rewrite on_self_eq. cbn [fst snd].
  destruct (Adv.reset_ce s1) as [[u|ex] s2]; cbn [fst snd]; [|discriminate].
  unfold bind at 1. rewrite on_self_eq. cbn [fst snd].
  destruct (Adv.AdvancedEnigma_encode_string (firstn e jumbled) s2)
    as [[ins|ex] s3]; cbn [fst snd]; [|discriminate].
  unfold bind at 1. rewrite on_self_eq. cbn [fst snd get].
  unfold bind at 1. rewrite on_self_eq. cbn [fst snd].
  match goal with
  | |- context [Adv.read_settings ?z ?c ?v ?s] =>
      destruct (Adv.read_settings z c v s) as [[v'|ex] s4];
        cbn [fst snd]; [|discriminate]
  end.
  unfold bind at 1. unfold Adv.append_unpacked at 1. cbn [fst snd].
  unfold bind at 1. cbn [get].
  rewrite on_self_eq. cbn [fst snd].
  match goal with
  | |- context [Adv.alternate ?p ?a ?x1 ?x2 ?x3 ?x4 ?x5 ?x6 ?x7 ?x8] =>
      destruct (Adv.alternate p a x1 x2 x3 x4 x5 x6 x7 x8)
        as [[enc|ex] s5] eqn:Halt; cbn [fst snd]; [|discriminate]
  end.
  intros [= <- <- <-].
  exists jumbled, s1, e. split; [reflexivity|]. split; [exact Hend|].
  rewrite length_skipn. split; [reflexivity|].
  apply alternate_length in Halt.
  rewrite (decode_check_passed B _ mx Hcheck Hmax Hbound) in Halt.
  rewrite Halt, length_skipn. cbn. lia.
Qed.

Lemma decode_advanced_string_output_witness :
  exists jumbled self1 e,
    Adv.AdvancedEnigma_encode_string (demo_ciphertext draws_M) ade_demo
    = (Ok jumbled, self1) /\
    Adv.search_double jumbled 0 = Some e /\
    snd (snd (Adv.decode_advanced_string (demo_ciphertext draws_M)
                (ade_demo, [3; 7; 10])))
    = [3; 7; 10] ++ [Z.of_nat (length (demo_ciphertext draws_M) - e)] /\
    length demo_plaintext = (length (demo_ciphertext draws_M) - e)%nat.
Proof.
  apply (decode_advanced_string_output (demo_ciphertext draws_M) ade_demo
           (fst (snd (Adv.decode_advanced_string (demo_ciphertext draws_M)
                        (ade_demo, [3; 7; 10]))))
           [3; 7; 10]
           (snd (snd (Adv.decode_advanced_string (demo_ciphertext draws_M)
                        (ade_demo, [3; 7; 10]))))
           demo_plaintext).
  vm_compute. reflexivity.
Defined.

(** ** The round trip of the machine over the 36 symbols *)

Lemma lineup_length : length Adv.lineup = 36%nat.
Proof. reflexivity. Qed.

Lemma lineup_NoDup : NoDup Adv.lineup.
Proof.
  assert (H : nodup Z.eq_dec Adv.lineup = Adv.lineup) by reflexivity.
  rewrite <- H. apply NoDup_nodup.
Qed.

Lemma lineup_valid (x : char) : In x Adv.lineup -> Adv.c_valid x = true.
Proof.
  assert (H : forallb Adv.c_valid Adv.lineup = true) by reflexivity.
  rewrite forallb_forall in H. apply H.
Qed.

Lemma NoDup_index (l : list char) (i : nat) (x : char) :
  NoDup l -> nth_error l i = Some x -> index x l = Ok i.
Proof.
  intros Hnd H. apply index_Ok. split; [exact H|].
  intros k Hk Hk'.
  assert (Hlen : (k < length l)%nat) by (apply nth_error_Some; congruence).
  pose proof (proj1 (NoDup_nth_error l) Hnd k i Hlen) as Hinj.
  rewrite H, Hk' in Hinj. specialize (Hinj eq_refl). lia.
Qed.

Lemma lineup_index (i : nat) (x : char) :
  nth_error Adv.lineup i = Some x -> index x Adv.lineup = Ok i.
Proof. apply NoDup_index, lineup_NoDup. Qed.

Lemma lineup_nth_valid (i : nat) (x : char) :
  nth_error Adv.lineup i = Some x -> Adv.c_valid x = true.
Proof. intros H. apply lineup_valid, (nth_error_In _ _ H). Qed.

Lemma valid_nth (x : char) :
  Adv.c_valid x = true -> exists i, nth_error Adv.lineup i = Some x.
Proof. intros H. apply In_nth_error, c_valid_lineup, H. Qed.

Lemma lineup_at_mod (z : Z) :
  exists x, Adv.lineup_at (z mod 36) = Ok x /\
            nth_error Adv.lineup (Z.to_nat (z mod 36)) = Some x.
Proof.
  unfold Adv.lineup_at, getitem.
  destruct (nth_error Adv.lineup (Z.to_nat (z mod 36))) as [x|] eqn:Hx.
  - exists x. auto.
  - apply nth_error_None in Hx. rewrite lineup_length in Hx.
    pose proof (Z.mod_pos_bound z 36 ltac:(lia)). lia.
Qed.

Lemma nth_lineup_lt (i : nat) (x : char) :
  nth_error Adv.lineup i = Some x -> (i < 36)%nat.
Proof.
  intros H. rewrite <- lineup_length. apply nth_error_Some. congruence.
Qed.

Lemma back36 (i : nat) (o : Z) :
  (i < 36)%nat ->
  Z.to_nat ((Z.of_nat (Z.to_nat ((Z.of_nat i + o) mod 36)) - o) mod 36) = i.
Proof.
  intros Hi. pose proof (Z.mod_pos_bound (Z.of_nat i + o) 36 ltac:(lia)).
  rewrite Z2Nat.id by lia. rewrite Zminus_mod_idemp_l.
  replace (Z.of_nat i + o - o) with (Z.of_nat i) by lia.
  rewrite Z.mod_small by lia. apply Nat2Z.id.
Qed.

Lemma forth36 (j : nat) (o : Z) :
  (j < 36)%nat ->
  Z.to_nat ((Z.of_nat (Z.to_nat ((Z.of_nat j - o) mod 36)) + o) mod 36) = j.
Proof.
  intros Hj. pose proof (Z.mod_pos_bound (Z.of_nat j - o) 36 ltac:(lia)).
  rewrite Z2Nat.id by lia. rewrite Zplus_mod_idemp_l.
  replace (Z.of_nat j - o + o) with (Z.of_nat j) by lia.
  rewrite Z.mod_small by lia. apply Nat2Z.id.
Qed.

(** The two offset transforms of a rotor over the 36 symbols, with the
    look-ups resolved.  [P] and [i] are the places of the position and of
    the input in the line-up. *)
Lemma offset_rtl36 (r : Adv.AdvancedRotor) (c y : char) (P i j : nat) :
  Adv.is36 r = true ->
  nth_error Adv.lineup P = Some (position (Adv.base r)) ->
  nth_error Adv.lineup i = Some c ->
  let o := Z.of_nat P - ring (Adv.base r) + 1 in
  nth_error (mapping (Adv.base r)) (Z.to_nat ((Z.of_nat i + o) mod 36))
  = Some y ->
  nth_error Adv.lineup j = Some y ->
  exists d,
    Adv.AdvancedRotor_encode_offset_rtl r c = Ok d /\
    nth_error Adv.lineup (Z.to_nat ((Z.of_nat j - o) mod 36)) = Some d.
Proof.
  intros H36 HP Hi o Hy Hj. unfold Adv.AdvancedRotor_encode_offset_rtl.
  rewrite H36, (lineup_index _ _ HP). cbn [rbind]. fold o.
  rewrite (lineup_index _ _ Hi). cbn [rbind].
  destruct (lineup_at_mod (Z.of_nat i + o)) as (oc & Hoc & Hocn).
  rewrite Hoc. cbn [rbind].
  unfold Adv.AdvancedRotor_encode_right_to_left. rewrite H36.
  rewrite (lineup_nth_valid _ _ Hocn). cbn [negb].
  rewrite (lineup_index _ _ Hocn). cbn [rbind]. unfold getitem at 1.
  rewrite Hy. cbn [rbind]. rewrite (lineup_index _ _ Hj). cbn [rbind].
  destruct (lineup_at_mod (Z.of_nat j - o)) as (d & Hd & Hdn).
  exists d. auto.
Qed.

Lemma offset_ltr36 (r : Adv.AdvancedRotor) (c oc : char) (P i k : nat) :
  Adv.is36 r = true ->
  nth_error Adv.lineup P = Some (position (Adv.base r)) ->
  nth_error Adv.lineup i = Some c ->
  let o := Z.of_nat P - ring (Adv.base r) + 1 in
  nth_error Adv.lineup (Z.to_nat ((Z.of_nat i + o) mod 36)) = Some oc ->
  index oc (mapping (Adv.base r)) = Ok k -> (k < 36)%nat ->
  exists d,
    Adv.AdvancedRotor_encode_offset_ltr r c = Ok d /\
    nth_error Adv.lineup (Z.to_nat ((Z.of_nat k - o) mod 36)) = Some d.
Proof.
  intros H36 HP Hi o Hocn Hk Hlt. unfold Adv.AdvancedRotor_encode_offset_ltr.
  rewrite H36, (lineup_index _ _ HP). cbn [rbind]. fold o.
  rewrite (lineup_index _ _ Hi). cbn [rbind].
  destruct (lineup_at_mod (Z.of_nat i + o)) as (oc' & Hoc & Hocn').
  assert (oc' = oc) by congruence. subst oc'.
  rewrite Hoc. cbn [rbind].
  unfold Adv.AdvancedRotor_encode_left_to_right. rewrite H36.
  rewrite (lineup_nth_valid _ _ Hocn). cbn [negb].
  rewrite Hk. cbn [rbind]. unfold getitem at 1.
  destruct (nth_error Adv.lineup k) as [z|] eqn:Hz.
  2:{ apply nth_error_None in Hz. rewrite lineup_length in Hz. lia. }
  cbn [rbind]. rewrite (lineup_index _ _ Hz). cbn [rbind].
  destruct (lineup_at_mod (Z.of_nat k - o)) as (d & Hd & Hdn).
  exists d. auto.
Qed.

Section Wiring36.

Variable m : list char.
Hypothesis m_perm : Permutation Adv.lineup m.

Lemma perm36_length : length m = 36%nat.
Proof. rewrite <- (Permutation_length m_perm). reflexivity. Qed.

Lemma perm36_NoDup : NoDup m.
Proof. exact (Permutation_NoDup m_perm lineup_NoDup). Qed.

Lemma perm36_nth (a : nat) :
  (a < 36)%nat ->
  exists y j, nth_error m a = Some y /\ nth_error Adv.lineup j = Some y.
Proof.
  intros Ha. destruct (nth_error m a) as [y|] eqn:Hy.
  - assert (Hin : In y Adv.lineup)
      by exact (Permutation_in y (Permutation_sym m_perm)
                  (nth_error_In _ _ Hy)).
    apply In_nth_error in Hin. destruct Hin as [j Hj]. eauto.
  - apply nth_error_None in Hy. rewrite perm36_length in Hy. lia.
Qed.

Lemma perm36_index (x : char) (a : nat) :
  nth_error Adv.lineup a = Some x ->
  exists k, index x m = Ok k /\ (k < 36)%nat /\ nth_error m k = Some x.
Proof.
  intros Hx.
  assert (Hin : In x m)
    by exact (Permutation_in x m_perm (nth_error_In _ _ Hx)).
  destruct (index_In x m Hin) as [k Hk]. exists k. split; [exact Hk|].
  apply index_Ok in Hk. destruct Hk as [Hk _]. split; [|exact Hk].
  rewrite <- perm36_length. apply nth_error_Some. congruence.
Qed.

End Wiring36.

Lemma mod36_lt (z : Z) : (Z.to_nat (z mod 36) < 36)%nat.
Proof. pose proof (Z.mod_pos_bound z 36 ltac:(lia)). lia. Qed.

Lemma rotor36_ltr_after_rtl (r : Adv.AdvancedRotor) (c : char) :
  rotor36_ok r -> Adv.c_valid c = true ->
  exists d, Adv.AdvancedRotor_encode_offset_rtl r c = Ok d /\
            Adv.c_valid d = true /\
            Adv.AdvancedRotor_encode_offset_ltr r d = Ok c.
Proof.
  intros (H36 & Hpos & Hperm) Hc.
  destruct (valid_nth _ Hpos) as [P HP]. destruct (valid_nth _ Hc) as [i Hi].
  set (o := Z.of_nat P - ring (Adv.base r) + 1).
  destruct (perm36_nth _ Hperm (Z.to_nat ((Z.of_nat i + o) mod 36))
              (mod36_lt _)) as (y & j & Hy & Hj).
  destruct (offset_rtl36 r c y P i j H36 HP Hi Hy Hj) as (d & Hd & Hdn).
  fold o in Hdn. exists d. split; [exact Hd|].
  split; [exact (lineup_nth_valid _ _ Hdn)|].
  destruct (offset_ltr36 r d y P _ (Z.to_nat ((Z.of_nat i + o) mod 36))
              H36 HP Hdn) as (c' & Hc' & Hcn).
  - fold o. rewrite (forth36 j o (nth_lineup_lt _ _ Hj)). exact Hj.
  - apply NoDup_index; [exact (perm36_NoDup _ Hperm) | exact Hy].
  - apply mod36_lt.
  - fold o in Hcn. rewrite (back36 i o (nth_lineup_lt _ _ Hi)) in Hcn.
    rewrite Hc'. congruence.
Qed.

Lemma rotor36_rtl_after_ltr (r : Adv.AdvancedRotor) (c : char) :
  rotor36_ok r -> Adv.c_valid c = true ->
  exists d, Adv.AdvancedRotor_encode_offset_ltr r c = Ok d /\
            Adv.c_valid d = true /\
            Adv.AdvancedRotor_encode_offset_rtl r d = Ok c.
Proof.
  intros (H36 & Hpos & Hperm) Hc.
  destruct (valid_nth _ Hpos) as [P HP]. destruct (valid_nth _ Hc) as [i Hi].
  set (o := Z.of_nat P - ring (Adv.base r) + 1).
  destruct (lineup_at_mod (Z.of_nat i + o)) as (oc & _ & Hocn).
  destruct (perm36_index _ Hperm oc _ Hocn) as (k & Hk & Hlt & Hkn).
  destruct (offset_ltr36 r c oc P i k H36 HP Hi Hocn Hk Hlt)
    as (d & Hd & Hdn).
  fold o in Hdn. exists d. split; [exact Hd|].
  split; [exact (lineup_nth_valid _ _ Hdn)|].
  destruct (offset_rtl36 r d oc P _ (Z.to_nat ((Z.of_nat i + o) mod 36))
              H36 HP Hdn) as (c' & Hc' & Hcn).
  - fold o. rewrite (forth36 k o Hlt). exact Hkn.
  - exact Hocn.
  - fold o in Hcn. rewrite (back36 i o (nth_lineup_lt _ _ Hi)) in Hcn.
    rewrite Hc'. congruence.
Qed.

Lemma reflector36_twice (r : Adv.AdvancedRotor) (c : char) :
  rotor36_ok r -> involution36 (mapping (Adv.base r)) ->
  Adv.c_valid c = true ->
  exists d, Adv.AdvancedRotor_encode_offset_rtl r c = Ok d /\
            Adv.c_valid d = true /\
            Adv.AdvancedRotor_encode_offset_rtl r d = Ok c.
Proof.
  intros (H36 & Hpos & Hperm) Hinv Hc.
  destruct (valid_nth _ Hpos) as [P HP]. destruct (valid_nth _ Hc) as [i Hi].
  set (o := Z.of_nat P - ring (Adv.base r) + 1).
  destruct (lineup_at_mod (Z.of_nat i + o)) as (x & _ & Hxn).
  destruct (perm36_nth _ Hperm (Z.to_nat ((Z.of_nat i + o) mod 36))
              (mod36_lt _)) as (y & j0 & Hy & _).
  destruct (Hinv _ x y Hxn Hy) as (j & Hj & Hback).
  destruct (offset_rtl36 r c y P i j H36 HP Hi Hy Hj) as (d & Hd & Hdn).
  fold o in Hdn. exists d. split; [exact Hd|].
  split; [exact (lineup_nth_valid _ _ Hdn)|].
  destruct (offset_rtl36 r d x P _ (Z.to_nat ((Z.of_nat i + o) mod 36))
              H36 HP Hdn) as (c' & Hc' & Hcn).
  - fold o. rewrite (forth36 j o (nth_lineup_lt _ _ Hj)). exact Hback.
  - exact Hxn.
  - fold o in Hcn. rewrite (back36 i o (nth_lineup_lt _ _ Hi)) in Hcn.
    rewrite Hc'. congruence.
Qed.

Lemma pass36_app (f : Adv.AdvancedRotor -> char -> result char)
    (l1 l2 : list Adv.AdvancedRotor) (c : char) :
  Adv.pass f (l1 ++ l2) c = (d <~ Adv.pass f l1 c ;; Adv.pass f l2 d).
Proof.
  revert c. induction l1 as [|r l1 IH]; intros c; cbn [Adv.pass app rbind].
  - reflexivity.
  - destruct (f r c) as [c'|e]; cbn [rbind]; [apply IH | reflexivity].
Qed.

Lemma pass36_ltr_after_rtl (rs : list Adv.AdvancedRotor) (c : char) :
  Forall rotor36_ok rs -> Adv.c_valid c = true ->
  exists d, Adv.pass Adv.AdvancedRotor_encode_offset_rtl (rev rs) c = Ok d /\
            Adv.c_valid d = true /\
            Adv.pass Adv.AdvancedRotor_encode_offset_ltr rs d = Ok c.
Proof.
  intros Hrs Hc. induction Hrs as [|r rs Hr Hrs IH].
  - exists c. cbn. auto.
  - destruct IH as (d1 & Hd1 & Hu1 & Hback).
    destruct (rotor36_ltr_after_rtl r d1 Hr Hu1) as (d & Hd & Hu & Hltr).
    exists d. cbn [rev]. rewrite pass36_app, Hd1. cbn [rbind Adv.pass].
    rewrite Hd. cbn [rbind]. split; [reflexivity|].
    split; [exact Hu|]. rewrite Hltr. cbn [rbind]. exact Hback.
Qed.

Lemma pass36_rtl_after_ltr (rs : list Adv.AdvancedRotor) (c : char) :
  Forall rotor36_ok rs -> Adv.c_valid c = true ->
  exists d, Adv.pass Adv.AdvancedRotor_encode_offset_ltr rs c = Ok d /\
            Adv.c_valid d = true /\
            Adv.pass Adv.AdvancedRotor_encode_offset_rtl (rev rs) d = Ok c.
Proof.
  intros Hrs. revert c. induction Hrs as [|r rs Hr Hrs IH]; intros c Hc.
  - exists c. cbn. auto.
  - destruct (rotor36_rtl_after_ltr r c Hr Hc) as (d1 & Hd1 & Hu1 & Hback1).
    destruct (IH d1 Hu1) as (d & Hd & Hu & Hback).
    exists d. cbn [Adv.pass rev]. rewrite Hd1. cbn [rbind].
    split; [exact Hd|]. split; [exact Hu|].
    rewrite pass36_app, Hback. cbn [rbind Adv.pass]. rewrite Hback1.
    reflexivity.
Qed.

(** The substitution of [encode], after the rotors have stepped. *)
Lemma substitution36_involutive (rs : list Adv.AdvancedRotor) (c : char) :
  rotors36_ok rs -> Adv.c_valid c = true ->
  exists d,
    (x <~ Adv.pass Adv.AdvancedRotor_encode_offset_rtl (rev rs) c ;;
     Adv.pass Adv.AdvancedRotor_encode_offset_ltr (tl rs) x) = Ok d /\
    Adv.c_valid d = true /\
    (x <~ Adv.pass Adv.AdvancedRotor_encode_offset_rtl (rev rs) d ;;
     Adv.pass Adv.AdvancedRotor_encode_offset_ltr (tl rs) x) = Ok c.
Proof.
  intros (r0 & rest & -> & _ & Hall & Hinv) Hc.
  inversion Hall as [|? ? Hr0 Hrest]; subst.
  cbn [tl rev].
  destruct (pass36_ltr_after_rtl rest c Hrest Hc) as (d1 & Hd1 & Hu1 & Hb1).
  destruct (reflector36_twice r0 d1 Hr0 Hinv Hu1) as (d2 & Hd2 & Hu2 & Hb2).
  destruct (pass36_rtl_after_ltr rest d2 Hrest Hu2) as (d & Hd & Hu & Hb).
  exists d. rewrite !pass36_app, Hd1, Hb. cbn [rbind Adv.pass].
  rewrite Hd2, Hb2. cbn [rbind]. auto.
Qed.

(** Stepping a rotor over the 36 symbols. *)
Lemma advance36_ok (r : Adv.AdvancedRotor) :
  rotor36_ok r ->
  exists r', Adv.AdvancedRotor_advance_position r = Ok r' /\
             rotor36_ok r'.
Proof.
  intros (H36 & Hpos & Hperm). unfold Adv.AdvancedRotor_advance_position.
  rewrite H36.
  destruct (Z.eqb_spec (position (Adv.base r)) (ord "9")) as [H9|H9].
  - eexists. split; [reflexivity|].
    split; [exact H36|]. split; [reflexivity | exact Hperm].
  - destruct (valid_nth _ Hpos) as [P HP].
    rewrite (lineup_index _ _ HP). cbn [rbind]. unfold getitem.
    destruct (nth_error Adv.lineup (P + 1)) as [p|] eqn:Hp.
    + eexists. split; [reflexivity|].
      split; [exact H36|]. split; [|exact Hperm].
      exact (lineup_nth_valid _ _ Hp).
    + exfalso. apply nth_error_None in Hp. rewrite lineup_length in Hp.
      pose proof (nth_lineup_lt _ _ HP) as Hlt.
      assert (P = 35%nat) by lia. subst P.
      assert (Hn : nth_error Adv.lineup 35 = Some (ord "9")) by reflexivity.
      rewrite Hn in HP. congruence.
Qed.

Lemma Forall_app3 {A} (P : A -> Prop) (l : list A) (a b c : A) :
  Forall P (l ++ [a; b; c]) <-> Forall P l /\ P a /\ P b /\ P c.
Proof.
  rewrite Forall_app. split.
  - intros [Hl H3]. inversion H3 as [|? ? Ha H2]; subst.
    inversion H2 as [|? ? Hb H1]; subst. inversion H1; subst. auto.
  - intros (Hl & Ha & Hb & Hc). split; [exact Hl|]. repeat constructor; auto.
Qed.

Lemma advance_neg36 (k : nat) (self : Adv.Commercial_enigma_advanced) :
  (1 <= k <= 3)%nat -> cea_ok self ->
  exists self', Adv.advance_neg k self = (Ok tt, self') /\ cea_ok self'.
Proof.
  intros Hk (r0 & rest & Hrs & Hlen & Hall & Hinv).
  destruct (last_three rest Hlen) as (pre & r3 & r2 & r1 & ->).
  unfold Adv.advance_neg. rewrite Hrs in Hall |- *.
  change (r0 :: pre ++ [r3; r2; r1]) with ((r0 :: pre) ++ [r3; r2; r1])
    in Hall |- *.
  apply Forall_app3 in Hall. destruct Hall as (Hpre & H3 & H2 & H1).
  destruct (getneg_app3 (r0 :: pre) r3 r2 r1) as (G1 & G2 & G3).
  assert (Hshape : forall x3 x2 x1,
            rotor36_ok x3 -> rotor36_ok x2 -> rotor36_ok x1 ->
            cea_ok (Adv.set_rotors ((r0 :: pre) ++ [x3; x2; x1]) self)).
  { intros x3 x2 x1 Hx3 Hx2 Hx1. exists r0, (pre ++ [x3; x2; x1]).
    split; [reflexivity|]. split; [rewrite length_app; cbn; lia|].
    split; [|exact Hinv].
    change (r0 :: pre ++ [x3; x2; x1]) with ((r0 :: pre) ++ [x3; x2; x1]).
    apply Forall_app3. auto. }
  destruct k as [|[|[|[|k]]]]; try lia.
  - rewrite G1. cbn [rbind].
    destruct (advance36_ok r1 H1) as (r' & -> & Hr').
    eexists. split; [reflexivity|].
    rewrite (proj1 (setneg_app3 (r0 :: pre) r3 r2 r1 r')). auto.
  - rewrite G2. cbn [rbind].
    destruct (advance36_ok r2 H2) as (r' & -> & Hr').
    eexists. split; [reflexivity|].
    rewrite (proj1 (proj2 (setneg_app3 (r0 :: pre) r3 r2 r1 r'))). auto.
  - rewrite G3. cbn [rbind].
    destruct (advance36_ok r3 H3) as (r' & -> & Hr').
    eexists. split; [reflexivity|].
    rewrite (proj2 (proj2 (setneg_app3 (r0 :: pre) r3 r2 r1 r'))). auto.
Qed.

Lemma notch_neg36 (k : nat) (self : Adv.Commercial_enigma_advanced) :
  (1 <= k <= 3)%nat -> cea_ok self ->
  exists b, Adv.notch_neg k self = (Ok b, self).
Proof.
  intros Hk (r0 & rest & Hrs & Hlen & _).
  destruct (last_three rest Hlen) as (pre & r3 & r2 & r1 & ->).
  unfold Adv.notch_neg. rewrite Hrs.
  change (r0 :: pre ++ [r3; r2; r1]) with ((r0 :: pre) ++ [r3; r2; r1]).
  destruct (getneg_app3 (r0 :: pre) r3 r2 r1) as (G1 & G2 & G3).
  destruct k as [|[|[|[|k]]]]; try lia; rewrite ?G1, ?G2, ?G3; cbn [rbind];
    eauto.
Qed.

Lemma seq_ok {St : Type} (ok : St -> Prop) (m1 m2 : M St unit) :
  (forall s, ok s -> exists s', m1 s = (Ok tt, s') /\ ok s') ->
  (forall s, ok s -> exists s', m2 s = (Ok tt, s') /\ ok s') ->
  forall s, ok s -> exists s', (m1 ;;; m2) s = (Ok tt, s') /\ ok s'.
Proof.
  intros H1 H2 s Hs. destruct (H1 s Hs) as (s1 & E1 & Hs1).
  destruct (H2 s1 Hs1) as (s2 & E2 & Hs2).
  exists s2. unfold bind. rewrite E1. auto.
Qed.

Lemma when_ok {St : Type} (ok : St -> Prop) (b : bool) (m : M St unit) :
  (forall s, ok s -> exists s', m s = (Ok tt, s') /\ ok s') ->
  forall s, ok s -> exists s', when b m s = (Ok tt, s') /\ ok s'.
Proof.
  intros H s Hs. destruct b; cbn [when]; [auto|]. exists s. auto.
Qed.

(** Stepping never raises on a machine over the 36 symbols. *)
Lemma rotate36 (self : Adv.Commercial_enigma_advanced) :
  cea_ok self ->
  exists self', Adv.rotate self = (Ok tt, self') /\ cea_ok self'.
Proof.
  intros Hok. unfold Adv.rotate.
  destruct (notch_neg36 1 self ltac:(lia) Hok) as (rot1 & N1).
  destruct (notch_neg36 2 self ltac:(lia) Hok) as (rot2 & N2).
  unfold bind at 1. rewrite N1. unfold bind at 1. rewrite N2.
  revert self Hok N1 N2. intros self Hok _ _. revert self Hok.
  apply seq_ok; [intros s; apply advance_neg36; lia|].
  apply seq_ok; [apply when_ok; intros s; apply advance_neg36; lia|].
  apply when_ok. apply seq_ok.
  - apply when_ok. intros s. apply advance_neg36. lia.
  - intros s. apply advance_neg36. lia.
Qed.

Lemma Commercial_enigma_advanced_encode_involutive
    (self : Adv.Commercial_enigma_advanced) (c : char) :
  cea_ok self -> Adv.c_valid c = true ->
  exists d self',
    Adv.Commercial_enigma_advanced_encode c self = (Ok d, self') /\
    Adv.Commercial_enigma_advanced_encode d self = (Ok c, self') /\
    Adv.c_valid d = true /\ cea_ok self'.
Proof.
  intros Hok Hc. destruct (rotate36 self Hok) as (self' & Hrot & Hok').
  destruct (substitution36_involutive (Adv.rotors self') c Hok' Hc)
    as (d & Hd & Hu & Hback).
  exists d, self'. unfold Adv.Commercial_enigma_advanced_encode, bind, get,
    lift.
  rewrite Hrot, Hd, Hback. auto.
Qed.

(** A loop of [encode_string] over a self-inverse step on the symbols that
    satisfy [valid]. *)
Lemma encode_string_loop_involutive_on {St : Type} (enc : char -> M St char)
    (ok : St -> Prop) (valid : char -> Prop) :
  (forall s c, ok s -> valid c ->
     exists d s', enc c s = (Ok d, s') /\ enc d s = (Ok c, s') /\
                  valid d /\ ok s') ->
  forall (P : str) (out1 out2 : str) (s : St),
    ok s -> Forall valid P ->
    exists C s',
      encode_string_loop enc P out1 s = (Ok (out1 ++ C), s') /\
      encode_string_loop enc C out2 s = (Ok (out2 ++ P), s') /\
      length C = length P /\ Forall valid C /\ ok s'.
Proof.
  intros Hstep P. induction P as [|c P IH]; intros out1 out2 s Hs HP.
  - exists [], s. cbn. rewrite !app_nil_r. auto.
  - inversion HP as [|c' P' Hc HP']; subst.
    destruct (Hstep s c Hs Hc) as (d & s1 & Henc & Hdec & Hu & Hs1).
    destruct (IH (out1 ++ [d]) (out2 ++ [c]) s1 Hs1 HP')
      as (C & s' & HC & HP2 & Hlen & HCu & Hs').
    exists (d :: C), s'. cbn [encode_string_loop]. unfold bind.
    rewrite Henc, Hdec, HC, HP2. rewrite <- !app_assoc. cbn [app length].
    split; [reflexivity|]. split; [reflexivity|].
    split; [congruence|]. split; [constructor; assumption | exact Hs'].
Qed.

(** ** What the constructor of the advanced machine establishes *)

Lemma lit_length (s : string) : length (lit s) = String.length s.
Proof.
  unfold lit. rewrite length_map.
  induction s as [|a s IH]; cbn; [reflexivity | rewrite IH; reflexivity].
Qed.

Lemma perm36_valid (w : list char) :
  Permutation Adv.lineup w -> forallb Adv.c_valid w = true.
Proof.
  intros Hperm. apply forallb_forall. intros x Hx.
  apply lineup_valid. exact (Permutation_in x (Permutation_sym Hperm) Hx).
Qed.

Lemma AdvancedRotor_init_36 (rt : rotor_type) (r : Adv.AdvancedRotor) :
  Adv.AdvancedRotor_init rt 1 (ord "A") = Ok r -> wiring36_ok rt ->
  rotor36_ok r /\ is_reflector (Adv.base r) = false.
Proof.
  unfold Adv.AdvancedRotor_init.
  change ((1 <? 1) || (1 >? 36)) with false.
  change (negb (Adv.c_valid (ord "A"))) with false. cbv iota.
  intros Hinit Hok. cbv zeta in Hinit.
  destruct rt as [s | w n | w]; cbn [wiring36_ok] in Hok.
  - rewrite <- lit_length, (perm36_length _ Hok), (perm36_valid _ Hok)
      in Hinit.
    cbn [Nat.eqb andb] in Hinit. injection Hinit as <-.
    split; [|reflexivity]. split; [reflexivity|].
    split; [reflexivity | exact Hok].
  - revert Hinit.
    match goal with
    | |- (if ?b then _ else _) = _ -> _ =>
        remember b as tb eqn:Htb; symmetry in Htb; destruct tb
    end; intros Hinit.
    + injection Hinit as <-. split; [|reflexivity].
      split; [reflexivity|].
      split; [reflexivity | exact Hok].
    + destruct (Rotor_init (Tuple w n) 1 (ord "A")) as [b|e] eqn:Hb;
        cbn [rbind] in Hinit; [|discriminate].
      pose proof (Rotor_init_length _ _ _ _ Hb) as Hlen.
      apply Rotor_init_cases in Hb. destruct Hb as [Hm _].
      rewrite Hm, (perm36_length _ Hok) in Hlen. discriminate.
  - rewrite (perm36_length _ Hok), (perm36_valid _ Hok) in Hinit.
    cbn [Nat.eqb andb] in Hinit. injection Hinit as <-.
    split; [|reflexivity]. split; [reflexivity|].
    split; [reflexivity | exact Hok].
Qed.

Lemma build_rotors36 (rts : list rotor_type)
    (rs : list Adv.AdvancedRotor) :
  Adv.build_rotors rts = Ok rs -> Forall wiring36_ok rts ->
  length rs = length rts /\
  Forall (fun r => rotor36_ok r /\ is_reflector (Adv.base r) = false) rs.
Proof.
  revert rs. induction rts as [|rt rts IH]; intros rs Hb Hok;
    cbn [Adv.build_rotors] in Hb.
  - injection Hb as <-. split; [reflexivity | constructor].
  - inversion Hok as [|? ? Hrt Hrts]; subst.
    destruct (Adv.AdvancedRotor_init rt 1 (ord "A")) as [r|e] eqn:Hr;
      cbn [rbind] in Hb; [|discriminate].
    destruct (Adv.build_rotors rts) as [rs'|e]; cbn [rbind] in Hb;
      [|discriminate].
    injection Hb as <-. destruct (IH rs' eq_refl Hrts) as [Hlen Hall].
    split; [cbn; lia|].
    constructor; [exact (AdvancedRotor_init_36 rt r Hr Hrt) | exact Hall].
Qed.

Lemma valid_reflector36 (r : Adv.AdvancedRotor) :
  rotor36_ok r -> Adv.AdvancedRotor_valid_reflector r = Ok true ->
  involution36 (mapping (Adv.base r)).
Proof.
  intros (H36 & _ & Hperm). unfold Adv.AdvancedRotor_valid_reflector.
  rewrite H36. destruct (notch (Adv.base r)); [discriminate|].
  rewrite valid_reflector_loop_true.
  pose proof (perm36_length _ Hperm) as Hlen.
  rewrite map_fst_combine_eq, map_snd_combine_eq
    by (rewrite lineup_length; auto).
  rewrite Forall_forall. intros H a x y Hx Hy.
  assert (Hin : In (x, y) (combine Adv.lineup (mapping (Adv.base r)))).
  { apply (nth_error_In _ a). rewrite nth_error_zip, Hx, Hy. reflexivity. }
  destruct (H _ Hin) as (i & Hi & Hk). cbn [fst snd] in Hi, Hk.
  apply index_Ok in Hi. destruct Hi as [Hi _]. exists i. auto.
Qed.

Lemma update_length {A} (l : list A) (i : nat) (a : A) :
  length (update l i a) = length l.
Proof.
  revert i. induction l as [|x l IH]; intros [|i]; cbn; auto.
Qed.

Lemma update_Forall {A} (P : A -> Prop) (l : list A) (i : nat) (a : A) :
  Forall P l -> P a -> Forall P (update l i a).
Proof.
  intros Hl Ha. revert i.
  induction Hl as [|x l Hx Hl IH]; intros [|i]; cbn; auto.
Qed.

Lemma rotors36_update (rs : list Adv.AdvancedRotor) (i : nat)
    (r' : Adv.AdvancedRotor) :
  rotors36_ok rs -> rotor36_ok r' -> rotors36_ok (update rs (S i) r').
Proof.
  intros (r0 & rest & -> & Hlen & Hall & Hinv) Hr'.
  exists r0, (update rest i r'). split; [reflexivity|].
  split; [rewrite update_length; exact Hlen|]. split; [|exact Hinv].
  inversion Hall; subst. constructor; [assumption|].
  apply update_Forall; assumption.
Qed.

Lemma rotors36_nth (rs : list Adv.AdvancedRotor) (i : nat)
    (r : Adv.AdvancedRotor) :
  rotors36_ok rs -> nth_error rs i = Some r -> rotor36_ok r.
Proof.
  intros (r0 & rest & -> & _ & Hall & _) Hr.
  rewrite Forall_forall in Hall. apply Hall, (nth_error_In _ _ Hr).
Qed.

Lemma ring_settings_loop36 (rings : list Z) :
  forall (i : nat) (rs rs' : list Adv.AdvancedRotor) (u : unit),
    Adv.ring_settings_loop i rings rs = (Ok u, rs') ->
    rotors36_ok rs -> rotors36_ok rs'.
Proof.
  induction rings as [|ring rings IH]; intros i rs rs' u H Hok;
    cbn [Adv.ring_settings_loop] in H.
  - injection H as _ <-. exact Hok.
  - destruct ((ring <? 1) || (ring >? 36)); [discriminate|].
    destruct (nth_error rs (S i)) as [r|] eqn:Hr; [|discriminate].
    apply IH in H; [exact H|].
    apply rotors36_update; [exact Hok|].
    destruct (rotors36_nth rs _ r Hok Hr) as (H36 & Hpos & Hperm).
    split; [exact H36|]. split; [exact Hpos | exact Hperm].
Qed.

Lemma position_settings_loop36 (positions : list char) :
  forall (i : nat) (rs rs' : list Adv.AdvancedRotor) (u : unit),
    Adv.position_settings_loop i positions rs = (Ok u, rs') ->
    rotors36_ok rs -> rotors36_ok rs'.
Proof.
  induction positions as [|p positions IH]; intros i rs rs' u H Hok;
    cbn [Adv.position_settings_loop] in H.
  - injection H as _ <-. exact Hok.
  - destruct (Adv.c_valid p) eqn:Hp; cbn [negb] in H; [|discriminate].
    destruct (nth_error rs (S i)) as [r|] eqn:Hr; [|discriminate].
    apply IH in H; [exact H|].
    apply rotors36_update; [exact Hok|].
    destruct (rotors36_nth rs _ r Hok Hr) as (H36 & Hpos & Hperm).
    split; [exact H36|]. split; [exact Hp | exact Hperm].
Qed.

Lemma Commercial_enigma_advanced_init_ok (rts : list rotor_type)
    (rings : option (list Z)) (positions : option (list char))
    (self : Adv.Commercial_enigma_advanced) :
  Adv.Commercial_enigma_advanced_init rts rings positions = Ok self ->
  Forall wiring36_ok rts -> cea_ok self.
Proof.
  unfold Adv.Commercial_enigma_advanced_init. intros Hinit Hok.
  destruct (Nat.eqb (length rts) 4 || Nat.eqb (length rts) 5) eqn:Hlen;
    cbn [negb] in Hinit; [|discriminate].
  destruct (Adv.build_rotors rts) as [rs|e] eqn:Hb; cbn [rbind] in Hinit;
    [|discriminate].
  destruct (build_rotors36 rts rs Hb Hok) as [Hlrs Hall].
  destruct rs as [|r0 rest].
  { cbn in Hlrs. rewrite <- Hlrs in Hlen. discriminate. }
  cbn [getitem nth_error rbind] in Hinit.
  inversion Hall as [|? ? [Hr0 Hnr] Hrest]; subst.
  rewrite Hnr in Hinit. cbn [negb] in Hinit.
  destruct (Adv.AdvancedRotor_valid_reflector r0) as [[|]|e] eqn:Hv;
    cbn [rbind] in Hinit; try discriminate.
  cbn [update] in Hinit.
  destruct (existsb _ _); [discriminate|].
  assert (Hstart : rotors36_ok
            (Adv.with_base (set_is_reflector true (Adv.base r0)) r0
             :: rest)).
  { eexists. eexists. split; [reflexivity|]. split.
    - cbn in Hlrs. apply orb_true_iff in Hlen.
      rewrite !Nat.eqb_eq in Hlen. lia.
    - split; [|exact (valid_reflector36 r0 Hr0 Hv)].
      constructor.
      + destruct Hr0 as (H36 & Hpos & Hperm).
        split; [exact H36|]. split; [exact Hpos | exact Hperm].
      + eapply Forall_impl; [|exact Hrest]. cbn. tauto. }
  revert Hinit Hstart.
  generalize (Adv.with_base (set_is_reflector true (Adv.base r0)) r0 :: rest).
  intros rs1 Hinit Hstart.
  assert (Hrings : forall rs2,
            Adv.opt_apply Adv.ring_settings rings rs1 = Ok rs2 ->
            rotors36_ok rs2).
  { intros rs2. unfold Adv.opt_apply. destruct rings as [rg|].
    - unfold Adv.ring_settings.
      destruct (negb _); [discriminate|].
      destruct (Adv.ring_settings_loop 0 rg rs1) as [[u|e] rs'] eqn:Hl;
        [|discriminate].
      intros [= <-]. exact (ring_settings_loop36 _ _ _ _ _ Hl Hstart).
    - intros [= <-]. exact Hstart. }
  destruct (Adv.opt_apply Adv.ring_settings rings rs1) as [rs2|e];
    cbn [rbind] in Hinit; [|discriminate].
  specialize (Hrings rs2 eq_refl).
  assert (Hposs : forall rs3,
            Adv.opt_apply Adv.position_settings positions rs2 = Ok rs3 ->
            rotors36_ok rs3).
  { intros rs3. unfold Adv.opt_apply. destruct positions as [ps|].
    - unfold Adv.position_settings.
      destruct (negb _); [discriminate|].
      destruct (Adv.position_settings_loop 0 ps rs2) as [[u|e] rs'] eqn:Hl;
        [|discriminate].
      intros [= <-]. exact (position_settings_loop36 _ _ _ _ _ Hl Hrings).
    - intros [= <-]. exact Hrings. }
  destruct (Adv.opt_apply Adv.position_settings positions rs2) as [rs3|e];
    cbn [rbind] in Hinit; [|discriminate].
  injection Hinit as <-. exact (Hposs rs3 eq_refl).
Qed.

Lemma permutation36b_Permutation (m : list char) :
  permutation36b m = true -> Permutation Adv.lineup m.
Proof.
  unfold permutation36b. rewrite andb_true_iff, forallb_forall.
  intros [Hlen Hall]. apply Nat.leb_le in Hlen.
  apply NoDup_Permutation_bis.
  - exact lineup_NoDup.
  - rewrite lineup_length. exact Hlen.
  - intros x Hx. apply mem_In, Hall, Hx.
Qed.

(** X25.  A machine that [Commercial_enigma_advanced(rotors, rings,
    positions)] builds from arguments written in ASCII (every position one
    ASCII character, notches of ASCII characters) and from wirings that are
    permutations of the 36 symbols decodes what it encodes.  For every text
    [P] of upper-case letters and
    digits, [encode_string(P)] returns some [C] of the same length over the
    36 symbols, and [encode_string(C)] on a machine built from the same
    arguments returns [P]; both runs leave the rotors in the same
    positions, and neither raises. *)
Theorem Commercial_enigma_advanced_round_trip
    (rts : list rotor_type) (rings : option (list Z))
    (positions : option (list char))
    (self : Adv.Commercial_enigma_advanced) (P : str) :
  Adv.Commercial_enigma_advanced_init rts rings positions = Ok self ->
  ascii_arguments rts positions None ->
  Forall wiring36_ok rts ->
  Forall (fun c => Adv.c_valid c = true) P ->
  exists C self',
    Adv.Commercial_enigma_advanced_encode_string P self = (Ok C, self') /\
    Adv.Commercial_enigma_advanced_encode_string C self = (Ok P, self') /\
    length C = length P /\
    Forall (fun c => Adv.c_valid c = true) C.
Proof.
  intros Hinit _ Hok HP.
  pose proof (Commercial_enigma_advanced_init_ok _ _ _ _ Hinit Hok) as Hself.
  destruct (encode_string_loop_involutive_on
              Adv.Commercial_enigma_advanced_encode cea_ok
              (fun c => Adv.c_valid c = true)
              Commercial_enigma_advanced_encode_involutive
              P [] [] self Hself HP)
    as (C & self' & HC & HP' & Hlen & HCv & _).
  exists C, self'. auto.
Qed.

Lemma Commercial_enigma_advanced_round_trip_witness :
  exists C self',
    Adv.Commercial_enigma_advanced_encode_string (lit "HELLO2023") cea_demo
    = (Ok C, self') /\
    Adv.Commercial_enigma_advanced_encode_string C cea_demo
    = (Ok (lit "HELLO2023"), self') /\
    length C = length (lit "HELLO2023") /\
    Forall (fun c => Adv.c_valid c = true) C.
Proof.
  apply (Commercial_enigma_advanced_round_trip [rflctr; cer3; cer2; cer1]
           None None cea_demo (lit "HELLO2023")).
  - reflexivity.
  - reflexivity.
  - repeat constructor; apply permutation36b_Permutation; reflexivity.
  - repeat constructor.
Defined.

(** ** The plugboard of the advanced machine *)

Lemma valid_not_space (c : char) :
  Adv.c_valid c = true -> c_isspace c = false.
Proof.
  unfold Adv.c_valid, c_isalpha, c_isupper, c_islower, c_isnumeric,
    c_isspace.
  intros H. apply orb_false_iff. split; apply andb_false_iff; lia.
Qed.

Lemma strip_no_space (s : str) :
  (forall c, In c s -> c_isspace c = false) -> strip s = s.
Proof.
  intros Hs. unfold strip. rewrite (lstrip_head s Hs).
  rewrite lstrip_head by (intros c Hc; apply Hs, in_rev, Hc).
  apply rev_involutive.
Qed.

Lemma AdvancedPlugLead_init_wf (lead : str) (pl : PlugLead) :
  Adv.AdvancedPlugLead_init lead = Ok pl -> lead36_ok lead -> lead36_wf pl.
Proof.
  unfold Adv.AdvancedPlugLead_init, lead36_ok. intros Hinit Hok.
  rewrite Forall_forall in Hok.
  rewrite strip_no_space in Hinit
    by (intros c Hc; apply valid_not_space, Hok, Hc).
  destruct lead as [|m0 [|m1 [|? ?]]]; try discriminate.
  destruct (Z.eqb_spec m0 m1) as [|Hne]; [discriminate|].
  injection Hinit as <-. unfold lead36_wf, mkpair. cbn.
  destruct (Z.eqb_spec m0 m1); [contradiction|].
  assert (H0 : Adv.c_valid m0 = true) by (apply Hok; cbn; auto).
  assert (H1 : Adv.c_valid m1 = true) by (apply Hok; cbn; auto).
  repeat split; try lia.
  - destruct (Z.min_spec m0 m1) as [[_ ->]|[_ ->]]; assumption.
  - destruct (Z.max_spec m0 m1) as [[_ ->]|[_ ->]]; assumption.
Qed.

Lemma lead36_wf_letters (q : PlugLead) (c : char) :
  lead36_wf q -> (In c (pair q) <-> c = first_letter q \/ c = last_letter q).
Proof.
  intros (_ & -> & _). cbn. intuition congruence.
Qed.

Lemma AdvancedPlugLead_encode_wf (q : PlugLead) (s : char) :
  lead36_wf q -> Adv.c_valid s = true ->
  Adv.AdvancedPlugLead_encode q s
  = Ok (if mem s (pair q) then partner q s else s).
Proof.
  intros Hwf Hs. pose proof Hwf as (Hlt & Hp & _).
  unfold Adv.AdvancedPlugLead_encode, partner.
  rewrite Hs. cbn [negb].
  destruct (mem s (pair q)) eqn:Hm; [|reflexivity].
  apply mem_In in Hm. apply (lead36_wf_letters q s Hwf) in Hm.
  rewrite Hp. cbn [set_remove].
  destruct (Z.eq_dec s (first_letter q)) as [->|Hne].
  - rewrite Z.eqb_refl. reflexivity.
  - destruct Hm as [Hm|Hm]; [contradiction|]. subst s.
    destruct (Z.eq_dec (last_letter q) (last_letter q)); [|contradiction].
    destruct (Z.eqb_spec (last_letter q) (first_letter q)); [lia|].
    reflexivity.
Qed.

Lemma board36_inv_nil (occ : list char) : board36_inv [] occ.
Proof. split; [|split]; intros; contradiction. Qed.

Lemma AdvancedPlugboard_add_inv (pl : PlugLead) (self : Plugboard) :
  lead36_wf pl ->
  board36_inv (connections self) (occupied_letters self) ->
  let self' := snd (Adv.AdvancedPlugboard_add pl self) in
  board36_inv (connections self') (occupied_letters self').
Proof.
  intros Hpl Hinv. unfold Adv.AdvancedPlugboard_add.
  destruct (mem (first_letter pl) (occupied_letters self)) eqn:Hf;
    cbn [andb].
  { destruct (mem (last_letter pl) (occupied_letters self)); exact Hinv. }
  destruct (mem (last_letter pl) (occupied_letters self)) eqn:Hl;
    [exact Hinv|].
  destruct (Adv.connection_limit <=? length (connections self))%nat;
    [exact Hinv|].
  cbn [snd connections occupied_letters].
  apply mem_not_In in Hf, Hl.
  destruct Hinv as (Hwf & Hocc & Huniq).
  assert (Hfresh : forall q c, In q (connections self) -> In c (pair q) ->
                               ~ In c (pair pl)).
  { intros q c Hq Hc Hc'. apply (lead36_wf_letters pl c Hpl) in Hc'.
    pose proof (Hocc q c Hq Hc). destruct Hc'; subst c; contradiction. }
  unfold conn_add. destruct (conn_mem pl (connections self)) eqn:Hm.
  - split; [|split]; auto.
    intros q c Hq Hc. apply set_union_intro1. eapply Hocc; eauto.
  - split; [|split].
    + intros q Hq. apply in_app_or in Hq. destruct Hq as [Hq|[<-|[]]]; auto.
    + intros q c Hq Hc. apply in_app_or in Hq.
      destruct Hq as [Hq|[<-|[]]].
      * apply set_union_intro1. eapply Hocc; eauto.
      * apply set_union_intro2. exact Hc.
    + intros q1 q2 c H1 H2 Hc1 Hc2.
      apply in_app_or in H1, H2.
      destruct H1 as [H1|[<-|[]]], H2 as [H2|[<-|[]]].
      * eapply Huniq; eauto.
      * exfalso. eapply Hfresh; eauto.
      * exfalso. eapply Hfresh; eauto.
      * reflexivity.
Qed.

Lemma AdvancedPlugboard_add_nonempty (pl : PlugLead) (self : Plugboard) :
  connections self <> [] ->
  connections (snd (Adv.AdvancedPlugboard_add pl self)) <> [].
Proof.
  intros Hne. unfold Adv.AdvancedPlugboard_add.
  repeat match goal with
         | |- context [if ?b then _ else _] => destruct b
         end; cbn [snd connections]; auto using conn_add_nonempty.
Qed.

Lemma AdvancedPlugboard_add_all_inv (leads : list str) (self : Plugboard) :
  Forall lead36_ok leads ->
  board36_inv (connections self) (occupied_letters self) ->
  let self' := snd (Adv.AdvancedPlugboard_add_all leads self) in
  board36_inv (connections self') (occupied_letters self') /\
  (connections self <> [] -> connections self' <> []).
Proof.
  intros Hleads. revert self.
  induction Hleads as [|lead rest Hlead Hrest IH]; intros self Hinv.
  - split; [exact Hinv | auto].
  - cbn [Adv.AdvancedPlugboard_add_all]. unfold bind, lift.
    destruct (Adv.AdvancedPlugLead_init lead) as [pl|e] eqn:Hpl;
      [|split; [exact Hinv | auto]].
    pose proof (AdvancedPlugboard_add_inv pl self
                  (AdvancedPlugLead_init_wf _ _ Hpl Hlead) Hinv) as Hadd.
    pose proof (AdvancedPlugboard_add_nonempty pl self) as Hne.
    destruct (Adv.AdvancedPlugboard_add pl self) as [[w|e] self1];
      cbn [snd] in Hadd, Hne |- *.
    + destruct (IH self1 Hadd) as [H1 H2]. split; [exact H1 | auto].
    + split; [exact Hadd | exact Hne].
Qed.

Lemma AdvancedPlugboard_init_inv (leads : list str) (p : Plugboard) :
  Adv.AdvancedPlugboard_init (Some leads) = Ok p ->
  Forall lead36_ok leads -> leads <> [] ->
  board36_inv (connections p) (occupied_letters p) /\ connections p <> [].
Proof.
  intros Hinit Hleads Hne. unfold Adv.AdvancedPlugboard_init in Hinit.
  destruct leads as [|lead rest]; [contradiction|].
  inversion Hleads as [|? ? Hlead Hrest]; subst.
  cbn [Adv.AdvancedPlugboard_add_all] in Hinit. unfold bind, lift in Hinit.
  destruct (Adv.AdvancedPlugLead_init lead) as [pl|e] eqn:Hpl;
    [|discriminate].
  pose proof (AdvancedPlugboard_add_inv pl (mkPlugboard [] [])
                (AdvancedPlugLead_init_wf _ _ Hpl Hlead)
                (board36_inv_nil [])) as Hadd.
  revert Hinit Hadd. unfold Adv.AdvancedPlugboard_add at 1 2.
  cbn [occupied_letters connections mem set_mem andb conn_mem existsb
       length].
  change (Adv.connection_limit <=? 0)%nat with false. cbv iota.
  cbn [snd]. intros Hinit Hadd.
  pose proof (AdvancedPlugboard_add_all_inv rest _ Hrest Hadd) as Hall.
  cbv zeta in Hall. cbn [connections] in Hall.
  destruct (Adv.AdvancedPlugboard_add_all rest _) as [[u|e] p'];
    [|discriminate].
  injection Hinit as <-. cbn [snd] in Hall. destruct Hall as [H1 H2].
  split; [exact H1|]. apply H2, conn_add_nonempty.
Qed.

Lemma AdvancedPlugboard_encode_loop_find (conns : list PlugLead) (i n : nat)
    (s : char) :
  (i + length conns = n)%nat -> conns <> [] -> Adv.c_valid s = true ->
  (forall q, In q conns -> lead36_wf q) ->
  Adv.AdvancedPlugboard_encode_loop conns i n s =
  Ok (match find (fun q => mem s (pair q)) conns with
      | Some q => partner q s
      | None => s
      end).
Proof.
  revert i. induction conns as [|pl rest IH]; intros i Hn Hne Hs Hwf;
    [contradiction|].
  cbn [Adv.AdvancedPlugboard_encode_loop find].
  rewrite (AdvancedPlugLead_encode_wf pl s) by auto using in_eq.
  destruct (mem s (pair pl)) eqn:Hm; cbn [orb]; [reflexivity|].
  destruct (Nat.eqb_spec (S i) n) as [He|He].
  - destruct rest; [reflexivity | cbn in Hn; lia].
  - apply IH; auto.
    + cbn in Hn. lia.
    + intros ->. cbn in Hn. lia.
    + intros q Hq. apply Hwf. right. exact Hq.
Qed.

Lemma partner36_partner (q : PlugLead) (s : char) :
  lead36_wf q -> In s (pair q) ->
  In (partner q s) (pair q) /\ partner q (partner q s) = s /\
  Adv.c_valid (partner q s) = true.
Proof.
  intros Hwf Hs. pose proof Hwf as (Hlt & Hp & Hf & Hl).
  apply (lead36_wf_letters q s Hwf) in Hs. unfold partner.
  rewrite (lead36_wf_letters q _ Hwf).
  destruct (Z.eqb_spec s (first_letter q)) as [->|Hne].
  - destruct (Z.eqb_spec (last_letter q) (first_letter q)); [lia|]. auto.
  - destruct Hs as [Hs|Hs]; [contradiction|]. subst s.
    rewrite Z.eqb_refl. auto.
Qed.

Lemma AdvancedPlugboard_encode_involutive (p : Plugboard) (s : char) :
  board36_inv (connections p) (occupied_letters p) ->
  connections p <> [] -> Adv.c_valid s = true ->
  exists t, Adv.AdvancedPlugboard_encode p s = Ok t /\
            Adv.c_valid t = true /\
            Adv.AdvancedPlugboard_encode p t = Ok s.
Proof.
  intros (Hwf & _ & Huniq) Hne Hs. unfold Adv.AdvancedPlugboard_encode.
  rewrite (AdvancedPlugboard_encode_loop_find _ 0 _ s) by auto.
  destruct (find (fun q => mem s (pair q)) (connections p)) as [q|]
    eqn:Hfind.
  - apply find_some in Hfind. destruct Hfind as [Hq Hm]. apply mem_In in Hm.
    destruct (partner36_partner q s (Hwf q Hq) Hm) as (Hpin & Hpp & Hpu).
    exists (partner q s). split; [reflexivity|]. split; [exact Hpu|].
    rewrite (AdvancedPlugboard_encode_loop_find _ 0 _ (partner q s))
      by auto.
    destruct (find (fun q0 => mem (partner q s) (pair q0)) (connections p))
      as [q'|] eqn:Hfind'.
    + apply find_some in Hfind'. destruct Hfind' as [Hq' Hm'].
      apply mem_In in Hm'.
      rewrite <- (Huniq q q' _ Hq Hq' Hpin Hm'), Hpp. reflexivity.
    + apply mem_In in Hpin.
      rewrite (find_none _ _ Hfind' q Hq) in Hpin. discriminate.
  - exists s. split; [reflexivity|]. split; [exact Hs|].
    rewrite (AdvancedPlugboard_encode_loop_find _ 0 _ s) by auto.
    rewrite Hfind. reflexivity.
Qed.

Lemma AdvancedEnigma_encode_involutive (self : Adv.AdvancedEnigma)
    (c : char) :
  ade_ok self -> Adv.c_valid c = true ->
  exists d self',
    Adv.AdvancedEnigma_encode c self = (Ok d, self') /\
    Adv.AdvancedEnigma_encode d self = (Ok c, self') /\
    Adv.c_valid d = true /\ ade_ok self'.
Proof.
  intros [Hce Hpb] Hc. unfold Adv.AdvancedEnigma_encode.
  destruct (Adv.pb self) as [p|] eqn:Hp.
  - destruct Hpb as [Hinv Hne].
    destruct (AdvancedPlugboard_encode_involutive p c Hinv Hne Hc)
      as (c1 & Hc1 & Hu1 & Hb1).
    destruct (Commercial_enigma_advanced_encode_involutive _ c1 Hce Hu1)
      as (c2 & ce' & Henc & Hdec & Hu2 & Hce').
    destruct (AdvancedPlugboard_encode_involutive p c2 Hinv Hne Hu2)
      as (c3 & Hc3 & Hu3 & Hb3).
    exists c3, (Adv.set_ce ce' self).
    unfold bind, lift, Adv.on_ce.
    rewrite Hc1, Henc, Hc3, Hb3, Hdec, Hb1.
    split; [reflexivity|]. split; [reflexivity|]. split; [exact Hu3|].
    split; [exact Hce'|]. cbn [Adv.pb Adv.set_ce]. rewrite Hp. auto.
  - destruct (Commercial_enigma_advanced_encode_involutive _ c Hce Hc)
      as (d & ce' & Henc & Hdec & Hu & Hce').
    exists d, (Adv.set_ce ce' self). unfold Adv.on_ce.
    rewrite Henc, Hdec.
    split; [reflexivity|]. split; [reflexivity|]. split; [exact Hu|].
    split; [exact Hce'|]. cbn [Adv.pb Adv.set_ce]. rewrite Hp. exact I.
Qed.

Lemma AdvancedEnigma_init_ok (rts : list rotor_type)
    (rings : option (list Z)) (positions : option (list char))
    (plugboard : option (list str)) (advanced : list str)
    (self : Adv.AdvancedEnigma) :
  Adv.AdvancedEnigma_init rts rings positions plugboard advanced = Ok self ->
  Forall wiring36_ok rts ->
  (forall leads, plugboard = Some leads ->
                 leads <> [] /\ Forall lead36_ok leads) ->
  ade_ok self.
Proof.
  unfold Adv.AdvancedEnigma_init. intros Hinit Hok Hpb.
  destruct (Adv.Commercial_enigma_advanced_init rts rings positions)
    as [c|e] eqn:Hce; cbn [rbind] in Hinit; [|discriminate].
  pose proof (Commercial_enigma_advanced_init_ok _ _ _ _ Hce Hok) as Hc.
  destruct plugboard as [leads|].
  - destruct (Adv.AdvancedPlugboard_init (Some leads)) as [p|e] eqn:Hp;
      cbn [rbind] in Hinit; [|discriminate].
    injection Hinit as <-. split; [exact Hc|]. cbn [Adv.pb].
    destruct (Hpb leads eq_refl) as [Hne Hleads].
    exact (AdvancedPlugboard_init_inv leads p Hp Hleads Hne).
  - cbn [rbind] in Hinit. injection Hinit as <-.
    split; [exact Hc | exact I].
Qed.

(** X26.  The same holds for [AdvancedEnigma] with its plugboard: built
    from arguments written in ASCII (every position one ASCII character,
    notches of ASCII characters), from wirings that are permutations of the
    36 symbols and, when leads are given, from at least one lead, each made
    of upper-case letters and digits, the machine returns for every text
    [P] over the 36 symbols some [C] of the same length, and
    [encode_string(C)] on a machine built from the same arguments returns
    [P]. *)
Theorem AdvancedEnigma_round_trip
    (rts : list rotor_type) (rings : option (list Z))
    (positions : option (list char)) (plugboard : option (list str))
    (advanced : list str) (self : Adv.AdvancedEnigma) (P : str) :
  Adv.AdvancedEnigma_init rts rings positions plugboard advanced = Ok self ->
  ascii_arguments rts positions plugboard ->
  Forall wiring36_ok rts ->
  (forall leads, plugboard = Some leads ->
                 leads <> [] /\ Forall lead36_ok leads) ->
  Forall (fun c => Adv.c_valid c = true) P ->
  exists C self',
    Adv.AdvancedEnigma_encode_string P self = (Ok C, self') /\
    Adv.AdvancedEnigma_encode_string C self = (Ok P, self') /\
    length C = length P /\
    Forall (fun c => Adv.c_valid c = true) C.
Proof.
  intros Hinit _ Hok Hpb HP.
  pose proof (AdvancedEnigma_init_ok _ _ _ _ _ _ Hinit Hok Hpb) as Hself.
  destruct (encode_string_loop_involutive_on
              Adv.AdvancedEnigma_encode ade_ok
              (fun c => Adv.c_valid c = true)
              AdvancedEnigma_encode_involutive
              P [] [] self Hself HP)
    as (C & self' & HC & HP' & Hlen & HCv & _).
  exists C, self'. auto.
Qed.

Lemma AdvancedEnigma_round_trip_witness :
  exists C self',
    Adv.AdvancedEnigma_encode_string (lit "MAYBE1994OR47321") ade_demo
    = (Ok C, self') /\
    Adv.AdvancedEnigma_encode_string C ade_demo
    = (Ok (lit "MAYBE1994OR47321"), self') /\
    length C = length (lit "MAYBE1994OR47321") /\
    Forall (fun c => Adv.c_valid c = true) C.
Proof.
  apply (AdvancedEnigma_round_trip [rflctr; cer3; cer2; cer1]
           (Some [3; 31; 23]) (Some (lit "4DT"))
           (Some [lit "8U"; lit "RF"; lit "2M"]) Adv.default_advanced
           ade_demo (lit "MAYBE1994OR47321")).
  - reflexivity.
  - reflexivity.
  - repeat constructor; apply permutation36b_Permutation; reflexivity.
  - intros leads [= <-]. split; [discriminate | repeat constructor].
  - repeat constructor.
Defined.
